(** * NTT for lattice-based cryptography: a shallow embedding of [ntt.py]
    and [usage.py], and the properties of the transform engine.

    Python integers are [Z]; [%] and [//] are [Z.modulo] and [Z.div] (both
    floor, as in Python); lists of integers are [list Z] indexed by [Z] with
    Python's rules (negative indices count from the end, anything else out of
    range raises [IndexError]); exceptions are values of [exn]; [while] loops
    carry fuel and report [Diverge] when it runs out. *)

From Stdlib Require Import ZArith List Lia Bool Ascii Zdivisibility Zcong.
From Stdlib Require Import Morphisms Setoid.
Import ListNotations.
Local Open Scope Z_scope.

(** ** Results of Python computations *)

Inductive exn : Set :=
| InvalidRangeError   (* Exception("Random number range max cannot be less than min.") *)
| RootNotFoundError   (* Exception("Failed to find primitive nth root of unity.") *)
| IndexError
| ZeroDivisionError
| ValueError.

Inductive result (A : Type) : Type :=
| Ok (a : A)
| Raise (e : exn)
| Diverge.

Arguments Ok {A} a.
Arguments Raise {A} e.
Arguments Diverge {A}.

Definition bind {A B} (c : result A) (k : A -> result B) : result B :=
  match c with
  | Ok a => k a
  | Raise e => Raise e
  | Diverge => Diverge
  end.

Notation "x <- c ;; k" := (bind c (fun x => k))
  (at level 61, c at next level, right associativity).
Notation "' pat <- c ;; k" := (bind c (fun x => match x with pat => k end))
  (at level 61, pat pattern, c at next level, right associativity).

(** ** Python primitives *)

Definition len {A} (l : list A) : Z := Z.of_nat (List.length l).

(** [a % q] *)
Definition py_mod (a q : Z) : result Z :=
  if q =? 0 then Raise ZeroDivisionError else Ok (a mod q).

(** [a // q] *)
Definition py_floordiv (a q : Z) : result Z :=
  if q =? 0 then Raise ZeroDivisionError else Ok (a / q).

(** [pow(b, e, m)]: a negative exponent goes through the modular inverse,
    which exists only for a base coprime to the modulus. *)
Definition py_pow3 (b e m : Z) : result Z :=
  if m =? 0 then Raise ValueError
  else if 0 <=? e then Ok (b ^ e mod m)
  else if Z.gcd b m =? 1 then Ok (Z.invmod b m ^ (- e) mod m)
  else Raise ValueError.

(** [int.bit_length()] *)
Definition bit_length (x : Z) : Z :=
  if x =? 0 then 0 else Z.log2 (Z.abs x) + 1.

(** Normalisation of a Python index against a list of length [n]. *)
Definition py_norm_index (n i : Z) : option nat :=
  if (0 <=? i) && (i <? n) then Some (Z.to_nat i)
  else if (- n <=? i) && (i <? 0) then Some (Z.to_nat (n + i))
  else None.

(** [l[i]] *)
Definition py_getitem {A} (l : list A) (i : Z) : result A :=
  match py_norm_index (len l) i with
  | Some k => match nth_error l k with Some x => Ok x | None => Raise IndexError end
  | None => Raise IndexError
  end.

Fixpoint list_update {A} (l : list A) (k : nat) (v : A) : list A :=
  match l, k with
  | [], _ => []
  | _ :: l', O => v :: l'
  | x :: l', S k' => x :: list_update l' k' v
  end.

(** [l[i] = v] *)
Definition py_setitem {A} (l : list A) (i : Z) (v : A) : result (list A) :=
  match py_norm_index (len l) i with
  | Some k => Ok (list_update l k v)
  | None => Raise IndexError
  end.

(** [range(lo, hi)] *)
Definition zrange (lo hi : Z) : list Z :=
  map (fun k => lo + Z.of_nat k) (seq 0 (Z.to_nat (hi - lo))).

(** [for x in xs: s = body(x, s)], an exception leaving the loop. *)
Fixpoint for_each {X S} (xs : list X) (body : X -> S -> result S) (s : S) : result S :=
  match xs with
  | [] => Ok s
  | x :: xs' => s' <- body x s ;; for_each xs' body s'
  end.

Definition for_range {S} (lo hi : Z) (body : Z -> S -> result S) (s : S) : result S :=
  for_each (zrange lo hi) body s.

(** ** The entropy source

    [os.urandom] is an injected capability: an unbounded tape of bytes and a
    cursor that every draw advances. *)

Definition entropy := nat -> Byte.byte.

Definition urandom (rng : entropy) (pos : nat) (k : nat) : list Byte.byte * nat :=
  (map rng (seq pos k), (pos + k)%nat).

Definition byte_val (b : Byte.byte) : Z := Z.of_N (Byte.to_N b).

(** [int.from_bytes(bs, byteorder="little")] *)
Fixpoint from_bytes_le (bs : list Byte.byte) : Z :=
  match bs with
  | [] => 0
  | b :: bs' => byte_val b + 256 * from_bytes_le bs'
  end.

(** ** [secure_next_int] *)

(** Lines 35-39: the byte width and the doubling-shift mask.
    [int(math.log(numSize*8, 2))] is read as the floor of the base-2
    logarithm.  The floating-point quotient truncates to that floor unless
    [numSize*8] is within rounding distance below a power of two, which
    takes a span of more than [2^50] bits. *)
Definition num_size (i_range : Z) : Z := (bit_length i_range + 7) / 8.

Definition mask_iter (i_range : Z) : Z := Z.log2 (num_size i_range * 8).

Definition range_mask (i_range : Z) : Z :=
  fold_left (fun mask i => Z.lor mask (Z.shiftr mask (2 ^ i)))
            (zrange 0 (mask_iter i_range)) i_range.

(** One draw of the rejection loop (line 42). *)
Definition masked_draw (rng : entropy) (numSize mask : Z) (pos : nat) : Z * nat :=
  let '(bs, pos') := urandom rng pos (Z.to_nat numSize) in
  (Z.land (from_bytes_le bs) mask, pos').

(** Lines 41-43: [while True: ... if (result <= i_range): break]. *)
Fixpoint reject_loop (fuel : nat) (rng : entropy) (numSize mask i_range : Z)
         (pos : nat) : result (Z * nat) :=
  match fuel with
  | O => Diverge
  | S fuel' =>
      let '(r, pos') := masked_draw rng numSize mask pos in
      if r <=? i_range then Ok (r, pos')
      else reject_loop fuel' rng numSize mask i_range pos'
  end.

Definition secure_next_int (fuel : nat) (rng : entropy) (min max : Z) (pos : nat)
  : result (Z * nat) :=
  if min =? max then Ok (min, pos)
  else if min >? max then Raise InvalidRangeError
  else
    let i_range := max - min in
    if i_range =? 0 then Ok (min, pos)
    else
      let mask := range_mask i_range in
      let numSize := num_size i_range in
      '(r, pos') <- reject_loop fuel rng numSize mask i_range pos ;;
      Ok (r + min, pos').

(** ** [get_prim_root] *)

(** The acceptance test of one candidate (lines 79-80), [n] already doubled. *)
Definition root_candidate (n q r uri : Z) : result (Z * bool) :=
  candidate <- py_pow3 uri r q ;;
  c <- py_pow3 candidate (n / 2) q ;;
  Ok (candidate, c =? q - 1).

(** Lines 77-82: [for _ in range(tries)] with its early [return]. *)
Fixpoint prim_root_tries (tries : nat) (fuel : nat) (rng : entropy) (n q r : Z)
         (pos : nat) : result (Z * nat) :=
  match tries with
  | O => Raise RootNotFoundError
  | S tries' =>
      '(uri, pos1) <- secure_next_int fuel rng 2 (q - 1) pos ;;
      '(candidate, accepted) <- root_candidate n q r uri ;;
      if accepted then Ok (candidate, pos1)
      else prim_root_tries tries' fuel rng n q r pos1
  end.

Definition get_prim_root (fuel : nat) (rng : entropy) (n q : Z) (r : option Z)
           (pos : nat) : result (Z * nat) :=
  let n := 2 * n in
  r <- match r with
       | None => py_floordiv (q - 1) n
       | Some r => Ok r
       end ;;
  let tries := 50%nat in
  prim_root_tries tries fuel rng n q r pos.

(** ** [speedup_FNTT] *)

(** Lines 118-121. *)
Definition ct_butterfly (q t S : Z) (j : Z) (A : list Z) : result (list Z) :=
  U <- py_getitem A j ;;
  Ajt <- py_getitem A (j + t) ;;
  let V := Ajt * S in
  x <- py_mod (U + V) q ;;
  A <- py_setitem A j x ;;
  y <- py_mod (U - V) q ;;
  py_setitem A (j + t) y.

(** Lines 114-121: one group [i] of stage [m]. *)
Definition fntt_group (q t m : Z) (psi_table_rev : list Z) (i : Z) (A : list Z)
  : result (list Z) :=
  let j_1 := 2 * i * t in
  let j_2 := j_1 + t - 1 in
  S <- py_getitem psi_table_rev (m + i) ;;
  for_range j_1 (j_2 + 1) (ct_butterfly q t S) A.

(** Lines 111-122: [while m < n]. *)
Fixpoint fntt_while (fuel : nat) (q n : Z) (psi_table_rev : list Z) (m t : Z)
         (A : list Z) : result (list Z) :=
  if m <? n then
    match fuel with
    | O => Diverge
    | S fuel' =>
        let t := Z.shiftr t 1 in
        A <- for_range 0 m (fntt_group q t m psi_table_rev) A ;;
        fntt_while fuel' q n psi_table_rev (Z.shiftl m 1) t A
    end
  else Ok A.

Definition speedup_FNTT (a : list Z) (q : Z) (psi_table_rev : list Z)
  : result (list Z) :=
  let n := len a in
  let t := n in
  let A := a in
  let m := 1 in
  fntt_while (List.length a) q n psi_table_rev m t A.

(** ** [speedup_INTT] *)

(** Lines 158-161. *)
Definition gs_butterfly (q t S : Z) (j : Z) (A : list Z) : result (list Z) :=
  U <- py_getitem A j ;;
  V <- py_getitem A (j + t) ;;
  x <- py_mod (U + V) q ;;
  A <- py_setitem A j x ;;
  y <- py_mod ((U - V) * S) q ;;
  py_setitem A (j + t) y.

(** Lines 155-162: one group; the loop state is the array and [j_1]. *)
Definition intt_group (q t h : Z) (psi_inv_table_rev : list Z) (i : Z)
           (st : list Z * Z) : result (list Z * Z) :=
  let '(A, j_1) := st in
  let j_2 := j_1 + t - 1 in
  S <- py_getitem psi_inv_table_rev (h + i) ;;
  A <- for_range j_1 (j_2 + 1) (gs_butterfly q t S) A ;;
  Ok (A, j_1 + Z.shiftl t 1).

(** Lines 151-164: [while m > 1]. *)
Fixpoint intt_while (fuel : nat) (q : Z) (psi_inv_table_rev : list Z) (t m : Z)
         (A : list Z) : result (list Z) :=
  if m >? 1 then
    match fuel with
    | O => Diverge
    | S fuel' =>
        let j_1 := 0 in
        let h := Z.shiftr m 1 in
        '(A, _) <- for_range 0 h (intt_group q t h psi_inv_table_rev) (A, j_1) ;;
        intt_while fuel' q psi_inv_table_rev (Z.shiftl t 1) (Z.shiftr m 1) A
    end
  else Ok A.

(** Lines 166-167. *)
Definition scale_step (q n_inv : Z) (j : Z) (A : list Z) : result (list Z) :=
  Aj <- py_getitem A j ;;
  x <- py_mod (Aj * n_inv) q ;;
  py_setitem A j x.

Definition speedup_INTT (a : list Z) (q : Z) (psi_inv_table_rev : list Z)
  : result (list Z) :=
  let n := len a in
  let A := a in
  let t := 1 in
  let m := n in
  A <- intt_while (List.length a) q psi_inv_table_rev t m A ;;
  n_inv <- py_pow3 n (-1) q ;;
  for_range 0 n (scale_step q n_inv) A.

(** ** [bit_reverse_order] *)

(** Python [str] values are lists of characters. *)
Definition str := list ascii.

Fixpoint bin_digits (p : positive) : str :=
  match p with
  | xH => ["1"%char]
  | xO p' => bin_digits p' ++ ["0"%char]
  | xI p' => bin_digits p' ++ ["1"%char]
  end.

(** [bin(x)] *)
Definition bin (x : Z) : str :=
  match x with
  | Z0 => ["0"; "b"; "0"]%char
  | Zpos p => "0"%char :: "b"%char :: bin_digits p
  | Zneg p => "-"%char :: "0"%char :: "b"%char :: bin_digits p
  end.

(** [s.zfill(width)]: zeros go after a leading sign. *)
Definition zfill (s : str) (width : Z) : str :=
  let pad := repeat "0"%char (Z.to_nat width - List.length s) in
  match s with
  | c :: s' =>
      if (Ascii.eqb c "+" || Ascii.eqb c "-")%bool then c :: pad ++ s' else pad ++ s
  | [] => pad
  end.

(** [int(s, 2)] on a string of binary digits; any other character, and the
    empty string, is a [ValueError]. *)
Fixpoint int2_digits (acc : Z) (s : str) : result Z :=
  match s with
  | [] => Ok acc
  | c :: s' =>
      if Ascii.eqb c "0" then int2_digits (2 * acc) s'
      else if Ascii.eqb c "1" then int2_digits (2 * acc + 1) s'
      else Raise ValueError
  end.

Definition int2 (s : str) : result Z :=
  match s with
  | [] => Raise ValueError
  | _ => int2_digits 0 s
  end.

(** Line 193: [int(bin(i)[2:].zfill(num_bits)[::-1], 2)]. *)
Definition rev_index_of (num_bits i : Z) : result Z :=
  int2 (rev (zfill (skipn 2 (bin i)) num_bits)).

Section BitReverse.
(** The elements are arbitrary Python values; [zero] is the integer [0]
    that fills the fresh list. *)
Context {A : Type} (zero : A).

(** Lines 193-194. *)
Definition bit_reverse_step (a : list A) (num_bits : Z) (i : Z) (res : list A)
  : result (list A) :=
  rev_index <- rev_index_of num_bits i ;;
  x <- py_getitem a i ;;
  py_setitem res rev_index x.

Definition bit_reverse_order (a : list A) : result (list A) :=
  let num_bits := len (bin (len a - 1)) - 2 in
  let res := repeat zero (List.length a) in
  for_range 0 (len a) (bit_reverse_step a num_bits) res.
End BitReverse.

(** ** The caller's pipeline ([usage.py]) *)

(** Lines 17-18. *)
Definition table_step (q psi psi_inv : Z) (i : Z) (st : list Z * list Z)
  : result (list Z * list Z) :=
  let '(psi_table, psi_inv_table) := st in
  p <- py_getitem psi_table (i - 1) ;;
  x <- py_mod (p * psi) q ;;
  psi_table <- py_setitem psi_table i x ;;
  p' <- py_getitem psi_inv_table (i - 1) ;;
  x' <- py_mod (p' * psi_inv) q ;;
  psi_inv_table <- py_setitem psi_inv_table i x' ;;
  Ok (psi_table, psi_inv_table).

(** Lines 7 and 14-22: both tables of powers, in bit-reversed order. *)
Definition psi_tables (n q psi : Z) : result (list Z * list Z) :=
  psi_inv <- py_pow3 psi (-1) q ;;
  let psi_table := repeat 1 (Z.to_nat n) in
  let psi_inv_table := repeat 1 (Z.to_nat n) in
  '(psi_table, psi_inv_table) <-
     for_range 1 n (table_step q psi psi_inv) (psi_table, psi_inv_table) ;;
  psi_table <- bit_reverse_order 0 psi_table ;;
  psi_inv_table <- bit_reverse_order 0 psi_inv_table ;;
  Ok (psi_table, psi_inv_table).

(** Line 28: [[(x*y) % q for x,y in zip(A,B)]]. *)
Fixpoint pointwise_mul (q : Z) (A B : list Z) : result (list Z) :=
  match A, B with
  | x :: A', y :: B' =>
      z <- py_mod (x * y) q ;;
      r <- pointwise_mul q A' B' ;;
      Ok (z :: r)
  | _, _ => Ok []
  end.

(** Lines 24-30. *)
Definition ntt_multiply (q : Z) (psi_table psi_inv_table A B : list Z)
  : result (list Z) :=
  A <- speedup_FNTT A q psi_table ;;
  B <- speedup_FNTT B q psi_table ;;
  AB <- pointwise_mul q A B ;;
  speedup_INTT AB q psi_inv_table.

(** The whole of [usage.py] for a given root. *)
Definition usage (n q psi : Z) (A B : list Z) : result (list Z) :=
  '(psi_table, psi_inv_table) <- psi_tables n q psi ;;
  ntt_multiply q psi_table psi_inv_table A B.

(** ** The transforms over a store of list objects

    A Python list is an object: the parameter [a] of the transforms is a
    reference, and [A[j] = ...] writes through a reference.  The store holds
    every list allocated so far; a reference is its index.  An exception
    leaves the store as it was when it was raised. *)

Definition loc := nat.
Definition heap := list (list Z).

Definition deref (h : heap) (r : loc) : list Z := nth r h [].

Definition hm (A : Type) : Type := heap -> result A * heap.

Definition hret {A} (a : A) : hm A := fun h => (Ok a, h).

Definition hbind {A B} (c : hm A) (k : A -> hm B) : hm B :=
  fun h =>
    match c h with
    | (Ok a, h') => k a h'
    | (Raise e, h') => (Raise e, h')
    | (Diverge, h') => (Diverge, h')
    end.

Notation "x <~ c ;; k" := (hbind c (fun x => k))
  (at level 61, c at next level, right associativity).

(** A computation that does not touch the store. *)
Definition hlift {A} (c : result A) : hm A := fun h => (c, h).

(** [len(r)] *)
Definition h_len (r : loc) : hm Z := fun h => (Ok (len (deref h r)), h).

(** [r[i]] *)
Definition h_getitem (r : loc) (i : Z) : hm Z :=
  fun h => (py_getitem (deref h r) i, h).

(** [r[i] = v], in place. *)
Definition h_setitem (r : loc) (i v : Z) : hm unit :=
  fun h =>
    match py_setitem (deref h r) i v with
    | Ok l' => (Ok tt, list_update h r l')
    | Raise e => (Raise e, h)
    | Diverge => (Diverge, h)
    end.

(** [[x for x in r]]: a new list object. *)
Definition h_copy (r : loc) : hm loc :=
  fun h => (Ok (List.length h), h ++ [deref h r]).

Fixpoint for_each_h {X S} (xs : list X) (body : X -> S -> hm S) (s : S) : hm S :=
  match xs with
  | [] => hret s
  | x :: xs' => s' <~ body x s ;; for_each_h xs' body s'
  end.

Definition for_range_h {S} (lo hi : Z) (body : Z -> S -> hm S) (s : S) : hm S :=
  for_each_h (zrange lo hi) body s.

Definition ct_butterfly_h (q t S : Z) (A : loc) (j : Z) (_ : unit) : hm unit :=
  U <~ h_getitem A j ;;
  Ajt <~ h_getitem A (j + t) ;;
  let V := Ajt * S in
  x <~ hlift (py_mod (U + V) q) ;;
  _ <~ h_setitem A j x ;;
  y <~ hlift (py_mod (U - V) q) ;;
  h_setitem A (j + t) y.

Definition fntt_group_h (q t m : Z) (psi_table_rev A : loc) (i : Z) (_ : unit)
  : hm unit :=
  let j_1 := 2 * i * t in
  let j_2 := j_1 + t - 1 in
  S <~ h_getitem psi_table_rev (m + i) ;;
  for_range_h j_1 (j_2 + 1) (ct_butterfly_h q t S A) tt.

Fixpoint fntt_while_h (fuel : nat) (q n : Z) (psi_table_rev : loc) (m t : Z)
         (A : loc) : hm unit :=
  if m <? n then
    match fuel with
    | O => hlift Diverge
    | S fuel' =>
        let t := Z.shiftr t 1 in
        _ <~ for_range_h 0 m (fntt_group_h q t m psi_table_rev A) tt ;;
        fntt_while_h fuel' q n psi_table_rev (Z.shiftl m 1) t A
    end
  else hret tt.

Definition speedup_FNTT_h (a : loc) (q : Z) (psi_table_rev : loc) : hm loc :=
  n <~ h_len a ;;
  let t := n in
  A <~ h_copy a ;;
  let m := 1 in
  _ <~ fntt_while_h (Z.to_nat n) q n psi_table_rev m t A ;;
  hret A.

Definition gs_butterfly_h (q t S : Z) (A : loc) (j : Z) (_ : unit) : hm unit :=
  U <~ h_getitem A j ;;
  V <~ h_getitem A (j + t) ;;
  x <~ hlift (py_mod (U + V) q) ;;
  _ <~ h_setitem A j x ;;
  y <~ hlift (py_mod ((U - V) * S) q) ;;
  h_setitem A (j + t) y.

Definition intt_group_h (q t h : Z) (psi_inv_table_rev A : loc) (i : Z) (j_1 : Z)
  : hm Z :=
  let j_2 := j_1 + t - 1 in
  S <~ h_getitem psi_inv_table_rev (h + i) ;;
  _ <~ for_range_h j_1 (j_2 + 1) (gs_butterfly_h q t S A) tt ;;
  hret (j_1 + Z.shiftl t 1).

Fixpoint intt_while_h (fuel : nat) (q : Z) (psi_inv_table_rev : loc) (t m : Z)
         (A : loc) : hm unit :=
  if m >? 1 then
    match fuel with
    | O => hlift Diverge
    | S fuel' =>
        let j_1 := 0 in
        let h := Z.shiftr m 1 in
        _ <~ for_range_h 0 h (intt_group_h q t h psi_inv_table_rev A) j_1 ;;
        intt_while_h fuel' q psi_inv_table_rev (Z.shiftl t 1) (Z.shiftr m 1) A
    end
  else hret tt.

Definition scale_step_h (q n_inv : Z) (A : loc) (j : Z) (_ : unit) : hm unit :=
  Aj <~ h_getitem A j ;;
  x <~ hlift (py_mod (Aj * n_inv) q) ;;
  h_setitem A j x.

Definition speedup_INTT_h (a : loc) (q : Z) (psi_inv_table_rev : loc) : hm loc :=
  n <~ h_len a ;;
  A <~ h_copy a ;;
  let t := 1 in
  let m := n in
  _ <~ intt_while_h (Z.to_nat n) q psi_inv_table_rev t m A ;;
  n_inv <~ hlift (py_pow3 n (-1) q) ;;
  _ <~ for_range_h 0 n (scale_step_h q n_inv A) tt ;;
  hret A.

(** ** Reference definitions used by the statements *)

(** Reversal of the [k] low bits of [i]. *)
Fixpoint bitrev (k : nat) (i : Z) : Z :=
  match k with
  | O => 0
  | S k' => (i mod 2) * 2 ^ Z.of_nat k' + bitrev k' (i / 2)
  end.

(** [sum_{u < n} f u] *)
Fixpoint zsum (n : nat) (f : Z -> Z) : Z :=
  match n with
  | O => 0
  | S n' => zsum n' f + f (Z.of_nat n')
  end.

(** Element [p] of a list, [0] out of range. *)
Definition zth (l : list Z) (p : Z) : Z := nth (Z.to_nat p) l 0.

(** The negative-wrapped convolution computed directly, the reference
    computation of the spec's acceptance test (the repository has no code
    for it):
    [c_k = sum_{i <= k} a_i b_(k-i) - sum_{k < i < n} a_i b_(n+k-i)], mod [q]. *)
Definition negacyclic_term (A B : list Z) (k i : Z) : Z :=
  if i <=? k then zth A i * zth B (k - i)
  else - (zth A i * zth B (len A + k - i)).

Definition negacyclic_conv (q : Z) (A B : list Z) : list Z :=
  map (fun k => zsum (List.length A) (negacyclic_term A B k) mod q)
      (zrange 0 (len A)).

(** [psi] is a primitive [2n]-th root of unity modulo [q]. *)
Definition primitive_root (n q psi : Z) : Prop :=
  psi ^ (2 * n) mod q = 1 /\
  forall k, 0 < k < 2 * n -> psi ^ k mod q <> 1.

(** Every entry is a residue in [[0, q)]. *)
Definition residues (q : Z) (a : list Z) : Prop :=
  Forall (fun x => 0 <= x < q) a.

(** The first [k] values the root search draws from [[2, q-1]]. *)
Fixpoint draws (k : nat) (fuel : nat) (rng : entropy) (q : Z) (pos : nat)
  : result (list Z * nat) :=
  match k with
  | O => Ok ([], pos)
  | S k' =>
      '(x, pos1) <- secure_next_int fuel rng 2 (q - 1) pos ;;
      '(xs, pos2) <- draws k' fuel rng q pos1 ;;
      Ok (x :: xs, pos2)
  end.

(** The exponent [r] the search uses: the argument, or [(q-1) // (2n)]. *)
Definition root_exponent (n q : Z) (r : option Z) : Z :=
  match r with
  | None => (q - 1) / (2 * n)
  | Some r => r
  end.

(** The candidate a draw [x] gives for the exponent [e], and what it is to
    be a rejected draw. *)
Definition candidate_of (q e x : Z) : Z := x ^ e mod q.

Definition rejected (n q e x : Z) : Prop :=
  2 <= x <= q - 1 /\ candidate_of q e x ^ n mod q <> q - 1.

(** What one butterfly does to the array: the pair at [j] and [j + t] is
    replaced by [f] and [g] of its two old values. *)
Definition bfly_step (t : Z) (f g : Z -> Z -> Z) (j : Z) (A : list Z) : list Z :=
  list_update
    (list_update A (Z.to_nat j) (f (zth A j) (zth A (j + t))))
    (Z.to_nat (j + t)) (g (zth A j) (zth A (j + t))).

(** The two butterflies as functions of the pair. *)
Definition ct_lo (q S U W : Z) : Z := (U + W * S) mod q.
Definition ct_hi (q S U W : Z) : Z := (U - W * S) mod q.
Definition gs_lo (q U W : Z) : Z := (U + W) mod q.
Definition gs_hi (q S U W : Z) : Z := ((U - W) * S) mod q.

(** Congruence modulo [q]. *)
Definition cong (q a b : Z) : Prop := a mod q = b mod q.

(** The relation one forward stage with [m] groups of half-length [t]
    establishes between the array before and after it. *)
Definition ct_stage_rel (q : Z) (tbl : list Z) (m t : Z) (X X' : list Z) : Prop :=
  len X' = len X /\
  forall i r, 0 <= i < m -> 0 <= r < t ->
    zth X' (2 * i * t + r) =
      ct_lo q (zth tbl (m + i)) (zth X (2 * i * t + r)) (zth X (2 * i * t + t + r)) /\
    zth X' (2 * i * t + t + r) =
      ct_hi q (zth tbl (m + i)) (zth X (2 * i * t + r)) (zth X (2 * i * t + t + r)).

(** After [a] forward stages the array holds [2^a] blocks; block [i] is the
    input polynomial reduced modulo [X^T - block_root a i], [T] the block
    length.  The first modulus is [X^n + 1]; a stage with twiddle [s] splits
    a block into the residues modulo [X^(T/2) - s] and [X^(T/2) + s]. *)
Definition block_root (tbl : list Z) (a : nat) (i : Z) : Z :=
  match a with
  | O => -1
  | S a' =>
      let s := zth tbl (2 ^ Z.of_nat a' + i / 2) in
      if Z.even i then s else - s
  end.

(** Coefficient [r] of the polynomial [x] reduced modulo [X^T - w], where
    [x] has [m * T] coefficients. *)
Definition reduced_coeff (x : list Z) (m : nat) (T w r : Z) : Z :=
  zsum m (fun u => zth x (r + u * T) * w ^ u).

(** The value of the polynomial [x] at [e]. *)
Definition poly_eval (x : list Z) (e : Z) : Z :=
  zsum (List.length x) (fun u => zth x u * e ^ u).

(** A run over the store simulates a run on list values: started with the
    working list as the newest object of the store, it ends with the same
    outcome, the older objects [h0] untouched and the working list as the
    newest object still.  [split] separates the working list from the local
    variables of the loop. *)
Definition sim {P S} (split : P -> list Z * S) (h0 : heap)
           (pure : result P) (run : result S * heap) : Prop :=
  match pure with
  | Ok p => run = (Ok (snd (split p)), h0 ++ [fst (split p)])
  | Raise e => fst run = Raise e /\ exists L, snd run = h0 ++ [L]
  | Diverge => fst run = Diverge /\ exists L, snd run = h0 ++ [L]
  end.

Definition only_list (L : list Z) : list Z * unit := (L, tt).

Definition list_and_var (p : list Z * Z) : list Z * Z := p.

(** What a call on the store [h] does when the same call on list values
    gives [pure]: the store grows by exactly one list object [L], nothing
    else in it changes, and when the call returns it returns the reference
    of that new object, which holds the result. *)
Definition returns_fresh (h : heap) (pure : result (list Z))
           (run : result loc * heap) : Prop :=
  exists L,
    snd run = h ++ [L] /\
    match pure with
    | Ok F => fst run = Ok (List.length h) /\ L = F
    | Raise e => fst run = Raise e
    | Diverge => fst run = Diverge
    end.

(** The binary digits of [p], least significant first: [bin_digits p]
    read backwards. *)
Fixpoint lsb_digits (p : positive) : str :=
  match p with
  | xH => ["1"%char]
  | xO p' => "0"%char :: lsb_digits p'
  | xI p' => "1"%char :: lsb_digits p'
  end.

(** The entrywise sum of two lists modulo [q], for the statement that the
    forward transform is additive. *)
Definition add_mod (q : Z) (a b : list Z) : list Z :=
  map (fun xy => (fst xy + snd xy) mod q) (combine a b).

(** * Properties *)

(** ** Lists and loops *)

Lemma len_nonneg {A} (l : list A) : 0 <= len l.
Proof. unfold len; lia. Qed.

Lemma list_update_length {A} (l : list A) k v :
  List.length (list_update l k v) = List.length l.
Proof.
  revert k; induction l as [|x l IH]; intros [|k]; simpl; auto.
Qed.

Lemma nth_list_update {A} (l : list A) k v p d :
  (k < List.length l)%nat ->
  nth p (list_update l k v) d = if Nat.eqb p k then v else nth p l d.
Proof.
  revert k p; induction l as [|x l IH]; intros [|k] [|p] Hk; simpl in *;
    try lia; auto.
  apply IH; lia.
Qed.

Lemma py_norm_index_in n i :
  0 <= i < n -> py_norm_index n i = Some (Z.to_nat i).
Proof.
  intros H; unfold py_norm_index.
  destruct (Z.leb_spec 0 i), (Z.ltb_spec i n); simpl; auto; lia.
Qed.

Lemma py_norm_index_high n i :
  0 <= n <= i -> py_norm_index n i = None.
Proof.
  intros H; unfold py_norm_index.
  destruct (Z.leb_spec 0 i), (Z.ltb_spec i n), (Z.leb_spec (- n) i),
    (Z.ltb_spec i 0); simpl; auto; lia.
Qed.

Lemma py_getitem_in {A} (l : list A) i d :
  0 <= i < len l -> py_getitem l i = Ok (nth (Z.to_nat i) l d).
Proof.
  intros H; unfold py_getitem. rewrite py_norm_index_in by assumption.
  destruct (nth_error l (Z.to_nat i)) eqn:E.
  - erewrite nth_error_nth by eassumption. reflexivity.
  - apply nth_error_None in E. unfold len in H. lia.
Qed.

Lemma py_getitem_zth (l : list Z) i :
  0 <= i < len l -> py_getitem l i = Ok (zth l i).
Proof. apply py_getitem_in. Qed.

Lemma py_setitem_in {A} (l : list A) i v :
  0 <= i < len l -> py_setitem l i v = Ok (list_update l (Z.to_nat i) v).
Proof.
  intros H; unfold py_setitem. now rewrite py_norm_index_in.
Qed.

Lemma len_list_update {A} (l : list A) k v : len (list_update l k v) = len l.
Proof. unfold len. now rewrite list_update_length. Qed.

Lemma zth_update (l : list Z) i v p :
  0 <= i < len l -> 0 <= p ->
  zth (list_update l (Z.to_nat i) v) p = if p =? i then v else zth l p.
Proof.
  intros Hi Hp. unfold zth. rewrite nth_list_update by (unfold len in Hi; lia).
  destruct (Nat.eqb_spec (Z.to_nat p) (Z.to_nat i)), (Z.eqb_spec p i);
    auto; lia.
Qed.

Lemma py_mod_ok a q : q <> 0 -> py_mod a q = Ok (a mod q).
Proof.
  intros H; unfold py_mod. destruct (Z.eqb_spec q 0); auto; contradiction.
Qed.

Lemma zrange_nil lo hi : hi <= lo -> zrange lo hi = [].
Proof.
  intros H; unfold zrange. replace (Z.to_nat (hi - lo)) with O by lia.
  reflexivity.
Qed.

Lemma zrange_cons lo hi : lo < hi -> zrange lo hi = lo :: zrange (lo + 1) hi.
Proof.
  intros H; unfold zrange.
  replace (Z.to_nat (hi - lo)) with (S (Z.to_nat (hi - (lo + 1)))) by lia.
  simpl. f_equal; [lia|].
  rewrite <- seq_shift, map_map. apply map_ext. intros; lia.
Qed.

Lemma zrange_length lo hi : List.length (zrange lo hi) = Z.to_nat (hi - lo).
Proof. unfold zrange. now rewrite length_map, length_seq. Qed.

Lemma zrange_nth lo hi k d :
  (k < Z.to_nat (hi - lo))%nat -> nth k (zrange lo hi) d = lo + Z.of_nat k.
Proof.
  intros H; unfold zrange.
  rewrite nth_indep with (d' := lo + Z.of_nat O)
    by (rewrite length_map, length_seq; lia).
  rewrite (map_nth (fun k => lo + Z.of_nat k) (seq 0 (Z.to_nat (hi - lo))) O k).
  rewrite seq_nth by lia. reflexivity.
Qed.

(** The invariant rule of a counted loop: the loop runs to its end and the
    invariant holds there. *)
Lemma for_range_inv {S} (P : Z -> S -> Prop) lo hi (body : Z -> S -> result S) s :
  lo <= hi ->
  P lo s ->
  (forall k s0, lo <= k < hi -> P k s0 ->
                exists s1, body k s0 = Ok s1 /\ P (k + 1) s1) ->
  exists s', for_range lo hi body s = Ok s' /\ P hi s'.
Proof.
  intros Hle. remember (Z.to_nat (hi - lo)) as c eqn:Hc.
  revert lo s Hle Hc. induction c as [|c IH]; intros lo s Hle Hc H0 Hstep.
  - assert (lo = hi) by lia. subst lo. unfold for_range.
    rewrite zrange_nil by lia. simpl. eauto.
  - unfold for_range. rewrite zrange_cons by lia. simpl.
    destruct (Hstep lo s) as [s1 [E1 P1]]; [lia | assumption |].
    rewrite E1. simpl. apply (IH (lo + 1)); try lia; auto.
    intros k s0 Hk; apply Hstep; lia.
Qed.

Lemma In_zrange lo hi x : In x (zrange lo hi) <-> lo <= x < hi.
Proof.
  unfold zrange. rewrite in_map_iff. split.
  - intros [k [E Hk]]. apply in_seq in Hk. lia.
  - intros H. exists (Z.to_nat (x - lo)). split; [lia|]. apply in_seq. lia.
Qed.

(** A primality test by trial division, to discharge [Z.prime q] at
    concrete moduli. *)
Lemma prime_by_trial q :
  1 < q -> forallb (fun d => negb (q mod d =? 0)) (zrange 2 q) = true ->
  Z.prime q.
Proof.
  intros Hq Hall. split; [assumption|].
  intros n Hn Hdiv. rewrite forallb_forall in Hall.
  specialize (Hall n). rewrite In_zrange in Hall.
  apply Z.mod_divide in Hdiv; [|lia].
  rewrite Hdiv in Hall. specialize (Hall ltac:(lia)). discriminate.
Qed.

Lemma prime_17 : Z.prime 17.
Proof. apply prime_by_trial; [lia | vm_compute; reflexivity]. Qed.

(** ** [secure_next_int] *)

Lemma byte_val_nonneg b : 0 <= byte_val b.
Proof. unfold byte_val. apply N2Z.is_nonneg. Qed.

Lemma from_bytes_le_nonneg bs : 0 <= from_bytes_le bs.
Proof.
  induction bs as [|b bs IH]; cbn [from_bytes_le]; [lia|].
  pose proof (byte_val_nonneg b); lia.
Qed.

Lemma masked_draw_nonneg rng ns mask pos : 0 <= fst (masked_draw rng ns mask pos).
Proof.
  unfold masked_draw, urandom; simpl. apply Z.land_nonneg. left.
  apply from_bytes_le_nonneg.
Qed.

Lemma masked_draw_pos rng ns mask pos :
  snd (masked_draw rng ns mask pos) = (pos + Z.to_nat ns)%nat.
Proof. reflexivity. Qed.

Arguments masked_draw : simpl never.

Lemma reject_loop_sound fuel rng ns mask ir pos r pos' :
  reject_loop fuel rng ns mask ir pos = Ok (r, pos') -> 0 <= r <= ir.
Proof.
  revert pos; induction fuel as [|fuel IH]; intros pos; cbn [reject_loop];
    [discriminate|].
  pose proof (masked_draw_nonneg rng ns mask pos) as Hn.
  destruct (masked_draw rng ns mask pos) as [x p1]; simpl in Hn.
  destruct (Z.leb_spec x ir).
  - intros E; injection E as E1 E2. subst. lia.
  - apply IH.
Qed.

Lemma reject_loop_no_raise fuel rng ns mask ir pos e :
  reject_loop fuel rng ns mask ir pos <> Raise e.
Proof.
  revert pos; induction fuel as [|fuel IH]; intros pos; cbn [reject_loop];
    [discriminate|].
  destruct (masked_draw rng ns mask pos) as [x p1].
  destruct (x <=? ir); [discriminate | apply IH].
Qed.


Lemma secure_next_int_range fuel rng min max pos r pos' :
  secure_next_int fuel rng min max pos = Ok (r, pos') -> min <= r <= max.
Proof.
  unfold secure_next_int.
  destruct (Z.eqb_spec min max).
  { intros E; injection E as <- <-. lia. }
  destruct (Z.gtb_spec min max); [discriminate|].
  destruct (Z.eqb_spec (max - min) 0); [lia|].
  destruct (reject_loop _ _ _ _ _ _) as [[x p1]| |] eqn:E; simpl; try discriminate.
  intros E'; injection E' as <- <-.
  apply reject_loop_sound in E. lia.
Qed.

Lemma secure_next_int_raise fuel rng min max pos e :
  secure_next_int fuel rng min max pos = Raise e <->
  e = InvalidRangeError /\ min > max.
Proof.
  unfold secure_next_int.
  destruct (Z.eqb_spec min max).
  { split; [discriminate | intros [_ Hgt]; lia]. }
  destruct (Z.gtb_spec min max).
  { split; [intros E; injection E as <-; split; [reflexivity | lia]
           | intros [-> _]; reflexivity]. }
  destruct (Z.eqb_spec (max - min) 0); [lia|].
  destruct (reject_loop _ _ _ _ _ _) as [[x p1]| |] eqn:E; simpl.
  - split; [discriminate | intros [_ Hgt]; lia].
  - exfalso. eapply reject_loop_no_raise; eassumption.
  - split; [discriminate | intros [_ Hgt]; lia].
Qed.

(** C3, at the smallest span that shows the defect: for [span = 65536]
    (17 bits, 3 bytes) the loop runs [int(log2(24)) = 4] times, shifts by
    1, 2, 4 and 8, and leaves bit 0 of the mask clear: the mask is
    [2^17 - 2], not [2^bit_length(span) - 1 = 2^17 - 1]. *)
Theorem range_mask_65536 :
  mask_iter 65536 = 4 /\
  range_mask 65536 = 131070 /\
  2 ^ bit_length 65536 - 1 = 131071.
Proof. vm_compute. repeat split; reflexivity. Qed.

(** What the clear bit costs: [secure_next_int(0, 65536)] never returns an
    odd number. *)
Lemma secure_next_int_65536_even fuel rng pos r pos' :
  secure_next_int fuel rng 0 65536 pos = Ok (r, pos') -> Z.even r = true.
Proof.
  unfold secure_next_int. simpl (0 =? 65536). simpl (0 >? 65536).
  change (65536 - 0) with 65536. simpl (65536 =? 0).
  replace (range_mask 65536) with 131070 by (vm_compute; reflexivity).
  generalize (num_size 65536); intros ns.
  revert pos. induction fuel as [|fuel IH]; intros pos;
    cbn [reject_loop bind]; [discriminate|].
  unfold masked_draw at 1, urandom.
  set (x := from_bytes_le _).
  destruct (Z.land x 131070 <=? 65536) eqn:E.
  - simpl. intros E'; injection E' as <- _.
    rewrite Z.add_0_r, <- Z.negb_odd, <- Z.bit0_odd, Z.land_spec.
    change (Z.testbit 131070 0) with false. now rewrite andb_false_r.
  - apply IH.
Qed.




(** C7: the only exception [secure_next_int] raises is the range error,
    and it raises it exactly when [min > max]; on [min == max] it returns
    [min] at once, before any draw. *)
Theorem secure_next_int_errors fuel rng min max pos :
  (forall e, secure_next_int fuel rng min max pos = Raise e <->
             e = InvalidRangeError /\ min > max) /\
  (min = max -> secure_next_int fuel rng min max pos = Ok (min, pos)).
Proof.
  split.
  - intros e. apply secure_next_int_raise.
  - intros ->. unfold secure_next_int. now rewrite Z.eqb_refl.
Qed.

(** ** [get_prim_root] *)

Lemma py_pow3_nonneg b e m :
  m <> 0 -> 0 <= e -> py_pow3 b e m = Ok (b ^ e mod m).
Proof.
  intros Hm He. unfold py_pow3.
  destruct (Z.eqb_spec m 0); [contradiction|].
  destruct (Z.leb_spec 0 e); [reflexivity | lia].
Qed.

Lemma half_double n : 2 * n / 2 = n.
Proof. rewrite Z.mul_comm. apply Z.div_mul. lia. Qed.

Section RootSearch.
Variables (fuel : nat) (rng : entropy) (n q e : Z).
Hypotheses (Hn : 0 <= n) (Hq : q <> 0) (He : 0 <= e).

Lemma root_candidate_eq x :
  root_candidate (2 * n) q e x =
  Ok (candidate_of q e x, candidate_of q e x ^ n mod q =? q - 1).
Proof.
  unfold root_candidate. rewrite py_pow3_nonneg by assumption. cbn [bind].
  rewrite half_double, py_pow3_nonneg by assumption. reflexivity.
Qed.

Lemma tries_exhausted tries : forall pos,
  prim_root_tries tries fuel rng (2 * n) q e pos = Raise RootNotFoundError <->
  exists xs pos',
    draws tries fuel rng q pos = Ok (xs, pos') /\ Forall (rejected n q e) xs.
Proof.
  induction tries as [|tries IH]; intros pos; cbn [prim_root_tries draws].
  - split; [intros _; exists [], pos; split; [reflexivity | constructor]
           | reflexivity].
  - destruct (secure_next_int fuel rng 2 (q - 1) pos) as [[x p1]| ex |] eqn:Ex;
      cbn [bind].
    + rewrite root_candidate_eq. cbn [bind].
      pose proof (secure_next_int_range _ _ _ _ _ _ _ Ex) as Hx.
      destruct (Z.eqb_spec (candidate_of q e x ^ n mod q) (q - 1)) as [Eq|Ne].
      * split; [discriminate|].
        intros [xs [pos' [Hd Hall]]].
        destruct (draws tries fuel rng q p1) as [[ys p2]| |]; cbn [bind] in Hd;
          try discriminate.
        injection Hd as <- <-. inversion Hall as [|? ? [_ Hrej] _]; subst.
        contradiction.
      * rewrite IH. split.
        -- intros [xs [pos' [Hd Hall]]]. exists (x :: xs), pos'.
           rewrite Hd. cbn [bind]. split; [reflexivity|].
           constructor; [split; assumption | assumption].
        -- intros [xs [pos' [Hd Hall]]].
           destruct (draws tries fuel rng q p1) as [[ys p2]| |];
             cbn [bind] in Hd; try discriminate.
           injection Hd as <- <-. inversion Hall; subst. eauto.
    + apply secure_next_int_raise in Ex. destruct Ex as [-> _].
      split; [discriminate | intros [xs [pos' [Hd _]]]; discriminate].
    + split; [discriminate | intros [xs [pos' [Hd _]]]; discriminate].
Qed.

Lemma tries_found tries : forall pos psi pos',
  prim_root_tries tries fuel rng (2 * n) q e pos = Ok (psi, pos') <->
  exists xs x,
    (List.length xs < tries)%nat /\
    draws (S (List.length xs)) fuel rng q pos = Ok (xs ++ [x], pos') /\
    Forall (rejected n q e) xs /\
    2 <= x <= q - 1 /\
    psi = candidate_of q e x /\
    candidate_of q e x ^ n mod q = q - 1.
Proof.
  induction tries as [|tries IH]; intros pos psi pos'.
  - cbn [prim_root_tries].
    split; [discriminate | intros [xs [x [Hlt _]]]; lia].
  - cbn [prim_root_tries draws].
    destruct (secure_next_int fuel rng 2 (q - 1) pos) as [[x0 p1]| ex |] eqn:Ex;
      cbn [bind].
    + rewrite root_candidate_eq. cbn [bind].
      pose proof (secure_next_int_range _ _ _ _ _ _ _ Ex) as Hx.
      destruct (Z.eqb_spec (candidate_of q e x0 ^ n mod q) (q - 1)) as [Eq|Ne].
      * split.
        -- intros E; injection E as <- <-. exists [], x0.
           cbn [List.length draws app bind]. repeat split; auto; lia.
        -- intros [xs [x [Hlt [Hd [Hall [Hx' [Hpsi Hacc]]]]]]].
           destruct xs as [|y ys].
           ++ cbn [List.length draws app bind] in Hd.
              injection Hd as <- <-. now subst psi.
           ++ cbn [List.length app] in Hd.
              destruct (draws (S (List.length ys)) fuel rng q p1)
                as [[zs p2]| |]; cbn [bind] in Hd; try discriminate.
              injection Hd as <- _ _. inversion Hall as [|? ? [_ Hrej] _]; subst.
              contradiction.
      * rewrite IH. split.
        -- intros [xs [x [Hlt [Hd [Hall [Hx' [Hpsi Hacc]]]]]]].
           exists (x0 :: xs), x. cbn [List.length app].
           rewrite Hd. cbn [bind].
           repeat split; auto; try lia.
           constructor; [split; assumption | assumption].
        -- intros [xs [x [Hlt [Hd [Hall [Hx' [Hpsi Hacc]]]]]]].
           destruct xs as [|y ys].
           ++ cbn [List.length draws app bind] in Hd.
              injection Hd as <- <-. contradiction.
           ++ cbn [List.length app] in Hd, Hlt.
              destruct (draws (S (List.length ys)) fuel rng q p1)
                as [[zs p2]| |] eqn:Ed; cbn [bind] in Hd; try discriminate.
              injection Hd as <- -> <-. inversion Hall; subst.
              exists ys, x. rewrite Ed. repeat split; auto; lia.
    + split; [discriminate|].
      intros [xs [x [_ [Hd _]]]]. discriminate.
    + split; [discriminate|].
      intros [xs [x [_ [Hd _]]]]. discriminate.
Qed.
End RootSearch.

Lemma get_prim_root_unfold fuel rng n q r pos :
  n <> 0 ->
  get_prim_root fuel rng n q r pos =
  prim_root_tries 50 fuel rng (2 * n) q (root_exponent n q r) pos.
Proof.
  intros Hn. unfold get_prim_root, root_exponent, py_floordiv.
  destruct r as [r|]; cbn [bind]; [reflexivity|].
  destruct (Z.eqb_spec (2 * n) 0); [lia | reflexivity].
Qed.

Lemma pow_double_mod psi n q :
  1 < q -> 0 <= n -> psi ^ n mod q = q - 1 -> psi ^ (2 * n) mod q = 1.
Proof.
  intros Hq Hn H.
  rewrite Z.mul_comm, Z.pow_mul_r, Z.pow_2_r by lia.
  rewrite Z.mul_mod, H by lia.
  replace ((q - 1) * (q - 1)) with (1 + (q - 2) * q) by ring.
  rewrite Z.mod_add by lia. apply Z.mod_small; lia.
Qed.

(** C4: for a power of two [n] and a prime [q] with [q = 1 (mod 2n)],
    every value [psi] that [get_prim_root(n, q)] returns satisfies
    [psi^n mod q = q - 1] and [psi^(2n) mod q = 1]. *)
Theorem get_prim_root_sound fuel rng k q pos psi pos' :
  Z.prime q ->
  q mod (2 * 2 ^ Z.of_nat k) = 1 ->
  get_prim_root fuel rng (2 ^ Z.of_nat k) q None pos = Ok (psi, pos') ->
  psi ^ (2 ^ Z.of_nat k) mod q = q - 1 /\
  psi ^ (2 * 2 ^ Z.of_nat k) mod q = 1.
Proof.
  intros Hp Hmod Hrun.
  pose proof (Z.prime_ge_2 q Hp) as Hq.
  assert (Hn : 0 < 2 ^ Z.of_nat k) by (apply Z.pow_pos_nonneg; lia).
  rewrite get_prim_root_unfold in Hrun by lia.
  assert (He : 0 <= root_exponent (2 ^ Z.of_nat k) q None).
  { unfold root_exponent. apply Z.div_pos; lia. }
  apply tries_found in Hrun; try lia.
  destruct Hrun as [xs [x [_ [_ [_ [_ [-> Hacc]]]]]]].
  split; [exact Hacc|]. apply pow_double_mod; auto; lia.
Qed.

Lemma get_prim_root_sound_witness :
  get_prim_root 1 (fun _ => Byte.x01) (2 ^ Z.of_nat 3) 17 None 0 = Ok (3, 1%nat) /\
  3 ^ (2 ^ Z.of_nat 3) mod 17 = 17 - 1 /\
  3 ^ (2 * 2 ^ Z.of_nat 3) mod 17 = 1.
Proof.
  split; [vm_compute; reflexivity|].
  apply (get_prim_root_sound 1 (fun _ => Byte.x01) 3 17 0 3 1%nat).
  - exact prime_17.
  - vm_compute; reflexivity.
  - vm_compute; reflexivity.
Defined.

(** C6: [get_prim_root] draws at most 50 values [x] from [[2, q-1]], one per
    attempt, each giving the candidate [x^r mod q], accepted iff
    [candidate^n mod q = q - 1].  It raises the root-not-found error exactly
    when 50 draws were made and all 50 candidates were rejected, and it
    returns [psi] exactly when some attempt among the first 50 is the first
    accepted one and [psi] is its candidate.  The budget 50 is a constant of
    the function. *)
Theorem get_prim_root_budget fuel rng n q r pos :
  0 < n -> 0 < q -> 0 <= root_exponent n q r ->
  (get_prim_root fuel rng n q r pos = Raise RootNotFoundError <->
   exists xs pos',
     draws 50 fuel rng q pos = Ok (xs, pos') /\
     Forall (rejected n q (root_exponent n q r)) xs) /\
  (forall psi pos',
      get_prim_root fuel rng n q r pos = Ok (psi, pos') <->
      exists xs x,
        (List.length xs < 50)%nat /\
        draws (S (List.length xs)) fuel rng q pos = Ok (xs ++ [x], pos') /\
        Forall (rejected n q (root_exponent n q r)) xs /\
        2 <= x <= q - 1 /\
        psi = candidate_of q (root_exponent n q r) x /\
        candidate_of q (root_exponent n q r) x ^ n mod q = q - 1).
Proof.
  intros Hn Hq He. rewrite get_prim_root_unfold by lia. split.
  - apply tries_exhausted; lia.
  - intros psi pos'. apply tries_found; lia.
Qed.

Lemma get_prim_root_budget_witness :
  exists xs x,
    (List.length xs < 50)%nat /\
    draws (S (List.length xs)) 1
          (fun i => match i with O => Byte.x02 | _ => Byte.x01 end) 17 0
    = Ok (xs ++ [x], 2%nat) /\
    Forall (rejected 8 17 (root_exponent 8 17 None)) xs /\
    2 <= x <= 17 - 1 /\
    3 = candidate_of 17 (root_exponent 8 17 None) x /\
    candidate_of 17 (root_exponent 8 17 None) x ^ 8 mod 17 = 17 - 1.
Proof.
  destruct (get_prim_root_budget
              1 (fun i => match i with O => Byte.x02 | _ => Byte.x01 end)
              8 17 None 0) as [_ H];
    [lia | lia | vm_compute; discriminate |].
  apply (H 3 2%nat). vm_compute. reflexivity.
Defined.

(** ** [bit_reverse_order] *)

Lemma nth_error_list_update {A} (l : list A) k v p :
  (k < List.length l)%nat ->
  nth_error (list_update l k v) p = if Nat.eqb p k then Some v else nth_error l p.
Proof.
  revert k p; induction l as [|x l IH]; intros [|k] [|p] Hk; simpl in *;
    try lia; auto.
  apply IH; lia.
Qed.

Lemma py_getitem_nth_error {A} (l : list A) i :
  0 <= i < len l ->
  exists x, py_getitem l i = Ok x /\ nth_error l (Z.to_nat i) = Some x.
Proof.
  intros H. unfold py_getitem. rewrite py_norm_index_in by assumption.
  destruct (nth_error l (Z.to_nat i)) eqn:E; [eauto|].
  apply nth_error_None in E. unfold len in H. lia.
Qed.

(** *** Bit reversal as arithmetic *)

Lemma bitrev_0 k : bitrev k 0 = 0.
Proof.
  induction k as [|k IH]; cbn [bitrev]; [reflexivity|].
  rewrite Z.mod_0_l, Z.div_0_l, IH by lia. reflexivity.
Qed.

Lemma bitrev_range k i : 0 <= bitrev k i < 2 ^ Z.of_nat k.
Proof.
  revert i; induction k as [|k IH]; intros i; cbn [bitrev].
  - simpl. lia.
  - specialize (IH (i / 2)). rewrite Nat2Z.inj_succ, Z.pow_succ_r by lia.
    pose proof (Z.mod_pos_bound i 2 ltac:(lia)). nia.
Qed.

Lemma bitrev_inj k : forall i j,
  0 <= i < 2 ^ Z.of_nat k -> 0 <= j < 2 ^ Z.of_nat k ->
  bitrev k i = bitrev k j -> i = j.
Proof.
  induction k as [|k IH]; intros i j Hi Hj E.
  - simpl in Hi, Hj. lia.
  - cbn [bitrev] in E. rewrite Nat2Z.inj_succ, Z.pow_succ_r in Hi, Hj by lia.
    pose proof (bitrev_range k (i / 2)) as Ri.
    pose proof (bitrev_range k (j / 2)) as Rj.
    pose proof (Z.mod_pos_bound i 2 ltac:(lia)) as Mi.
    pose proof (Z.mod_pos_bound j 2 ltac:(lia)) as Mj.
    assert (Em : i mod 2 = j mod 2) by nia.
    assert (Eb : bitrev k (i / 2) = bitrev k (j / 2)) by nia.
    apply IH in Eb.
    + rewrite (Z.div_mod i 2), (Z.div_mod j 2) by lia. congruence.
    + split; [apply Z.div_pos; lia | apply Z.div_lt_upper_bound; lia].
    + split; [apply Z.div_pos; lia | apply Z.div_lt_upper_bound; lia].
Qed.

(** Bit [j] of the reversal is bit [k-1-j] of the argument. *)
Lemma bitrev_testbit k : forall i j,
  0 <= j < Z.of_nat k ->
  Z.testbit (bitrev k i) j = Z.testbit i (Z.of_nat k - 1 - j).
Proof.
  induction k as [|k IH]; intros i j Hj; [lia|].
  cbn [bitrev]. pose proof (bitrev_range k (i / 2)) as R.
  pose proof (Z.mod_pos_bound i 2 ltac:(lia)) as M.
  set (b := bitrev k (i / 2)) in *.
  assert (Hpow : 0 < 2 ^ Z.of_nat k) by (apply Z.pow_pos_nonneg; lia).
  destruct (Z.eq_dec j (Z.of_nat k)) as [->|Hne].
  - replace (Z.of_nat (S k) - 1 - Z.of_nat k) with 0 by lia.
    rewrite <- (Z.add_0_l (Z.of_nat k)) at 2.
    rewrite <- Z.div_pow2_bits by lia.
    rewrite Z.div_add_l, (Z.div_small b) by lia.
    rewrite Z.add_0_r. change (i mod 2) with (i mod 2 ^ 1).
    apply Z.mod_pow2_bits_low. lia.
  - rewrite <- Z.mod_pow2_bits_low with (n := Z.of_nat k) by lia.
    rewrite Z.add_comm, Z.mod_add, Z.mod_small by lia.
    unfold b. rewrite IH by lia.
    rewrite <- Z.div2_div, Z.div2_spec, Z.shiftr_spec by lia.
    f_equal. lia.
Qed.

(** *** The string computation of line 193 *)

Lemma rev_bin_digits p : rev (bin_digits p) = lsb_digits p.
Proof.
  induction p as [p IH|p IH|]; cbn [bin_digits lsb_digits];
    rewrite ?rev_app_distr, ?IH; reflexivity.
Qed.

Lemma bin_digits_head p : exists s, bin_digits p = "1"%char :: s.
Proof.
  induction p as [p [s IH]|p [s IH]|]; cbn [bin_digits]; try rewrite IH;
    simpl; eauto.
Qed.

Lemma bin_digits_length p : List.length (bin_digits p) = Pos.to_nat (Pos.size p).
Proof.
  induction p as [p IH|p IH|]; cbn [bin_digits Pos.size];
    rewrite ?length_app, ?IH; simpl; lia.
Qed.

Lemma lsb_digits_length p : List.length (lsb_digits p) = Pos.to_nat (Pos.size p).
Proof. rewrite <- rev_bin_digits, length_rev. apply bin_digits_length. Qed.

Lemma size_le_bits p k : Zpos p < 2 ^ Z.of_nat k -> (Pos.to_nat (Pos.size p) <= k)%nat.
Proof.
  revert k; induction p as [p IH|p IH|]; intros k H; cbn [Pos.size].
  - destruct k as [|k]; [simpl in H; lia|].
    rewrite Nat2Z.inj_succ, Z.pow_succ_r in H by lia.
    specialize (IH k ltac:(lia)). lia.
  - destruct k as [|k]; [simpl in H; lia|].
    rewrite Nat2Z.inj_succ, Z.pow_succ_r in H by lia.
    specialize (IH k ltac:(lia)). lia.
  - destruct k as [|k]; [simpl in H; lia | lia].
Qed.

Lemma int2_digits_zeros j acc :
  int2_digits acc (repeat "0"%char j) = Ok (acc * 2 ^ Z.of_nat j).
Proof.
  revert acc; induction j as [|j IH]; intros acc.
  - simpl. f_equal. lia.
  - cbn [repeat int2_digits]. simpl (Ascii.eqb _ _). cbv iota. rewrite IH.
    rewrite Nat2Z.inj_succ, Z.pow_succ_r by lia. f_equal. ring.
Qed.

Lemma bitrev_xO k p : bitrev (S k) (Zpos p~0) = bitrev k (Zpos p).
Proof.
  cbn [bitrev]. rewrite Pos2Z.inj_xO, (Z.mul_comm 2), Z.mod_mul, Z.div_mul by lia.
  lia.
Qed.

Lemma bitrev_xI k p :
  bitrev (S k) (Zpos p~1) = 2 ^ Z.of_nat k + bitrev k (Zpos p).
Proof.
  cbn [bitrev]. rewrite Pos2Z.inj_xI.
  replace ((2 * Zpos p + 1) mod 2) with 1.
  2:{ rewrite Z.add_comm, Z.mul_comm, Z.mod_add by lia. reflexivity. }
  replace ((2 * Zpos p + 1) / 2) with (Zpos p).
  2:{ rewrite Z.add_comm, Z.mul_comm, Z.div_add by lia. reflexivity. }
  lia.
Qed.

Lemma int2_digits_lsb p : forall j acc,
  int2_digits acc (lsb_digits p ++ repeat "0"%char j) =
  Ok (acc * 2 ^ Z.of_nat (List.length (lsb_digits p) + j)
      + bitrev (List.length (lsb_digits p) + j) (Zpos p)).
Proof.
  induction p as [p IH|p IH|]; intros j acc;
    cbn [lsb_digits app int2_digits List.length Nat.add];
    simpl (Ascii.eqb _ _); cbv iota.
  - rewrite IH, bitrev_xI, Nat2Z.inj_succ, Z.pow_succ_r by lia. f_equal. ring.
  - rewrite IH, bitrev_xO, Nat2Z.inj_succ, Z.pow_succ_r by lia. f_equal. ring.
  - rewrite int2_digits_zeros. cbn [bitrev].
    rewrite Nat2Z.inj_succ, Z.pow_succ_r by lia.
    change (1 mod 2) with 1. change (1 / 2) with 0. rewrite bitrev_0.
    f_equal. ring.
Qed.

Lemma rev_repeat {A} (x : A) j : rev (repeat x j) = repeat x j.
Proof.
  induction j as [|j IH]; [reflexivity|].
  cbn [repeat rev]. rewrite IH. clear IH.
  induction j as [|j IH]; [reflexivity|]. cbn [repeat app]. now rewrite IH.
Qed.

(** On [nb >= 1] bits, line 193 computes the arithmetic reversal. *)
Lemma rev_index_of_bitrev nb i :
  (1 <= nb)%nat -> 0 <= i < 2 ^ Z.of_nat nb ->
  rev_index_of (Z.of_nat nb) i = Ok (bitrev nb i).
Proof.
  intros Hnb Hi. unfold rev_index_of. destruct i as [|p|p]; [| |lia].
  - cbn [bin skipn zfill List.length]. simpl (Ascii.eqb _ _ || _)%bool.
    cbv iota. rewrite rev_app_distr, rev_repeat. cbn [rev app int2].
    cbn [int2_digits]. simpl (Ascii.eqb _ _). cbv iota.
    rewrite int2_digits_zeros, bitrev_0. reflexivity.
  - cbn [bin skipn]. unfold zfill.
    destruct (bin_digits_head p) as [s Es].
    pose proof (bin_digits_length p) as Hl.
    pose proof (size_le_bits p nb (proj2 Hi)) as Hs.
    rewrite Es at 1. simpl (Ascii.eqb _ _ || _)%bool. cbv iota.
    rewrite rev_app_distr, rev_repeat, rev_bin_digits.
    unfold int2.
    destruct (lsb_digits p ++ repeat "0"%char _) eqn:El.
    { destruct p; discriminate. }
    rewrite <- El, int2_digits_lsb, lsb_digits_length, Hl.
    replace (Pos.to_nat (Pos.size p) +
             (Z.to_nat (Z.of_nat nb) - Pos.to_nat (Pos.size p)))%nat
      with nb by lia.
    reflexivity.
Qed.

(** The bit width line 190 derives from a power-of-two length. *)
Lemma num_bits_pow2 k :
  len (bin (2 ^ Z.of_nat k - 1)) - 2 = Z.of_nat (Nat.max k 1).
Proof.
  destruct k as [|k]; [reflexivity|].
  assert (Hpos : 0 < 2 ^ Z.of_nat (S k) - 1).
  { rewrite Nat2Z.inj_succ, Z.pow_succ_r by lia.
    pose proof (Z.pow_pos_nonneg 2 (Z.of_nat k)). lia. }
  destruct (2 ^ Z.of_nat (S k) - 1) as [|p|p] eqn:E; try lia.
  unfold len. cbn [bin List.length]. rewrite bin_digits_length.
  assert (Hlog : Z.log2 (Zpos p) = Z.of_nat k).
  { apply Z.log2_unique; [lia|]. rewrite <- E.
    rewrite <- Nat2Z.inj_succ. replace (Z.succ (Z.of_nat k)) with (Z.of_nat (S k)) by lia.
    rewrite (Nat2Z.inj_succ k), Z.pow_succ_r by lia.
    pose proof (Z.pow_pos_nonneg 2 (Z.of_nat k)). lia. }
  assert (Hsize : Zpos (Pos.size p) = Z.succ (Z.log2 (Zpos p))).
  { destruct p; cbn [Pos.size Z.log2]; lia. }
  lia.
Qed.

Lemma bits_above k x j :
  0 <= x < 2 ^ Z.of_nat k -> Z.of_nat k <= j -> Z.testbit x j = false.
Proof.
  intros Hx Hj. rewrite <- (Z.mod_small x (2 ^ Z.of_nat k)) by assumption.
  apply Z.mod_pow2_bits_high. lia.
Qed.

Lemma bitrev_involutive k i :
  0 <= i < 2 ^ Z.of_nat k -> bitrev k (bitrev k i) = i.
Proof.
  intros Hi. apply Z.bits_inj'. intros j Hj.
  destruct (Z.lt_ge_cases j (Z.of_nat k)) as [Hlt|Hge].
  - rewrite !bitrev_testbit by lia. f_equal. lia.
  - rewrite (bits_above k i j) by assumption.
    apply (bits_above k); [apply bitrev_range | assumption].
Qed.

Lemma bitrev_max k i :
  0 <= i < 2 ^ Z.of_nat k -> bitrev (Nat.max k 1) i = bitrev k i.
Proof.
  destruct k as [|k]; [|now rewrite Nat.max_l by lia].
  simpl. intros Hi. assert (i = 0) as -> by lia. reflexivity.
Qed.

Section BitReverseOrder.
Context {A : Type} (zero : A).

Lemma bit_reverse_order_pow2 (a : list A) k :
  len a = 2 ^ Z.of_nat k ->
  exists b,
    bit_reverse_order zero a = Ok b /\
    List.length b = List.length a /\
    forall i, 0 <= i < len a ->
              nth_error b (Z.to_nat (bitrev k i)) = nth_error a (Z.to_nat i).
Proof.
  intros Hlen. unfold bit_reverse_order. rewrite Hlen, num_bits_pow2.
  set (nb := Nat.max k 1).
  destruct (for_range_inv
              (fun c res =>
                 List.length res = List.length a /\
                 forall i, 0 <= i < c ->
                           nth_error res (Z.to_nat (bitrev k i))
                           = nth_error a (Z.to_nat i))
              0 (2 ^ Z.of_nat k) (bit_reverse_step a (Z.of_nat nb))
              (repeat zero (List.length a)))
    as [b [Eb [Hb1 Hb2]]].
  - pose proof (Z.pow_pos_nonneg 2 (Z.of_nat k)). lia.
  - split; [apply repeat_length | intros; lia].
  - intros c res Hc [Hl Hi]. unfold bit_reverse_step.
    assert (Hpow : 2 ^ Z.of_nat k <= 2 ^ Z.of_nat nb).
    { apply Z.pow_le_mono_r; unfold nb; lia. }
    rewrite rev_index_of_bitrev by (unfold nb in *; lia).
    unfold nb. rewrite bitrev_max by lia. cbn [bind].
    destruct (py_getitem_nth_error a c) as [x [Ex Hx]]; [lia|].
    rewrite Ex. cbn [bind].
    pose proof (bitrev_range k c) as Rc.
    rewrite py_setitem_in by (unfold len in *; lia).
    eexists; split; [reflexivity|]. split.
    + now rewrite list_update_length.
    + intros i Hi'. rewrite nth_error_list_update by (unfold len in *; lia).
      destruct (Nat.eqb_spec (Z.to_nat (bitrev k i)) (Z.to_nat (bitrev k c)))
        as [E|N].
      * pose proof (bitrev_range k i).
        assert (i = c) as -> by (apply (bitrev_inj k); lia).
        symmetry; exact Hx.
      * apply Hi. assert (i <> c) by (intros ->; contradiction). lia.
  - exists b. split; [exact Eb|]. split; [exact Hb1|].
    intros i Hi. apply Hb2. lia.
Qed.

(** C8: on a sequence [a] of length [L = 2^k], [bit_reverse_order] returns a
    new sequence [b] of the same length in which, for every index [i < L],
    the element [a[i]] sits at the index [rev(i)] whose [k] bits are those
    of [i] in reverse order ([k = ceil(log2 L)]): [b[rev(i)] = a[i]]. *)
Theorem bit_reverse_order_spec (a : list A) (k : nat) :
  len a = 2 ^ Z.of_nat k ->
  exists b,
    bit_reverse_order zero a = Ok b /\
    List.length b = List.length a /\
    forall i, 0 <= i < len a ->
      0 <= bitrev k i < len a /\
      (forall j, 0 <= j < Z.of_nat k ->
                 Z.testbit (bitrev k i) j = Z.testbit i (Z.of_nat k - 1 - j)) /\
      nth_error b (Z.to_nat (bitrev k i)) = nth_error a (Z.to_nat i).
Proof.
  intros Hlen.
  destruct (bit_reverse_order_pow2 a k Hlen) as [b [Eb [Hl Hb]]].
  exists b. split; [exact Eb|]. split; [exact Hl|].
  intros i Hi. split; [|split].
  - rewrite Hlen. apply bitrev_range.
  - intros j Hj. now apply bitrev_testbit.
  - now apply Hb.
Qed.

(** C10: on any list of length 6 [bit_reverse_order] raises [IndexError]:
    the width is [bit_length(5) = 3] bits, and index 3 = 011 reverses to
    110 = 6, which is out of range. *)
Theorem bit_reverse_order_len6 (a : list A) :
  List.length a = 6%nat -> bit_reverse_order zero a = Raise IndexError.
Proof.
  intros H.
  destruct a as [|x0 [|x1 [|x2 [|x3 [|x4 [|x5 [|x6 a]]]]]]]; try discriminate.
  reflexivity.
Qed.
End BitReverseOrder.

Lemma bit_reverse_order_spec_witness :
  exists b,
    bit_reverse_order 0 [1; 2; 3; 4; 5; 6; 7; 8] = Ok b /\
    List.length b = 8%nat /\
    nth_error b (Z.to_nat (bitrev 3 1)) = nth_error [1; 2; 3; 4; 5; 6; 7; 8] 1.
Proof.
  destruct (bit_reverse_order_spec 0 [1; 2; 3; 4; 5; 6; 7; 8] 3)
    as [b [Eb [Hl Hb]]]; [reflexivity|].
  exists b. split; [exact Eb|]. split; [exact Hl|].
  apply (Hb 1). unfold len; simpl; lia.
Defined.

Lemma bit_reverse_order_len6_witness :
  bit_reverse_order 0 [1; 2; 3; 4; 5; 6] = Raise IndexError.
Proof. apply (bit_reverse_order_len6 0 [1; 2; 3; 4; 5; 6]). reflexivity. Defined.

(** The length in the function's own docstring, 7, is not a power of two
    either, and there the call happens to succeed. *)
Example bit_reverse_order_len7 :
  bit_reverse_order 0 [1; 2; 3; 4; 5; 6; 8] = Ok [1; 5; 3; 8; 2; 6; 4].
Proof. reflexivity. Qed.

(** The permuted list read by index: [b[p] = a[rev(p)]]. *)
Lemma bit_reverse_order_zth (a : list Z) k :
  len a = 2 ^ Z.of_nat k ->
  exists b,
    bit_reverse_order 0 a = Ok b /\
    len b = len a /\
    forall p, 0 <= p < len a -> zth b p = zth a (bitrev k p).
Proof.
  intros Hlen.
  destruct (bit_reverse_order_pow2 0 a k Hlen) as [b [Eb [Hl Hb]]].
  exists b. split; [exact Eb|]. split; [unfold len; now rewrite Hl|].
  intros p Hp. rewrite Hlen in Hp.
  pose proof (bitrev_range k p) as Rp.
  specialize (Hb (bitrev k p) ltac:(lia)).
  rewrite bitrev_involutive in Hb by assumption.
  unfold zth. unfold len in Hlen.
  rewrite (nth_error_nth' b 0), (nth_error_nth' a 0) in Hb by lia.
  now injection Hb.
Qed.

(** ** The butterfly stages *)

Lemma ct_butterfly_step q t S j A :
  q <> 0 -> 0 <= j -> 0 < t -> j + t < len A ->
  ct_butterfly q t S j A = Ok (bfly_step t (ct_lo q S) (ct_hi q S) j A).
Proof.
  intros Hq Hj Ht Hlen. unfold ct_butterfly, bfly_step, ct_lo, ct_hi.
  rewrite !py_getitem_zth by lia. cbn [bind].
  rewrite py_mod_ok by assumption. cbn [bind].
  rewrite py_setitem_in by lia. cbn [bind].
  rewrite py_mod_ok by assumption. cbn [bind].
  rewrite py_setitem_in by (rewrite len_list_update; lia). reflexivity.
Qed.

Lemma gs_butterfly_step q t S j A :
  q <> 0 -> 0 <= j -> 0 < t -> j + t < len A ->
  gs_butterfly q t S j A = Ok (bfly_step t (gs_lo q) (gs_hi q S) j A).
Proof.
  intros Hq Hj Ht Hlen. unfold gs_butterfly, bfly_step, gs_lo, gs_hi.
  rewrite !py_getitem_zth by lia. cbn [bind].
  rewrite py_mod_ok by assumption. cbn [bind].
  rewrite py_setitem_in by lia. cbn [bind].
  rewrite py_mod_ok by assumption. cbn [bind].
  rewrite py_setitem_in by (rewrite len_list_update; lia). reflexivity.
Qed.

Lemma len_bfly_step t f g j A : len (bfly_step t f g j A) = len A.
Proof. unfold bfly_step. now rewrite !len_list_update. Qed.

Lemma zth_bfly_step t f g j A p :
  0 <= j -> 0 < t -> j + t < len A -> 0 <= p ->
  zth (bfly_step t f g j A) p =
  if p =? j + t then g (zth A j) (zth A (j + t))
  else if p =? j then f (zth A j) (zth A (j + t))
  else zth A p.
Proof.
  intros Hj Ht Hlen Hp. unfold bfly_step.
  rewrite zth_update by (rewrite ?len_list_update; lia).
  destruct (Z.eqb_spec p (j + t)); [reflexivity|].
  now rewrite zth_update by lia.
Qed.

Ltac split_tests :=
  repeat match goal with
         | |- context [?a <=? ?b] => destruct (Z.leb_spec a b)
         | |- context [?a <? ?b] => destruct (Z.ltb_spec a b)
         | |- context [?a =? ?b] => destruct (Z.eqb_spec a b)
         end; cbn [andb orb negb].

Section Butterflies.
Variables (t : Z) (f g : Z -> Z -> Z) (body : Z -> list Z -> result (list Z)).
Hypothesis t_pos : 0 < t.
Hypothesis body_step : forall j A,
    0 <= j -> j + t < len A -> body j A = Ok (bfly_step t f g j A).

(** The inner loop over one group [[j_1, j_1 + t)]: every pair of the group
    goes through the butterfly, the rest of the array is untouched. *)
Lemma bfly_group j_1 A0 :
  0 <= j_1 -> j_1 + 2 * t <= len A0 ->
  exists A1,
    for_range j_1 (j_1 + t - 1 + 1) body A0 = Ok A1 /\
    len A1 = len A0 /\
    (forall r, 0 <= r < t ->
               zth A1 (j_1 + r) = f (zth A0 (j_1 + r)) (zth A0 (j_1 + t + r)) /\
               zth A1 (j_1 + t + r) = g (zth A0 (j_1 + r)) (zth A0 (j_1 + t + r))) /\
    (forall p, 0 <= p -> p < j_1 \/ j_1 + 2 * t <= p -> zth A1 p = zth A0 p).
Proof.
  intros Hj Hlen.
  destruct (for_range_inv
              (fun c A =>
                 len A = len A0 /\
                 forall p, 0 <= p ->
                   zth A p =
                   if (j_1 <=? p) && (p <? c) then f (zth A0 p) (zth A0 (p + t))
                   else if (j_1 + t <=? p) && (p <? c + t)
                        then g (zth A0 (p - t)) (zth A0 p)
                        else zth A0 p)
              j_1 (j_1 + t - 1 + 1) body A0) as [A1 [E [Hl Hz]]].
  - lia.
  - split; [reflexivity|]. intros p Hp. split_tests; try lia; reflexivity.
  - intros c A Hc [Hl Hz]. rewrite body_step by lia.
    eexists; split; [reflexivity|]. split; [now rewrite len_bfly_step|].
    assert (Ec : zth A c = zth A0 c).
    { rewrite Hz by lia. split_tests; try lia; reflexivity. }
    assert (Ect : zth A (c + t) = zth A0 (c + t)).
    { rewrite Hz by lia. split_tests; try lia; reflexivity. }
    intros p Hp. rewrite zth_bfly_step, Ec, Ect by lia.
    destruct (Z.eqb_spec p (c + t)) as [->|Hne1].
    { split_tests; try lia; now rewrite ?Z.add_simpl_r. }
    destruct (Z.eqb_spec p c) as [->|Hne2].
    { split_tests; try lia; reflexivity. }
    rewrite (Hz p) by lia. split_tests; try lia; reflexivity.
  - exists A1. split; [exact E|]. split; [exact Hl|]. split.
    + intros r Hr. rewrite (Hz (j_1 + r)), (Hz (j_1 + t + r)) by lia. split.
      * split_tests; try lia. f_equal; f_equal; lia.
      * split_tests; try lia. f_equal; f_equal; lia.
    + intros p Hp Hout. rewrite Hz by lia. split_tests; try lia; reflexivity.
Qed.
End Butterflies.

Lemma block_below i' i t : 0 <= i' < i -> 0 <= t -> 2 * i' * t + 2 * t <= 2 * i * t.
Proof. intros. nia. Qed.

Lemma block_next i t : 2 * (i + 1) * t = 2 * i * t + 2 * t.
Proof. ring. Qed.

(** Every index of an array of [m] blocks of length [2t] lies in the low or
    in the high half of one block. *)
Lemma block_cover m t p :
  0 < t -> 0 <= p < 2 * m * t ->
  exists i r, 0 <= i < m /\ 0 <= r < t /\
              (p = 2 * i * t + r \/ p = 2 * i * t + t + r).
Proof.
  intros Ht Hp.
  pose proof (Z.div_mod p (2 * t) ltac:(lia)) as Hdm.
  pose proof (Z.mod_pos_bound p (2 * t) ltac:(lia)) as Hm.
  assert (0 <= p / (2 * t)) by (apply Z.div_pos; lia).
  assert (p / (2 * t) < m) by (apply Z.div_lt_upper_bound; nia).
  exists (p / (2 * t)).
  destruct (Z.lt_ge_cases (p mod (2 * t)) t).
  - exists (p mod (2 * t)). repeat split; try lia; try (left; nia).
  - exists (p mod (2 * t) - t). repeat split; try lia; try (right; nia).
Qed.

(** One stage of the forward transform (the [for i in range(m)] loop of
    lines 113-121), pointwise. *)
Lemma fntt_stage q m t tbl A0 :
  q <> 0 -> 0 < m -> 0 < t -> len A0 = 2 * m * t -> 2 * m <= len tbl ->
  exists A1,
    for_range 0 m (fntt_group q t m tbl) A0 = Ok A1 /\
    len A1 = len A0 /\
    forall i r, 0 <= i < m -> 0 <= r < t ->
      zth A1 (2 * i * t + r) =
        ct_lo q (zth tbl (m + i)) (zth A0 (2 * i * t + r)) (zth A0 (2 * i * t + t + r)) /\
      zth A1 (2 * i * t + t + r) =
        ct_hi q (zth tbl (m + i)) (zth A0 (2 * i * t + r)) (zth A0 (2 * i * t + t + r)).
Proof.
  intros Hq Hm Ht Hlen Htbl.
  destruct (for_range_inv
              (fun i A =>
                 len A = len A0 /\
                 (forall i' r, 0 <= i' < i -> 0 <= r < t ->
                    zth A (2 * i' * t + r) =
                      ct_lo q (zth tbl (m + i')) (zth A0 (2 * i' * t + r))
                            (zth A0 (2 * i' * t + t + r)) /\
                    zth A (2 * i' * t + t + r) =
                      ct_hi q (zth tbl (m + i')) (zth A0 (2 * i' * t + r))
                            (zth A0 (2 * i' * t + t + r))) /\
                 (forall p, 2 * i * t <= p -> zth A p = zth A0 p))
              0 m (fntt_group q t m tbl) A0) as [A1 [E [Hl [Hz _]]]].
  - lia.
  - split; [reflexivity|]. split; [intros; lia | reflexivity].
  - intros i A Hi [Hl [Hdone Hrest]]. unfold fntt_group.
    rewrite py_getitem_zth by lia. cbn [bind].
    pose proof (block_below i m t ltac:(lia) ltac:(lia)) as Hb.
    destruct (bfly_group t (ct_lo q (zth tbl (m + i))) (ct_hi q (zth tbl (m + i)))
                         (ct_butterfly q t (zth tbl (m + i))) Ht
                         ltac:(intros; apply ct_butterfly_step; lia)
                         (2 * i * t) A ltac:(nia) ltac:(lia))
      as [A' [E' [Hl' [Hpair Hframe]]]].
    exists A'. split; [exact E'|]. split; [lia|]. split.
    + intros i' r Hi' Hr.
      destruct (Z.eq_dec i' i) as [->|Hne].
      * destruct (Hpair r Hr) as [H1 H2].
        rewrite H1, H2, !Hrest by lia. split; reflexivity.
      * pose proof (block_below i' i t ltac:(lia) ltac:(lia)).
        rewrite !Hframe by nia. apply Hdone; lia.
    + intros p Hp. rewrite block_next in Hp.
      rewrite Hframe by nia. apply Hrest. lia.
  - exists A1. split; [exact E|]. split; [exact Hl|]. exact Hz.
Qed.

Lemma shiftl_1 t : Z.shiftl t 1 = 2 * t.
Proof. rewrite Z.shiftl_mul_pow2 by lia. change (2 ^ 1) with 2. lia. Qed.

Lemma shiftr_1 t : Z.shiftr t 1 = t / 2.
Proof. rewrite Z.shiftr_div_pow2 by lia. reflexivity. Qed.

(** One stage of the inverse transform (the [for i in range(h)] loop of
    lines 154-162), pointwise. *)
Lemma intt_stage q h t tbl A0 :
  q <> 0 -> 0 < h -> 0 < t -> len A0 = 2 * h * t -> 2 * h <= len tbl ->
  exists A1 j,
    for_range 0 h (intt_group q t h tbl) (A0, 0) = Ok (A1, j) /\
    len A1 = len A0 /\
    forall i r, 0 <= i < h -> 0 <= r < t ->
      zth A1 (2 * i * t + r) =
        gs_lo q (zth A0 (2 * i * t + r)) (zth A0 (2 * i * t + t + r)) /\
      zth A1 (2 * i * t + t + r) =
        gs_hi q (zth tbl (h + i)) (zth A0 (2 * i * t + r)) (zth A0 (2 * i * t + t + r)).
Proof.
  intros Hq Hh Ht Hlen Htbl.
  destruct (for_range_inv
              (fun i (st : list Z * Z) =>
                 len (fst st) = len A0 /\
                 snd st = 2 * i * t /\
                 (forall i' r, 0 <= i' < i -> 0 <= r < t ->
                    zth (fst st) (2 * i' * t + r) =
                      gs_lo q (zth A0 (2 * i' * t + r))
                            (zth A0 (2 * i' * t + t + r)) /\
                    zth (fst st) (2 * i' * t + t + r) =
                      gs_hi q (zth tbl (h + i')) (zth A0 (2 * i' * t + r))
                            (zth A0 (2 * i' * t + t + r))) /\
                 (forall p, 2 * i * t <= p -> zth (fst st) p = zth A0 p))
              0 h (intt_group q t h tbl) (A0, 0)) as [[A1 j] [E [Hl [_ [Hz _]]]]].
  - lia.
  - cbn [fst snd]. split; [reflexivity|]. split; [lia|].
    split; [intros; lia | reflexivity].
  - intros i [A j] Hi [Hl [Hj [Hdone Hrest]]]. cbn [fst snd] in *. subst j.
    unfold intt_group.
    rewrite py_getitem_zth by lia. cbn [bind].
    pose proof (block_below i h t ltac:(lia) ltac:(lia)) as Hb.
    destruct (bfly_group t (gs_lo q) (gs_hi q (zth tbl (h + i)))
                         (gs_butterfly q t (zth tbl (h + i))) Ht
                         ltac:(intros; apply gs_butterfly_step; lia)
                         (2 * i * t) A ltac:(nia) ltac:(lia))
      as [A' [E' [Hl' [Hpair Hframe]]]].
    rewrite E'. cbn [bind].
    eexists; split; [reflexivity|]. cbn [fst snd].
    split; [lia|]. split; [rewrite shiftl_1; ring|]. split.
    + intros i' r Hi' Hr.
      destruct (Z.eq_dec i' i) as [->|Hne].
      * destruct (Hpair r Hr) as [H1 H2].
        rewrite H1, H2, !Hrest by lia. split; reflexivity.
      * pose proof (block_below i' i t ltac:(lia) ltac:(lia)).
        rewrite !Hframe by nia. apply Hdone; lia.
    + intros p Hp. rewrite block_next in Hp.
      rewrite Hframe by nia. apply Hrest. lia.
  - exists A1, j. split; [exact E|]. split; [exact Hl|]. exact Hz.
Qed.

(** ** Congruences *)

#[global] Instance cong_Equivalence q : Equivalence (cong q).
Proof.
  unfold cong. split.
  - intros a; reflexivity.
  - intros a b H; now symmetry.
  - intros a b c H1 H2; now transitivity (b mod q).
Qed.

#[global] Instance cong_add q : Proper (cong q ==> cong q ==> cong q) Z.add.
Proof.
  unfold cong. intros a a' Ha b b' Hb.
  rewrite (Zplus_mod a), (Zplus_mod a'). now rewrite Ha, Hb.
Qed.

#[global] Instance cong_sub q : Proper (cong q ==> cong q ==> cong q) Z.sub.
Proof.
  unfold cong. intros a a' Ha b b' Hb.
  rewrite (Zminus_mod a), (Zminus_mod a'). now rewrite Ha, Hb.
Qed.

#[global] Instance cong_mul q : Proper (cong q ==> cong q ==> cong q) Z.mul.
Proof.
  unfold cong. intros a a' Ha b b' Hb.
  rewrite (Zmult_mod a), (Zmult_mod a'). now rewrite Ha, Hb.
Qed.

#[global] Instance cong_opp q : Proper (cong q ==> cong q) Z.opp.
Proof.
  intros a a' Ha. rewrite <- !Z.sub_0_l. now rewrite Ha.
Qed.

Lemma cong_mod q a : cong q (a mod q) a.
Proof. unfold cong. apply Zmod_mod. Qed.

Lemma eq_cong q a b : a = b -> cong q a b.
Proof. intros ->. reflexivity. Qed.

Lemma cong_pow q a b e : cong q a b -> cong q (a ^ e) (b ^ e).
Proof.
  intros H. destruct (Z.lt_ge_cases e 0) as [Hneg|Hpos].
  - rewrite !Z.pow_neg_r by assumption. reflexivity.
  - pattern e. apply natlike_ind; [reflexivity | | assumption].
    intros x Hx IH. rewrite !Z.pow_succ_r by assumption. now rewrite IH, H.
Qed.

Lemma cong_small q a b : 0 <= a < q -> 0 <= b < q -> cong q a b -> a = b.
Proof.
  unfold cong. intros Ha Hb H. now rewrite !Z.mod_small in H by assumption.
Qed.

Ltac cong_ring := apply eq_cong; ring.

Lemma zth_ext (l l' : list Z) :
  len l = len l' -> (forall p, 0 <= p < len l -> zth l p = zth l' p) -> l = l'.
Proof.
  unfold len, zth. intros Hl H. apply (nth_ext l l' 0 0); [lia|].
  intros k Hk. specialize (H (Z.of_nat k) ltac:(lia)).
  now rewrite Nat2Z.id in H.
Qed.

Lemma pow2_pos k : 0 < 2 ^ Z.of_nat k.
Proof. apply Z.pow_pos_nonneg; lia. Qed.

Lemma pow2_S k : 2 ^ Z.of_nat (S k) = 2 * 2 ^ Z.of_nat k.
Proof. rewrite Nat2Z.inj_succ, Z.pow_succ_r by lia. reflexivity. Qed.

Lemma pow2_add a d : 2 ^ Z.of_nat (a + d) = 2 ^ Z.of_nat a * 2 ^ Z.of_nat d.
Proof. rewrite Nat2Z.inj_add, Z.pow_add_r by lia. reflexivity. Qed.

Lemma pow2_ge k : Z.of_nat k <= 2 ^ Z.of_nat k.
Proof.
  induction k as [|k IH]; [simpl; lia|].
  rewrite pow2_S. pose proof (pow2_pos k). lia.
Qed.

(** ** The loops of the transforms terminate

    On every input, of any length, the fuel the model gives the two
    [while] loops is enough: a transform returns or raises. *)

Lemma bind_no_diverge {A B} (c : result A) (k : A -> result B) :
  c <> Diverge -> (forall a, k a <> Diverge) -> bind c k <> Diverge.
Proof.
  intros Hc Hk. destruct c; cbn [bind]; [apply Hk | discriminate | now elim Hc].
Qed.

Lemma py_getitem_no_diverge {A} (l : list A) i : py_getitem l i <> Diverge.
Proof.
  unfold py_getitem. destruct (py_norm_index (len l) i); [|discriminate].
  destruct (nth_error l n); discriminate.
Qed.

Lemma py_setitem_no_diverge {A} (l : list A) i v : py_setitem l i v <> Diverge.
Proof. unfold py_setitem. destruct (py_norm_index (len l) i); discriminate. Qed.

Lemma py_mod_no_diverge a q : py_mod a q <> Diverge.
Proof. unfold py_mod. destruct (q =? 0); discriminate. Qed.

Lemma py_pow3_no_diverge b e m : py_pow3 b e m <> Diverge.
Proof.
  unfold py_pow3. destruct (m =? 0), (0 <=? e), (Z.gcd b m =? 1); discriminate.
Qed.

Lemma for_each_no_diverge {X S} (xs : list X) (body : X -> S -> result S) :
  (forall x s, body x s <> Diverge) -> forall s, for_each xs body s <> Diverge.
Proof.
  intros Hbody. induction xs as [|x xs IH]; intros s; cbn [for_each];
    [discriminate|].
  apply bind_no_diverge; [apply Hbody | assumption].
Qed.

Ltac no_diverge :=
  repeat first [ apply py_getitem_no_diverge
               | apply py_setitem_no_diverge
               | apply py_mod_no_diverge
               | apply py_pow3_no_diverge
               | apply bind_no_diverge
               | intro ].

Lemma ct_butterfly_no_diverge q t S j A : ct_butterfly q t S j A <> Diverge.
Proof. unfold ct_butterfly. no_diverge. Qed.

Lemma gs_butterfly_no_diverge q t S j A : gs_butterfly q t S j A <> Diverge.
Proof. unfold gs_butterfly. no_diverge. Qed.

Lemma fntt_group_no_diverge q t m tbl i A : fntt_group q t m tbl i A <> Diverge.
Proof.
  unfold fntt_group. apply bind_no_diverge; [apply py_getitem_no_diverge|].
  intros S. apply for_each_no_diverge. intros; apply ct_butterfly_no_diverge.
Qed.

Lemma intt_group_no_diverge q t h tbl i st : intt_group q t h tbl i st <> Diverge.
Proof.
  unfold intt_group. destruct st as [A j_1].
  apply bind_no_diverge; [apply py_getitem_no_diverge|].
  intros S. apply bind_no_diverge; [|discriminate].
  apply for_each_no_diverge. intros; apply gs_butterfly_no_diverge.
Qed.

Lemma fntt_while_no_diverge q n tbl fuel : forall m t A,
  1 <= m -> n <= m * 2 ^ Z.of_nat fuel ->
  fntt_while fuel q n tbl m t A <> Diverge.
Proof.
  induction fuel as [|fuel IH]; intros m t A Hm Hn; cbn [fntt_while];
    destruct (Z.ltb_spec m n); try discriminate.
  - simpl in Hn. lia.
  - apply bind_no_diverge.
    + apply for_each_no_diverge. intros; apply fntt_group_no_diverge.
    + intros A'. apply IH; rewrite shiftl_1; [lia|].
      rewrite pow2_S in Hn. lia.
Qed.

Lemma intt_while_no_diverge q tbl fuel : forall t m A,
  m <= 2 ^ Z.of_nat fuel -> intt_while fuel q tbl t m A <> Diverge.
Proof.
  induction fuel as [|fuel IH]; intros t m A Hm; cbn [intt_while];
    destruct (Z.gtb_spec m 1); try discriminate.
  - simpl in Hm. lia.
  - apply bind_no_diverge.
    + apply for_each_no_diverge. intros; apply intt_group_no_diverge.
    + intros [A' j]. apply IH. rewrite shiftr_1. rewrite pow2_S in Hm.
      apply Z.div_le_upper_bound; lia.
Qed.

Lemma speedup_FNTT_no_diverge a q tbl : speedup_FNTT a q tbl <> Diverge.
Proof.
  unfold speedup_FNTT. apply fntt_while_no_diverge; [lia|].
  unfold len. pose proof (pow2_ge (List.length a)). lia.
Qed.

Lemma speedup_INTT_no_diverge a q tbl : speedup_INTT a q tbl <> Diverge.
Proof.
  unfold speedup_INTT. apply bind_no_diverge.
  - apply intt_while_no_diverge. unfold len. apply pow2_ge.
  - intros A. apply bind_no_diverge; [apply py_pow3_no_diverge|].
    intros n_inv. apply for_each_no_diverge. intros.
    unfold scale_step. no_diverge.
Qed.

(** ** The round trip *)

Section RoundTrip.
Variables (q : Z) (k : nat) (Tf Ti : list Z).
Let n := 2 ^ Z.of_nat k.
Hypothesis q_nz : q <> 0.
Hypothesis Tf_len : len Tf = n.
Hypothesis Ti_len : len Ti = n.
Hypothesis T_inv : forall x, 1 <= x < n -> cong q (zth Tf x * zth Ti x) 1.

(** With [d] stages left in the forward loop, the forward loop finishes, and
    the first [d] stages of the inverse loop bring its result back to the
    array the forward loop started from, times [2^d]. *)
Lemma stages_cancel d : forall a X fuel,
  (a + d = k)%nat -> len X = n -> (d <= fuel)%nat ->
  exists W V,
    fntt_while fuel q n Tf (2 ^ Z.of_nat a) (2 ^ Z.of_nat d) X = Ok W /\
    len W = n /\ len V = n /\
    (forall fuel',
        intt_while (d + fuel') q Ti 1 n W =
        intt_while fuel' q Ti (2 ^ Z.of_nat d) (2 ^ Z.of_nat a) V) /\
    (forall p, 0 <= p < n -> cong q (zth V p) (2 ^ Z.of_nat d * zth X p)) /\
    (d <> O -> forall p, 0 <= p < n -> zth W p = zth W p mod q).
Proof.
  induction d as [|d IH]; intros a X fuel Hk HX Hfuel.
  - assert (a = k) by lia. subst a. exists X, X.
    destruct fuel; cbn [fntt_while]; fold n; rewrite Z.ltb_irrefl;
      (split; [reflexivity|]); (split; [assumption|]); (split; [assumption|]);
      (split; [intros; reflexivity|]);
      (split; [intros; change (2 ^ Z.of_nat 0) with 1; cong_ring | congruence]).
  - destruct fuel as [|fuel]; [lia|].
    pose proof (pow2_pos a) as Ha. pose proof (pow2_pos d) as Hd.
    assert (Hn : n = 2 * 2 ^ Z.of_nat a * 2 ^ Z.of_nat d).
    { unfold n. rewrite <- Hk, pow2_add, pow2_S. ring. }
    cbn [fntt_while].
    destruct (Z.ltb_spec (2 ^ Z.of_nat a) n) as [_|Hge]; [|nia].
    rewrite shiftr_1, shiftl_1, pow2_S.
    replace (2 * 2 ^ Z.of_nat d / 2) with (2 ^ Z.of_nat d)
      by (rewrite Z.mul_comm, Z.div_mul; lia).
    destruct (fntt_stage q (2 ^ Z.of_nat a) (2 ^ Z.of_nat d) Tf X)
      as [X' [EX' [HlX' HX']]]; try lia; try nia.
    rewrite EX'. cbn [bind]. rewrite <- pow2_S.
    destruct (IH (S a) X' fuel ltac:(lia) ltac:(lia) ltac:(lia))
      as [W [V' [EW [HlW [HlV' [Hint [HV' HWred]]]]]]].
    destruct (intt_stage q (2 ^ Z.of_nat a) (2 ^ Z.of_nat d) Ti V')
      as [V [j [EV [HlV HV]]]]; try lia; try nia.
    exists W, V. split; [exact EW|]. split; [exact HlW|]. split; [lia|].
    split; [|split].
    + intros fuel'. replace (S d + fuel')%nat with (d + S fuel')%nat by lia.
      rewrite Hint. cbn [intt_while].
      destruct (Z.gtb_spec (2 ^ Z.of_nat (S a)) 1) as [_|Hle];
        [|rewrite pow2_S in Hle; lia].
      rewrite shiftr_1, shiftl_1, (pow2_S a).
      replace (2 * 2 ^ Z.of_nat a / 2) with (2 ^ Z.of_nat a)
        by (rewrite Z.mul_comm, Z.div_mul; lia).
      rewrite EV. cbn [bind]. reflexivity.
    + intros p Hp.
      destruct (block_cover (2 ^ Z.of_nat a) (2 ^ Z.of_nat d) p Hd ltac:(lia))
        as [i [r [Hi [Hr Hpr]]]].
      destruct (HV i r Hi Hr) as [HVlo HVhi].
      destruct (HX' i r Hi Hr) as [HXlo HXhi].
      assert (Hlo : 0 <= 2 * i * 2 ^ Z.of_nat d + r < n) by nia.
      assert (Hhi : 0 <= 2 * i * 2 ^ Z.of_nat d + 2 ^ Z.of_nat d + r < n) by nia.
      pose proof (HV' _ Hlo) as Clo. pose proof (HV' _ Hhi) as Chi.
      rewrite HXlo in Clo. rewrite HXhi in Chi.
      unfold ct_lo in Clo. unfold ct_hi in Chi. rewrite cong_mod in Clo, Chi.
      pose proof (T_inv (2 ^ Z.of_nat a + i) ltac:(nia)) as HT.
      destruct Hpr as [-> | ->].
      * rewrite HVlo. unfold gs_lo. rewrite cong_mod, Clo, Chi.
        cong_ring.
      * rewrite HVhi. unfold gs_hi. rewrite cong_mod, Clo, Chi.
        transitivity (2 * 2 ^ Z.of_nat d
                      * zth X (2 * i * 2 ^ Z.of_nat d + 2 ^ Z.of_nat d + r)
                      * (zth Tf (2 ^ Z.of_nat a + i) * zth Ti (2 ^ Z.of_nat a + i)));
          [cong_ring|].
        rewrite HT. cong_ring.
    + intros _ p Hp. destruct d as [|d].
      * (* the stage just run is the last one: [W] is its output *)
        assert (Hnn : 2 ^ Z.of_nat (S a) = n).
        { rewrite Hn, pow2_S. simpl (2 ^ Z.of_nat 0). ring. }
        assert (W = X').
        { destruct fuel; cbn [fntt_while] in EW;
            rewrite Hnn, Z.ltb_irrefl in EW; congruence. }
        subst W.
        destruct (block_cover (2 ^ Z.of_nat a) (2 ^ Z.of_nat 0) p Hd ltac:(lia))
          as [i [r [Hi [Hr Hpr]]]].
        destruct (HX' i r Hi Hr) as [HXlo HXhi].
        destruct Hpr as [-> | ->]; [rewrite HXlo | rewrite HXhi];
          unfold ct_lo, ct_hi; now rewrite Zmod_mod.
      * apply HWred; [discriminate | assumption].
Qed.
End RoundTrip.

Lemma py_pow3_inverse b q :
  q <> 0 -> Z.gcd b q = 1 ->
  py_pow3 b (-1) q = Ok (Z.invmod b q mod q) /\
  cong q (Z.invmod b q mod q * b) 1.
Proof.
  intros Hq Hg. unfold py_pow3.
  destruct (Z.eqb_spec q 0); [contradiction|].
  change (0 <=? -1) with false. cbv iota.
  rewrite Hg, Z.eqb_refl. change (- -1) with 1. rewrite Z.pow_1_r.
  split; [reflexivity|]. rewrite cong_mod.
  unfold cong. now apply Z.invmod_coprime'.
Qed.

Lemma coprime_of_inverse a u q : a * u mod q = 1 -> Z.gcd a q = 1.
Proof.
  intros H. apply Z.bezout_1_gcd.
  exists u, (- (a * u / q)).
  pose proof (Z_div_mod_eq_full (a * u) q). lia.
Qed.

Lemma coprime_of_mod_one n q : q mod (2 * n) = 1 -> Z.gcd n q = 1.
Proof.
  intros H. apply Z.bezout_1_gcd.
  exists (- (2 * (q / (2 * n)))), 1.
  pose proof (Z_div_mod_eq_full q (2 * n)). lia.
Qed.

Lemma primitive_root_coprime n q psi :
  0 < n -> primitive_root n q psi -> Z.gcd psi q = 1.
Proof.
  intros Hn [H1 _]. apply (coprime_of_inverse psi (psi ^ (2 * n - 1))).
  rewrite <- Z.pow_succ_r by lia. now replace (Z.succ (2 * n - 1)) with (2 * n) by lia.
Qed.

Lemma zth_repeat x c p : 0 <= p < Z.of_nat c -> zth (repeat x c) p = x.
Proof.
  intros Hp. unfold zth. apply nth_repeat_lt. lia.
Qed.

Lemma len_repeat {A} (x : A) c : len (repeat x c) = Z.of_nat c.
Proof. unfold len. now rewrite repeat_length. Qed.

Lemma pow_pred x c : 0 < c -> x ^ c = x ^ (c - 1) * x.
Proof.
  intros Hc. replace c with (Z.succ (c - 1)) at 1 by lia.
  rewrite Z.pow_succ_r by lia. ring.
Qed.

(** Lines 14-18 of the caller: the two tables of powers. *)
Lemma power_tables q psi psi_inv n :
  q <> 0 -> 1 <= n ->
  exists P Pi,
    for_range 1 n (table_step q psi psi_inv)
              (repeat 1 (Z.to_nat n), repeat 1 (Z.to_nat n)) = Ok (P, Pi) /\
    len P = n /\ len Pi = n /\
    forall p, 0 <= p < n ->
              cong q (zth P p) (psi ^ p) /\ cong q (zth Pi p) (psi_inv ^ p).
Proof.
  intros Hq Hn.
  destruct (for_range_inv
              (fun c (st : list Z * list Z) =>
                 len (fst st) = n /\ len (snd st) = n /\
                 forall p, 0 <= p < c ->
                           cong q (zth (fst st) p) (psi ^ p) /\
                           cong q (zth (snd st) p) (psi_inv ^ p))
              1 n (table_step q psi psi_inv)
              (repeat 1 (Z.to_nat n), repeat 1 (Z.to_nat n)))
    as [[P Pi] [E [HP [HPi Hz]]]].
  - assumption.
  - cbn [fst snd]. rewrite !len_repeat.
    split; [lia|]. split; [lia|].
    intros p Hp. assert (p = 0) as -> by lia.
    rewrite zth_repeat by lia. split; reflexivity.
  - intros c [P Pi] Hc [HP [HPi Hz]]. cbn [fst snd] in *.
    unfold table_step.
    rewrite (py_getitem_zth P) by lia. cbn [bind].
    rewrite py_mod_ok by assumption. cbn [bind].
    rewrite py_setitem_in by lia. cbn [bind].
    rewrite (py_getitem_zth Pi) by lia. cbn [bind].
    rewrite py_mod_ok by assumption. cbn [bind].
    rewrite py_setitem_in by lia. cbn [bind].
    eexists; split; [reflexivity|]. cbn [fst snd].
    rewrite !len_list_update. split; [assumption|]. split; [assumption|].
    intros p Hp. rewrite !zth_update by lia.
    destruct (Z.eqb_spec p c) as [->|Hne].
    + destruct (Hz (c - 1) ltac:(lia)) as [H1 H2].
      rewrite !cong_mod, H1, H2.
      rewrite (pow_pred psi c), (pow_pred psi_inv c) by lia.
      split; reflexivity.
    + apply Hz. lia.
  - exists P, Pi. cbn [fst snd] in *. auto.
Qed.

(** Lines 7-22 of the caller: for a root [psi] coprime to [q], entry [x] of
    the forward table is [psi^rev(x)] and entry [x] of the inverse table is
    the same power of the inverse of [psi]. *)
Lemma psi_tables_spec q k psi :
  q <> 0 -> Z.gcd psi q = 1 ->
  exists Tf Ti psi_inv,
    psi_tables (2 ^ Z.of_nat k) q psi = Ok (Tf, Ti) /\
    len Tf = 2 ^ Z.of_nat k /\ len Ti = 2 ^ Z.of_nat k /\
    cong q (psi_inv * psi) 1 /\
    forall x, 0 <= x < 2 ^ Z.of_nat k ->
              cong q (zth Tf x) (psi ^ bitrev k x) /\
              cong q (zth Ti x) (psi_inv ^ bitrev k x).
Proof.
  intros Hq Hg. unfold psi_tables.
  destruct (py_pow3_inverse psi q Hq Hg) as [Einv Hinv].
  rewrite Einv. cbn [bind].
  pose proof (pow2_pos k) as Hn.
  destruct (power_tables q psi (Z.invmod psi q mod q) (2 ^ Z.of_nat k) Hq
                         ltac:(lia)) as [P [Pi [E [HP [HPi Hz]]]]].
  rewrite E. cbn [bind].
  destruct (bit_reverse_order_zth P k HP) as [Tf [ETf [HTf HzTf]]].
  destruct (bit_reverse_order_zth Pi k HPi) as [Ti [ETi [HTi HzTi]]].
  rewrite ETf. cbn [bind]. rewrite ETi. cbn [bind].
  exists Tf, Ti, (Z.invmod psi q mod q).
  split; [reflexivity|]. split; [lia|]. split; [lia|]. split; [exact Hinv|].
  intros x Hx. pose proof (bitrev_range k x).
  rewrite HzTf, HzTi by lia. apply Hz. lia.
Qed.

Lemma tables_inverse q k psi psi_inv Tf Ti :
  cong q (psi_inv * psi) 1 ->
  (forall x, 0 <= x < 2 ^ Z.of_nat k ->
             cong q (zth Tf x) (psi ^ bitrev k x) /\
             cong q (zth Ti x) (psi_inv ^ bitrev k x)) ->
  forall x, 1 <= x < 2 ^ Z.of_nat k -> cong q (zth Tf x * zth Ti x) 1.
Proof.
  intros Hinv HT x Hx. destruct (HT x ltac:(lia)) as [H1 H2].
  rewrite H1, H2, Z.mul_comm, <- Z.pow_mul_l.
  rewrite (cong_pow q _ 1 _ Hinv). rewrite Z.pow_1_l; [reflexivity|].
  apply bitrev_range.
Qed.

(** Lines 166-167: the final scaling. *)
Lemma scale_loop q n_inv V :
  q <> 0 ->
  exists V',
    for_range 0 (len V) (scale_step q n_inv) V = Ok V' /\
    len V' = len V /\
    forall p, 0 <= p < len V -> zth V' p = (zth V p * n_inv) mod q.
Proof.
  intros Hq.
  destruct (for_range_inv
              (fun c A =>
                 len A = len V /\
                 forall p, 0 <= p ->
                           zth A p = if p <? c then (zth V p * n_inv) mod q
                                     else zth V p)
              0 (len V) (scale_step q n_inv) V) as [V' [E [Hl Hz]]].
  - apply len_nonneg.
  - split; [reflexivity|]. intros p Hp. split_tests; [lia | reflexivity].
  - intros c A Hc [Hl Hz]. unfold scale_step.
    rewrite py_getitem_zth by lia. cbn [bind].
    rewrite py_mod_ok by assumption. cbn [bind].
    rewrite py_setitem_in by lia.
    eexists; split; [reflexivity|]. split; [now rewrite len_list_update|].
    intros p Hp. rewrite zth_update by lia. rewrite (Hz c), (Hz p) by lia.
    split_tests; try lia; subst; reflexivity.
  - exists V'. split; [exact E|]. split; [exact Hl|].
    intros p Hp. rewrite Hz by lia. split_tests; [reflexivity | lia].
Qed.

Lemma residues_zth q a p : residues q a -> 0 <= p < len a -> 0 <= zth a p < q.
Proof.
  unfold residues, zth, len. intros H Hp.
  rewrite Forall_forall in H. apply H, nth_In. lia.
Qed.

(** The round trip for any pair of tables whose entries are inverse to each
    other: the inverse transform of the forward transform of [X] is [X]. *)
Lemma roundtrip_core q k Tf Ti X :
  0 < q ->
  len Tf = 2 ^ Z.of_nat k -> len Ti = 2 ^ Z.of_nat k ->
  (forall x, 1 <= x < 2 ^ Z.of_nat k -> cong q (zth Tf x * zth Ti x) 1) ->
  Z.gcd (2 ^ Z.of_nat k) q = 1 ->
  len X = 2 ^ Z.of_nat k -> residues q X ->
  exists W,
    speedup_FNTT X q Tf = Ok W /\
    len W = 2 ^ Z.of_nat k /\
    (k <> O -> forall p, 0 <= p < 2 ^ Z.of_nat k -> zth W p = zth W p mod q) /\
    speedup_INTT W q Ti = Ok X.
Proof.
  intros Hq HTf HTi HT Hg HX Hres.
  assert (Hfuel : (k <= List.length X)%nat).
  { pose proof (pow2_ge k). unfold len in HX. lia. }
  destruct (stages_cancel q k Tf Ti ltac:(lia) HTf HTi HT k O X (List.length X)
                          ltac:(lia) HX Hfuel)
    as [W [V [EW [HlW [HlV [Hint [HV HWred]]]]]]].
  exists W. split; [|split; [exact HlW | split; [exact HWred|]]].
  - unfold speedup_FNTT. rewrite HX. exact EW.
  - unfold speedup_INTT. rewrite HlW.
    assert (Hf : exists f', List.length W = (k + f')%nat).
    { exists (List.length W - k)%nat. pose proof (pow2_ge k).
      unfold len in HlW. lia. }
    destruct Hf as [f' ->]. rewrite Hint.
    assert (EV : intt_while f' q Ti (2 ^ Z.of_nat k) (2 ^ Z.of_nat 0) V = Ok V).
    { destruct f'; reflexivity. }
    rewrite EV. cbn [bind].
    destruct (py_pow3_inverse (2 ^ Z.of_nat k) q ltac:(lia) Hg) as [Einv Hinv].
    rewrite Einv. cbn [bind].
    destruct (scale_loop q (Z.invmod (2 ^ Z.of_nat k) q mod q) V ltac:(lia))
      as [V' [EV' [HlV' HV']]].
    rewrite HlV in EV'. rewrite EV'. f_equal.
    apply zth_ext; [lia|].
    intros p Hp. rewrite HV' by lia.
    apply (cong_small q).
    + apply Z.mod_pos_bound. lia.
    + apply residues_zth; [assumption | lia].
    + rewrite cong_mod, (HV p) by lia.
      transitivity (zth X p * (Z.invmod (2 ^ Z.of_nat k) q mod q * 2 ^ Z.of_nat k));
        [cong_ring|].
      rewrite Hinv. cong_ring.
Qed.

(** C1: for [n = 2^k], a prime [q = 1 (mod 2n)], a primitive [2n]-th root of
    unity [psi] modulo [q] and a list [a] of [n] residues, the caller's two
    bit-reversed tables of powers of [psi] and of its inverse are built, the
    forward transform of [a] with the first returns some [F], and the
    inverse transform of [F] with the second returns [a]. *)
Theorem ntt_round_trip k q psi a :
  Z.prime q ->
  q mod (2 * 2 ^ Z.of_nat k) = 1 ->
  primitive_root (2 ^ Z.of_nat k) q psi ->
  len a = 2 ^ Z.of_nat k ->
  residues q a ->
  exists Tf Ti F,
    psi_tables (2 ^ Z.of_nat k) q psi = Ok (Tf, Ti) /\
    speedup_FNTT a q Tf = Ok F /\
    speedup_INTT F q Ti = Ok a.
Proof.
  intros Hp Hmod Hroot Hlen Hres.
  pose proof (Z.prime_ge_2 q Hp) as Hq.
  pose proof (pow2_pos k) as Hn.
  pose proof (primitive_root_coprime _ _ _ Hn Hroot) as Hg.
  destruct (psi_tables_spec q k psi ltac:(lia) Hg)
    as [Tf [Ti [psi_inv [ET [HTf [HTi [Hinv HT]]]]]]].
  destruct (roundtrip_core q k Tf Ti a ltac:(lia) HTf HTi
                           (tables_inverse q k psi psi_inv Tf Ti Hinv HT)
                           (coprime_of_mod_one _ _ Hmod) Hlen Hres)
    as [F [EF [_ [_ EI]]]].
  exists Tf, Ti, F. auto.
Qed.

Lemma primitive_root_17_3 : primitive_root (2 ^ Z.of_nat 3) 17 3.
Proof.
  split; [vm_compute; reflexivity|].
  intros j Hj. change (2 * 2 ^ Z.of_nat 3) with 16 in Hj.
  assert (In j (zrange 1 16)) as Hin by (apply In_zrange; lia).
  revert Hin. generalize j. apply Forall_forall.
  repeat constructor; vm_compute; discriminate.
Qed.

Lemma ntt_round_trip_witness :
  exists Tf Ti F,
    psi_tables (2 ^ Z.of_nat 3) 17 3 = Ok (Tf, Ti) /\
    speedup_FNTT [1; 2; 3; 4; 5; 6; 7; 8] 17 Tf = Ok F /\
    speedup_INTT F 17 Ti = Ok [1; 2; 3; 4; 5; 6; 7; 8].
Proof.
  apply (ntt_round_trip 3 17 3 [1; 2; 3; 4; 5; 6; 7; 8]).
  - exact prime_17.
  - vm_compute; reflexivity.
  - exact primitive_root_17_3.
  - reflexivity.
  - repeat constructor; lia.
Defined.

(** ** What the forward transform computes *)

Lemma fntt_stage_rel q m t tbl X :
  q <> 0 -> 0 < m -> 0 < t -> len X = 2 * m * t -> 2 * m <= len tbl ->
  exists X', for_range 0 m (fntt_group q t m tbl) X = Ok X' /\
             ct_stage_rel q tbl m t X X'.
Proof.
  intros Hq Hm Ht HX Htbl.
  destruct (fntt_stage q m t tbl X Hq Hm Ht HX Htbl) as [X' [E [Hl H]]].
  exists X'. split; [exact E | split; assumption].
Qed.

(** The invariant rule of the forward transform on a length [2^k]: a
    property that holds of the input at stage 0 and that every stage carries
    to the next holds of the output at stage [k]; and the loop does run to
    its end. *)
Lemma fntt_while_inv q k Tf (P : nat -> list Z -> Prop) :
  q <> 0 -> len Tf = 2 ^ Z.of_nat k ->
  (forall a d X X',
      (a + S d = k)%nat -> len X = 2 ^ Z.of_nat k -> P a X ->
      ct_stage_rel q Tf (2 ^ Z.of_nat a) (2 ^ Z.of_nat d) X X' -> P (S a) X') ->
  forall d a X fuel,
    (a + d = k)%nat -> len X = 2 ^ Z.of_nat k -> (d <= fuel)%nat -> P a X ->
    exists W,
      fntt_while fuel q (2 ^ Z.of_nat k) Tf (2 ^ Z.of_nat a) (2 ^ Z.of_nat d) X
      = Ok W /\
      len W = 2 ^ Z.of_nat k /\ P k W.
Proof.
  intros Hq HTf Hstep.
  induction d as [|d IH]; intros a X fuel Hk HX Hfuel HP.
  - assert (a = k) by lia. subst a. exists X.
    destruct fuel; cbn [fntt_while]; rewrite Z.ltb_irrefl; auto.
  - destruct fuel as [|fuel]; [lia|].
    pose proof (pow2_pos a) as Ha. pose proof (pow2_pos d) as Hd.
    assert (Hn : 2 ^ Z.of_nat k = 2 * 2 ^ Z.of_nat a * 2 ^ Z.of_nat d).
    { rewrite <- Hk, pow2_add, pow2_S. ring. }
    cbn [fntt_while].
    destruct (Z.ltb_spec (2 ^ Z.of_nat a) (2 ^ Z.of_nat k)) as [_|Hge]; [|nia].
    rewrite shiftr_1, shiftl_1, (pow2_S d).
    replace (2 * 2 ^ Z.of_nat d / 2) with (2 ^ Z.of_nat d)
      by (rewrite Z.mul_comm, Z.div_mul; lia).
    destruct (fntt_stage_rel q (2 ^ Z.of_nat a) (2 ^ Z.of_nat d) Tf X)
      as [X' [EX' Hrel]]; try lia; try nia.
    rewrite EX'. cbn [bind]. rewrite <- (pow2_S a).
    apply (IH (S a) X' fuel); try lia.
    + destruct Hrel as [Hl _]. lia.
    + apply (Hstep a d X X'); auto.
Qed.

Lemma speedup_FNTT_inv q k Tf (P : nat -> list Z -> Prop) X :
  q <> 0 -> len Tf = 2 ^ Z.of_nat k ->
  (forall a d X X',
      (a + S d = k)%nat -> len X = 2 ^ Z.of_nat k -> P a X ->
      ct_stage_rel q Tf (2 ^ Z.of_nat a) (2 ^ Z.of_nat d) X X' -> P (S a) X') ->
  len X = 2 ^ Z.of_nat k -> P O X ->
  exists W, speedup_FNTT X q Tf = Ok W /\ len W = 2 ^ Z.of_nat k /\ P k W.
Proof.
  intros Hq HTf Hstep HX HP. unfold speedup_FNTT. rewrite HX.
  apply (fntt_while_inv q k Tf P Hq HTf Hstep k O X); auto.
  pose proof (pow2_ge k). unfold len in HX. lia.
Qed.

(** The forward transform of residues is a list of residues. *)
Lemma speedup_FNTT_residues q k Tf X W :
  0 < q -> len Tf = 2 ^ Z.of_nat k -> len X = 2 ^ Z.of_nat k ->
  residues q X -> speedup_FNTT X q Tf = Ok W ->
  forall p, 0 <= p < 2 ^ Z.of_nat k -> 0 <= zth W p < q.
Proof.
  intros Hq HTf HX Hres EW.
  destruct (speedup_FNTT_inv q k Tf
              (fun _ Y => forall p, 0 <= p < 2 ^ Z.of_nat k -> 0 <= zth Y p < q) X)
    as [W' [EW' [_ HW']]]; try lia; auto.
  - intros a d Y Y' Hk HY HP [Hl Hrel] p Hp.
    pose proof (pow2_pos d) as Hd.
    assert (Hn : 2 ^ Z.of_nat k = 2 * 2 ^ Z.of_nat a * 2 ^ Z.of_nat d).
    { rewrite <- Hk, pow2_add, pow2_S. ring. }
    destruct (block_cover (2 ^ Z.of_nat a) (2 ^ Z.of_nat d) p Hd ltac:(lia))
      as [i [r [Hi [Hr Hpr]]]].
    destruct (Hrel i r Hi Hr) as [Hlo Hhi].
    destruct Hpr as [-> | ->]; [rewrite Hlo | rewrite Hhi];
      unfold ct_lo, ct_hi; apply Z.mod_pos_bound; lia.
  - intros p Hp. apply residues_zth; [assumption | lia].
  - assert (W = W') by congruence. subst W'. exact HW'.
Qed.

(** *** Finite sums *)

Lemma zsum_ext n f g :
  (forall u, 0 <= u < Z.of_nat n -> f u = g u) -> zsum n f = zsum n g.
Proof.
  induction n as [|n IH]; intros H; cbn [zsum]; [reflexivity|].
  rewrite IH, (H (Z.of_nat n)) by (try intros; try apply H; lia). reflexivity.
Qed.

Lemma zsum_cong q n f g :
  (forall u, 0 <= u < Z.of_nat n -> cong q (f u) (g u)) ->
  cong q (zsum n f) (zsum n g).
Proof.
  induction n as [|n IH]; intros H; cbn [zsum]; [reflexivity|].
  rewrite IH, (H (Z.of_nat n)) by (try intros; try apply H; lia). reflexivity.
Qed.

Lemma zsum_add n f g :
  zsum n (fun u => f u + g u) = zsum n f + zsum n g.
Proof. induction n as [|n IH]; cbn [zsum]; [reflexivity | rewrite IH; ring]. Qed.

Lemma zsum_mul_r n f c : zsum n (fun u => f u * c) = zsum n f * c.
Proof. induction n as [|n IH]; cbn [zsum]; [reflexivity | rewrite IH; ring]. Qed.

Lemma zsum_mul_l n f c : zsum n (fun u => c * f u) = c * zsum n f.
Proof. induction n as [|n IH]; cbn [zsum]; [ring | rewrite IH; ring]. Qed.

Lemma zsum_split a b f :
  zsum (a + b) f = zsum a f + zsum b (fun j => f (Z.of_nat a + j)).
Proof.
  induction b as [|b IH].
  - rewrite Nat.add_0_r. cbn [zsum]. ring.
  - rewrite Nat.add_succ_r. cbn [zsum]. rewrite IH, Nat2Z.inj_add. ring.
Qed.

Lemma zsum_even_odd m f :
  zsum (2 * m) f = zsum m (fun u => f (2 * u) + f (2 * u + 1)).
Proof.
  induction m as [|m IH]; [reflexivity|].
  replace (2 * S m)%nat with (S (S (2 * m))) by lia.
  cbn [zsum]. rewrite IH.
  replace (Z.of_nat (2 * m)) with (2 * Z.of_nat m) by lia.
  replace (Z.of_nat (S (2 * m))) with (2 * Z.of_nat m + 1) by lia.
  ring.
Qed.

Lemma zsum_swap n m (g : Z -> Z -> Z) :
  zsum n (fun i => zsum m (fun j => g i j)) =
  zsum m (fun j => zsum n (fun i => g i j)).
Proof.
  induction n as [|n IH]; cbn [zsum].
  - induction m as [|m IHm]; cbn [zsum]; [reflexivity | rewrite <- IHm; ring].
  - rewrite IH, <- zsum_add. reflexivity.
Qed.

(** *** The layout of the forward table *)

Lemma bitrev_double k : forall y,
  0 <= y < 2 ^ Z.of_nat k -> bitrev (S k) y = 2 * bitrev k y.
Proof.
  induction k as [|k IH]; intros y Hy.
  - simpl in Hy. assert (y = 0) as -> by lia. reflexivity.
  - rewrite pow2_S in Hy.
    change (bitrev (S (S k)) y)
      with (y mod 2 * 2 ^ Z.of_nat (S k) + bitrev (S k) (y / 2)).
    rewrite IH.
    2:{ split; [apply Z.div_pos; lia | apply Z.div_lt_upper_bound; lia]. }
    cbn [bitrev]. rewrite pow2_S. ring.
Qed.

Lemma bitrev_half k x :
  0 <= x < 2 ^ Z.of_nat (S k) ->
  2 * bitrev (S k) x = x mod 2 * 2 ^ Z.of_nat (S k) + bitrev (S k) (x / 2).
Proof.
  intros Hx. rewrite pow2_S in Hx. rewrite (bitrev_double k (x / 2)).
  2:{ split; [apply Z.div_pos; lia | apply Z.div_lt_upper_bound; lia]. }
  cbn [bitrev]. rewrite pow2_S. ring.
Qed.

Section ForwardTable.
Variables (q : Z) (k : nat) (psi : Z) (Tf : list Z).
Hypothesis Tf_pow : forall x, 0 <= x < 2 ^ Z.of_nat k ->
                              cong q (zth Tf x) (psi ^ bitrev k x).
Hypothesis psi_n : cong q (psi ^ (2 ^ Z.of_nat k)) (-1).

(** The square of entry [x] is entry [x // 2], up to the sign that the
    parity of [x] fixes. *)
Lemma twiddle_square x :
  1 <= x < 2 ^ Z.of_nat k ->
  cong q (zth Tf x ^ 2)
       ((if Z.even x then 1 else -1) * zth Tf (x / 2)).
Proof.
  intros Hx. destruct k as [|k'] eqn:Ek; [simpl in Hx; lia|].
  assert (Hhalf : 0 <= x / 2 < 2 ^ Z.of_nat (S k')).
  { split; [apply Z.div_pos; lia | apply Z.div_lt_upper_bound; lia]. }
  pose proof (bitrev_range (S k') x) as Rx.
  pose proof (bitrev_range (S k') (x / 2)) as Rh.
  rewrite (cong_pow q _ _ 2 (Tf_pow x ltac:(lia))).
  rewrite (Tf_pow (x / 2) Hhalf).
  rewrite <- Z.pow_mul_r by lia.
  rewrite (Z.mul_comm _ 2), bitrev_half by lia.
  rewrite Zmod_even. destruct (Z.even x).
  - rewrite Z.mul_0_l, Z.add_0_l. cong_ring.
  - rewrite Z.mul_1_l, Z.pow_add_r by lia. rewrite psi_n. cong_ring.
Qed.

(** The twiddle of group [i] at stage [a] squares to the root of its block. *)
Lemma twiddle_block_root a i :
  (a < k)%nat -> 0 <= i < 2 ^ Z.of_nat a ->
  cong q (zth Tf (2 ^ Z.of_nat a + i) ^ 2) (block_root Tf a i).
Proof.
  intros Ha Hi.
  assert (Hlt : 2 * 2 ^ Z.of_nat a <= 2 ^ Z.of_nat k).
  { rewrite <- pow2_S. apply Z.pow_le_mono_r; lia. }
  rewrite twiddle_square by lia.
  destruct a as [|a'].
  - simpl in Hi. assert (i = 0) as -> by lia.
    change (2 ^ Z.of_nat 0 + 0) with 1. change (1 / 2) with 0.
    change (Z.even 1) with false. cbv iota.
    rewrite (Tf_pow 0) by (pose proof (pow2_pos k); lia).
    rewrite bitrev_0. cbn [block_root]. cong_ring.
  - cbn [block_root]. rewrite pow2_S.
    replace ((2 * 2 ^ Z.of_nat a' + i) / 2) with (2 ^ Z.of_nat a' + i / 2)
      by (rewrite (Z.mul_comm 2), Z.div_add_l; lia).
    replace (Z.even (2 * 2 ^ Z.of_nat a' + i)) with (Z.even i)
      by (rewrite Z.add_comm, Z.even_add_mul_2; reflexivity).
    destruct (Z.even i); cong_ring.
Qed.

(** Every block root at stage [a] is a [2^a]-th root of [-1]. *)
Lemma block_root_pow a : forall i,
  (a <= k)%nat -> 0 <= i < 2 ^ Z.of_nat a ->
  cong q (block_root Tf a i ^ (2 ^ Z.of_nat a)) (-1).
Proof.
  induction a as [|a IH]; intros i Ha Hi.
  - cbn [block_root]. reflexivity.
  - assert (Hhalf : 0 <= i / 2 < 2 ^ Z.of_nat a).
    { rewrite pow2_S in Hi.
      split; [apply Z.div_pos; lia | apply Z.div_lt_upper_bound; lia]. }
    pose proof (pow2_pos a) as Hpa.
    rewrite pow2_S, Z.pow_mul_r by lia.
    assert (Hsq : cong q (block_root Tf (S a) i ^ 2) (block_root Tf a (i / 2))).
    { rewrite <- (twiddle_block_root a (i / 2)) by lia.
      cbn [block_root]. destruct (Z.even i); cong_ring. }
    rewrite (cong_pow q _ _ _ Hsq). apply IH; lia.
Qed.
End ForwardTable.

(** *** Reduction of a polynomial, block by block *)

(** Splitting a block: from the residue modulo [X^(2T) - w] to the residue
    modulo [X^T - s], for [s^2 = w]. *)
Lemma reduce_split q X m T w s r :
  cong q (s ^ 2) w ->
  cong q (reduced_coeff X m (2 * T) w r + reduced_coeff X m (2 * T) w (T + r) * s)
       (reduced_coeff X (2 * m) T s r).
Proof.
  intros Hsq. unfold reduced_coeff.
  rewrite zsum_even_odd, <- zsum_mul_r, <- zsum_add.
  apply zsum_cong. intros u Hu.
  replace (r + 2 * u * T) with (r + u * (2 * T)) by ring.
  replace (r + (2 * u + 1) * T) with (T + r + u * (2 * T)) by ring.
  rewrite (Z.pow_add_r s (2 * u) 1), Z.pow_1_r by lia.
  rewrite (Z.pow_mul_r s 2 u) by lia.
  rewrite (cong_pow q _ _ u Hsq). cong_ring.
Qed.

Lemma nat_pow2 a : Z.of_nat (2 ^ a) = 2 ^ Z.of_nat a.
Proof. rewrite Nat2Z.inj_pow. reflexivity. Qed.

Section Evaluation.
Variables (q : Z) (k : nat) (psi : Z) (Tf : list Z).
Hypothesis q_nz : q <> 0.
Hypothesis Tf_len : len Tf = 2 ^ Z.of_nat k.
Hypothesis Tf_pow : forall x, 0 <= x < 2 ^ Z.of_nat k ->
                              cong q (zth Tf x) (psi ^ bitrev k x).
Hypothesis psi_n : cong q (psi ^ (2 ^ Z.of_nat k)) (-1).

(** Entry [p] of the forward transform of [X] is the value of the
    polynomial [X] at the root [block_root Tf k p] of [X^n + 1]. *)
Lemma speedup_FNTT_evaluates X :
  len X = 2 ^ Z.of_nat k ->
  exists W,
    speedup_FNTT X q Tf = Ok W /\
    len W = 2 ^ Z.of_nat k /\
    forall p, 0 <= p < 2 ^ Z.of_nat k ->
              cong q (zth W p) (poly_eval X (block_root Tf k p)).
Proof.
  intros HX.
  destruct (speedup_FNTT_inv q k Tf
              (fun a Y =>
                 forall i r,
                   0 <= i < 2 ^ Z.of_nat a -> 0 <= r < 2 ^ Z.of_nat (k - a) ->
                   cong q (zth Y (i * 2 ^ Z.of_nat (k - a) + r))
                        (reduced_coeff X (2 ^ a) (2 ^ Z.of_nat (k - a))
                                       (block_root Tf a i) r))
              X q_nz Tf_len)
    as [W [EW [HlW HW]]]; auto.
  - (* one stage *)
    intros a d Y Y' Hk HY HP [Hl Hrel] i' r Hi' Hr.
    replace (k - S a)%nat with d in * by lia.
    replace (k - a)%nat with (S d) in HP by lia.
    pose proof (pow2_pos d) as Hd. pose proof (pow2_pos a) as Ha.
    rewrite pow2_S in Hi'.
    assert (Hi : 0 <= i' / 2 < 2 ^ Z.of_nat a).
    { split; [apply Z.div_pos; lia | apply Z.div_lt_upper_bound; lia]. }
    set (i := i' / 2) in *. set (T := 2 ^ Z.of_nat d) in *.
    pose proof (HP i r Hi ltac:(rewrite pow2_S; fold T; lia)) as Hlo.
    pose proof (HP i (T + r) Hi ltac:(rewrite pow2_S; fold T; lia)) as Hhi.
    rewrite pow2_S in Hlo, Hhi. fold T in Hlo, Hhi.
    replace (i * (2 * T) + r) with (2 * i * T + r) in Hlo by ring.
    replace (i * (2 * T) + (T + r)) with (2 * i * T + T + r) in Hhi by ring.
    destruct (Hrel i r Hi Hr) as [Elo Ehi]. fold T in Elo, Ehi.
    pose proof (twiddle_block_root q k psi Tf Tf_pow psi_n a i ltac:(lia) Hi)
      as Hsq.
    change (2 ^ S a)%nat with (2 * 2 ^ a)%nat.
    pose proof (Z.div_mod i' 2 ltac:(lia)) as Hdm. fold i in Hdm.
    rewrite Zmod_even in Hdm. cbn [block_root]. fold i.
    destruct (Z.even i').
    + replace (i' * T + r) with (2 * i * T + r) by (rewrite Hdm; ring).
      rewrite Elo. unfold ct_lo. rewrite cong_mod, Hlo, Hhi.
      apply reduce_split. exact Hsq.
    + replace (i' * T + r) with (2 * i * T + T + r) by (rewrite Hdm; ring).
      rewrite Ehi. unfold ct_hi. rewrite cong_mod, Hlo, Hhi.
      rewrite <- (reduce_split q X (2 ^ a) T (block_root Tf a i)
                               (- zth Tf (2 ^ Z.of_nat a + i)) r).
      * cong_ring.
      * rewrite <- Hsq. cong_ring.
  - (* the input *)
    intros i r Hi Hr. simpl in Hi. assert (i = 0) as -> by lia.
    unfold reduced_coeff. cbn [Nat.pow Nat.mul Nat.add zsum block_root].
    change (Z.of_nat 0) with 0. rewrite Z.pow_0_r.
    rewrite !Z.mul_0_l, Z.add_0_r, !Z.add_0_l, Z.mul_1_r. reflexivity.
  - (* the output *)
    exists W. split; [exact EW|]. split; [exact HlW|].
    intros p Hp. specialize (HW p 0 Hp).
    rewrite Nat.sub_diag in HW. specialize (HW ltac:(simpl; lia)).
    simpl (2 ^ Z.of_nat 0) in HW.
    replace (p * 1 + 0) with p in HW by ring. rewrite HW.
    unfold reduced_coeff, poly_eval.
    assert (Hlen : List.length X = (2 ^ k)%nat).
    { apply Nat2Z.inj. rewrite nat_pow2. exact HX. }
    rewrite Hlen. apply eq_cong, zsum_ext. intros u Hu.
    f_equal. f_equal. ring.
Qed.
End Evaluation.

(** ** The convolution theorem *)

Lemma negacyclic_conv_len q A B : len (negacyclic_conv q A B) = len A.
Proof.
  unfold negacyclic_conv, len. rewrite length_map, zrange_length.
  unfold len. lia.
Qed.

Lemma negacyclic_conv_zth q A B p :
  0 <= p < len A ->
  zth (negacyclic_conv q A B) p =
  zsum (List.length A) (negacyclic_term A B p) mod q.
Proof.
  intros Hp. unfold zth, negacyclic_conv.
  rewrite nth_indep with (d' := zsum (List.length A) (negacyclic_term A B 0) mod q)
    by (rewrite length_map, zrange_length; unfold len in *; lia).
  rewrite (map_nth (fun k => zsum (List.length A) (negacyclic_term A B k) mod q)
                   (zrange 0 (len A)) 0 (Z.to_nat p)).
  rewrite zrange_nth by (unfold len in *; lia).
  rewrite Z.add_0_l, Z2Nat.id by lia. reflexivity.
Qed.

Lemma negacyclic_conv_residues q A B : 0 < q -> residues q (negacyclic_conv q A B).
Proof.
  intros Hq. unfold residues, negacyclic_conv. apply Forall_forall.
  intros x Hx. apply in_map_iff in Hx. destruct Hx as [p [<- _]].
  apply Z.mod_pos_bound. assumption.
Qed.

(** Row [i] of the product table: [a_i X^i * B(X)] wrapped around
    [X^n = -1]. *)
Lemma conv_row q A B e iN m :
  len A = Z.of_nat (iN + m) ->
  cong q (e ^ Z.of_nat (iN + m)) (-1) ->
  cong q (zsum (iN + m) (fun p => negacyclic_term A B p (Z.of_nat iN) * e ^ p))
       (zth A (Z.of_nat iN) * e ^ Z.of_nat iN
        * zsum (iN + m) (fun j => zth B j * e ^ j)).
Proof.
  intros HA He.
  assert (Hr : zsum (iN + m) (fun j => zth B j * e ^ j) =
               zsum m (fun j => zth B j * e ^ j)
               + zsum iN (fun j => zth B (Z.of_nat m + j) * e ^ (Z.of_nat m + j))).
  { rewrite Nat.add_comm. apply zsum_split. }
  rewrite Hr, zsum_split. clear Hr.
  assert (H1 : cong q
                 (zsum iN (fun p => negacyclic_term A B p (Z.of_nat iN) * e ^ p))
                 (zth A (Z.of_nat iN) * e ^ Z.of_nat iN
                  * zsum iN (fun j => zth B (Z.of_nat m + j)
                                      * e ^ (Z.of_nat m + j)))).
  { rewrite <- zsum_mul_l. apply zsum_cong. intros p Hp.
    unfold negacyclic_term.
    destruct (Z.leb_spec (Z.of_nat iN) p); [lia|].
    rewrite HA.
    replace (Z.of_nat (iN + m) + p - Z.of_nat iN) with (Z.of_nat m + p) by lia.
    transitivity (zth A (Z.of_nat iN) * zth B (Z.of_nat m + p)
                  * (e ^ Z.of_nat (iN + m) * e ^ p)).
    - rewrite He. cong_ring.
    - apply eq_cong. rewrite Nat2Z.inj_add, !Z.pow_add_r by lia. ring. }
  assert (H2 : zsum m (fun j => negacyclic_term A B (Z.of_nat iN + j) (Z.of_nat iN)
                                * e ^ (Z.of_nat iN + j))
               = zth A (Z.of_nat iN) * e ^ Z.of_nat iN
                 * zsum m (fun j => zth B j * e ^ j)).
  { rewrite <- zsum_mul_l. apply zsum_ext. intros j Hj.
    unfold negacyclic_term.
    destruct (Z.leb_spec (Z.of_nat iN) (Z.of_nat iN + j)); [|lia].
    replace (Z.of_nat iN + j - Z.of_nat iN) with j by lia.
    rewrite Z.pow_add_r by lia. ring. }
  rewrite H1, H2. cong_ring.
Qed.

(** At a root [e] of [X^n + 1], the negative-wrapped convolution evaluates
    to the product of the values of its two factors. *)
Lemma conv_eval q A B e :
  len B = len A ->
  cong q (e ^ len A) (-1) ->
  cong q (poly_eval (negacyclic_conv q A B) e) (poly_eval A e * poly_eval B e).
Proof.
  intros HB He. unfold poly_eval.
  assert (Hlc : List.length (negacyclic_conv q A B) = List.length A).
  { pose proof (negacyclic_conv_len q A B). unfold len in *. lia. }
  assert (HlB : List.length B = List.length A) by (unfold len in *; lia).
  rewrite Hlc, HlB. set (n := List.length A).
  transitivity (zsum n (fun p => zsum n (fun i => negacyclic_term A B p i * e ^ p))).
  { apply zsum_cong. intros p Hp.
    rewrite negacyclic_conv_zth by (unfold len; fold n; lia).
    rewrite cong_mod. fold n. now rewrite zsum_mul_r. }
  rewrite zsum_swap.
  transitivity (zsum n (fun i => zth A i * e ^ i
                                 * zsum n (fun j => zth B j * e ^ j))).
  { apply zsum_cong. intros i Hi.
    destruct (Z_of_nat_complete i ltac:(lia)) as [iN ->].
    pose proof (conv_row q A B e iN (n - iN)) as Hrow.
    replace (iN + (n - iN))%nat with n in Hrow by lia.
    apply Hrow; [reflexivity | exact He]. }
  rewrite zsum_mul_r. reflexivity.
Qed.

Lemma pointwise_mul_nth q : forall A B,
  q <> 0 -> List.length A = List.length B ->
  exists C,
    pointwise_mul q A B = Ok C /\
    List.length C = List.length A /\
    forall i, (i < List.length A)%nat ->
              nth i C 0 = (nth i A 0 * nth i B 0) mod q.
Proof.
  induction A as [|x A IH]; intros [|y B] Hq Hl; try discriminate.
  - exists []. repeat split; auto. simpl. intros; lia.
  - cbn [pointwise_mul]. rewrite py_mod_ok by assumption. cbn [bind].
    destruct (IH B Hq ltac:(simpl in Hl; lia)) as [C [EC [HlC HC]]].
    rewrite EC. cbn [bind]. eexists; split; [reflexivity|].
    split; [simpl; lia|].
    intros [|i] Hi; [reflexivity|]. cbn [nth]. apply HC. simpl in Hi. lia.
Qed.

Lemma pointwise_mul_zth q A B :
  q <> 0 -> len A = len B ->
  exists C,
    pointwise_mul q A B = Ok C /\
    len C = len A /\
    forall p, 0 <= p < len A -> zth C p = (zth A p * zth B p) mod q.
Proof.
  intros Hq Hl.
  destruct (pointwise_mul_nth q A B Hq ltac:(unfold len in Hl; lia))
    as [C [EC [HlC HC]]].
  exists C. split; [exact EC|]. split; [unfold len; lia|].
  intros p Hp. unfold zth. apply HC. unfold len in Hp. lia.
Qed.

Lemma primitive_root_half q n psi :
  Z.prime q -> 0 < n -> primitive_root n q psi -> cong q (psi ^ n) (-1).
Proof.
  intros Hp Hn [H1 H2].
  pose proof (Z.prime_ge_2 q Hp) as Hq.
  assert (Hdiv : (q | (psi ^ n - 1) * (psi ^ n + 1))).
  { apply Z.mod_divide; [lia|].
    replace ((psi ^ n - 1) * (psi ^ n + 1)) with (psi ^ (2 * n) - 1).
    - rewrite Zminus_mod, H1, Z.mod_1_l by lia. reflexivity.
    - rewrite Z.mul_comm, Z.pow_mul_r, Z.pow_2_r by lia. ring. }
  apply (Z.divide_prime_mul _ _ _ Hp) in Hdiv.
  destruct Hdiv as [[c Hc]|[c Hc]].
  - exfalso. apply (H2 n ltac:(lia)).
    replace (psi ^ n) with (1 + c * q) by lia.
    rewrite Z.mod_add by lia. apply Z.mod_1_l. lia.
  - unfold cong. replace (psi ^ n) with (-1 + c * q) by lia.
    now rewrite Z.mod_add by lia.
Qed.

Lemma primitive_root_by_trial n q psi :
  psi ^ (2 * n) mod q = 1 ->
  forallb (fun j => negb (psi ^ j mod q =? 1)) (zrange 1 (2 * n)) = true ->
  primitive_root n q psi.
Proof.
  intros H1 Hall. split; [assumption|].
  intros j Hj E. rewrite forallb_forall in Hall.
  specialize (Hall j). rewrite In_zrange in Hall.
  specialize (Hall ltac:(lia)). rewrite E in Hall. discriminate.
Qed.

(** C2: for [n = 2^k], a prime [q = 1 (mod 2n)], a primitive [2n]-th root
    of unity [psi] and two lists [A], [B] of [n] residues, the caller's
    pipeline (tables from [psi] and its inverse, forward transform of [A]
    and of [B], pointwise product modulo [q], inverse transform) returns the
    negative-wrapped convolution of [A] and [B], computed directly. *)
Theorem ntt_convolution k q psi A B :
  Z.prime q ->
  q mod (2 * 2 ^ Z.of_nat k) = 1 ->
  primitive_root (2 ^ Z.of_nat k) q psi ->
  len A = 2 ^ Z.of_nat k -> len B = 2 ^ Z.of_nat k ->
  residues q A -> residues q B ->
  usage (2 ^ Z.of_nat k) q psi A B = Ok (negacyclic_conv q A B).
Proof.
  intros Hp Hmod Hroot HA HB HrA HrB.
  pose proof (Z.prime_ge_2 q Hp) as Hq.
  pose proof (pow2_pos k) as Hn.
  pose proof (primitive_root_coprime _ _ _ Hn Hroot) as Hg.
  pose proof (primitive_root_half q _ psi Hp Hn Hroot) as Hhalf.
  destruct (psi_tables_spec q k psi ltac:(lia) Hg)
    as [Tf [Ti [psi_inv [ET [HTf [HTi [Hinv HT]]]]]]].
  assert (HTpow : forall x, 0 <= x < 2 ^ Z.of_nat k ->
                            cong q (zth Tf x) (psi ^ bitrev k x))
    by (intros x Hx; apply HT; assumption).
  set (C := negacyclic_conv q A B).
  assert (HC : len C = 2 ^ Z.of_nat k)
    by (unfold C; rewrite negacyclic_conv_len; assumption).
  assert (HrC : residues q C) by (apply negacyclic_conv_residues; lia).
  destruct (speedup_FNTT_evaluates q k psi Tf ltac:(lia) HTf HTpow Hhalf A HA)
    as [FA [EFA [HlFA HFA]]].
  destruct (speedup_FNTT_evaluates q k psi Tf ltac:(lia) HTf HTpow Hhalf B HB)
    as [FB [EFB [HlFB HFB]]].
  destruct (speedup_FNTT_evaluates q k psi Tf ltac:(lia) HTf HTpow Hhalf C HC)
    as [FC [EFC [HlFC HFC]]].
  destruct (pointwise_mul_zth q FA FB ltac:(lia) ltac:(lia))
    as [AB [EAB [HlAB HAB]]].
  destruct (roundtrip_core q k Tf Ti C ltac:(lia) HTf HTi
                           (tables_inverse q k psi psi_inv Tf Ti Hinv HT)
                           (coprime_of_mod_one _ _ Hmod) HC HrC)
    as [W [EW [_ [_ EI]]]].
  assert (W = FC) by congruence. subst W.
  assert (EAB' : AB = FC).
  { apply zth_ext; [lia|]. intros p Hp'. rewrite HAB by lia.
    apply (cong_small q).
    - apply Z.mod_pos_bound. lia.
    - apply (speedup_FNTT_residues q k Tf C FC); auto; lia.
    - rewrite cong_mod, HFA, HFB, HFC by lia. symmetry.
      apply conv_eval; [lia|]. rewrite HA.
      apply (block_root_pow q k psi Tf HTpow Hhalf k p); [lia | lia]. }
  unfold usage. rewrite ET. cbn [bind]. unfold ntt_multiply.
  rewrite EFA. cbn [bind]. rewrite EFB. cbn [bind]. rewrite EAB. cbn [bind].
  rewrite EAB'. exact EI.
Qed.

Lemma prime_97 : Z.prime 97.
Proof. apply prime_by_trial; [lia | vm_compute; reflexivity]. Qed.

(** The sizes 4, 8 and 16, with the primes 17, 17 and 97. *)
Lemma ntt_convolution_witness :
  usage (2 ^ Z.of_nat 2) 17 2 [1; 2; 3; 4] [5; 6; 7; 8]
  = Ok (negacyclic_conv 17 [1; 2; 3; 4] [5; 6; 7; 8]) /\
  usage (2 ^ Z.of_nat 3) 17 3 [1; 2; 3; 4; 5; 6; 7; 8] [1; 2; 3; 4; 5; 6; 7; 8]
  = Ok (negacyclic_conv 17 [1; 2; 3; 4; 5; 6; 7; 8] [1; 2; 3; 4; 5; 6; 7; 8]) /\
  usage (2 ^ Z.of_nat 4) 97 28
        [1; 2; 3; 4; 5; 6; 7; 8; 9; 10; 11; 12; 13; 14; 15; 16]
        [96; 0; 1; 50; 3; 7; 0; 2; 95; 43; 1; 1; 0; 8; 60; 9]
  = Ok (negacyclic_conv 97
          [1; 2; 3; 4; 5; 6; 7; 8; 9; 10; 11; 12; 13; 14; 15; 16]
          [96; 0; 1; 50; 3; 7; 0; 2; 95; 43; 1; 1; 0; 8; 60; 9]).
Proof.
  split; [|split].
  - apply (ntt_convolution 2 17 2).
    + exact prime_17.
    + vm_compute; reflexivity.
    + apply primitive_root_by_trial; vm_compute; reflexivity.
    + reflexivity.
    + reflexivity.
    + repeat constructor; lia.
    + repeat constructor; lia.
  - apply (ntt_convolution 3 17 3).
    + exact prime_17.
    + vm_compute; reflexivity.
    + exact primitive_root_17_3.
    + reflexivity.
    + reflexivity.
    + repeat constructor; lia.
    + repeat constructor; lia.
  - apply (ntt_convolution 4 97 28).
    + exact prime_97.
    + vm_compute; reflexivity.
    + apply primitive_root_by_trial; vm_compute; reflexivity.
    + reflexivity.
    + reflexivity.
    + repeat constructor; lia.
    + repeat constructor; lia.
Defined.

(** ** The transforms over the store *)

Lemma deref_fresh (h0 : heap) L : deref (h0 ++ [L]) (List.length h0) = L.
Proof. unfold deref. now rewrite nth_middle. Qed.

Lemma deref_old (h0 : heap) L l :
  (l < List.length h0)%nat -> deref (h0 ++ [L]) l = deref h0 l.
Proof. intros H. unfold deref. now rewrite app_nth1. Qed.

Lemma update_fresh (h0 : heap) L L' :
  list_update (h0 ++ [L]) (List.length h0) L' = h0 ++ [L'].
Proof. induction h0 as [|x h0 IH]; simpl; [reflexivity | now rewrite IH]. Qed.

Lemma for_each_sim {X P S} (split : P -> list Z * S) h0
      (body : X -> P -> result P) (body_h : X -> S -> hm S) xs :
  (forall x p, sim split h0 (body x p)
                   (body_h x (snd (split p)) (h0 ++ [fst (split p)]))) ->
  forall p, sim split h0 (for_each xs body p)
                (for_each_h xs body_h (snd (split p)) (h0 ++ [fst (split p)])).
Proof.
  intros Hbody. induction xs as [|x xs IH]; intros p; cbn [for_each for_each_h].
  - reflexivity.
  - unfold hbind. specialize (Hbody x p).
    destruct (body x p) as [p'|e|]; cbn [bind sim] in *.
    + rewrite Hbody. apply IH.
    + destruct Hbody as [E [L EL]].
      destruct (body_h x (snd (split p)) (h0 ++ [fst (split p)])) as [r hh].
      cbn [fst snd] in *. subst. cbn [fst snd]. eauto.
    + destruct Hbody as [E [L EL]].
      destruct (body_h x (snd (split p)) (h0 ++ [fst (split p)])) as [r hh].
      cbn [fst snd] in *. subst. cbn [fst snd]. eauto.
Qed.

Ltac sim_steps :=
  repeat (cbn [bind fst snd sim only_list list_and_var];
          rewrite ?deref_fresh, ?update_fresh;
          match goal with
          | |- context [match ?c with Ok _ => _ | Raise _ => _ | Diverge => _ end] =>
              lazymatch c with
              | py_getitem _ _ => destruct c
              | py_setitem _ _ _ => destruct c
              | py_mod _ _ => destruct c
              | py_pow3 _ _ _ => destruct c
              end
          end);
  cbn [bind fst snd sim only_list list_and_var];
  rewrite ?deref_fresh, ?update_fresh;
  try reflexivity; try (split; [reflexivity | eexists; reflexivity]).

Lemma ct_butterfly_sim h0 q t S j L :
  sim only_list h0 (ct_butterfly q t S j L)
      (ct_butterfly_h q t S (List.length h0) j tt (h0 ++ [L])).
Proof.
  unfold ct_butterfly, ct_butterfly_h, hbind, h_getitem, hlift, h_setitem.
  sim_steps.
Qed.

Lemma gs_butterfly_sim h0 q t S j L :
  sim only_list h0 (gs_butterfly q t S j L)
      (gs_butterfly_h q t S (List.length h0) j tt (h0 ++ [L])).
Proof.
  unfold gs_butterfly, gs_butterfly_h, hbind, h_getitem, hlift, h_setitem.
  sim_steps.
Qed.

Lemma scale_step_sim h0 q n_inv j L :
  sim only_list h0 (scale_step q n_inv j L)
      (scale_step_h q n_inv (List.length h0) j tt (h0 ++ [L])).
Proof.
  unfold scale_step, scale_step_h, hbind, h_getitem, hlift, h_setitem.
  sim_steps.
Qed.

Section StoreSimulation.
Variables (h0 : heap) (q : Z) (tbl : loc).
Hypothesis tbl_old : (tbl < List.length h0)%nat.

Lemma for_range_sim_list lo hi (body : Z -> list Z -> result (list Z))
      (body_h : Z -> unit -> hm unit) L :
  (forall x L', sim only_list h0 (body x L') (body_h x tt (h0 ++ [L']))) ->
  sim only_list h0 (for_range lo hi body L) (for_range_h lo hi body_h tt (h0 ++ [L])).
Proof.
  intros Hbody. unfold for_range, for_range_h.
  apply (for_each_sim only_list h0 body body_h (zrange lo hi)
                      (fun x p => Hbody x p) L).
Qed.

Lemma fntt_group_sim t m i L :
  sim only_list h0 (fntt_group q t m (deref h0 tbl) i L)
      (fntt_group_h q t m tbl (List.length h0) i tt (h0 ++ [L])).
Proof.
  unfold fntt_group, fntt_group_h, hbind, h_getitem.
  rewrite deref_old by assumption.
  destruct (py_getitem (deref h0 tbl) (m + i)) as [S|e|]; cbn [bind sim fst snd];
    try (split; [reflexivity | eexists; reflexivity]).
  apply for_range_sim_list. intros x L'. apply ct_butterfly_sim.
Qed.

Lemma fntt_while_sim n fuel : forall m t L,
  sim only_list h0 (fntt_while fuel q n (deref h0 tbl) m t L)
      (fntt_while_h fuel q n tbl m t (List.length h0) (h0 ++ [L])).
Proof.
  induction fuel as [|fuel IH]; intros m t L; cbn [fntt_while fntt_while_h];
    destruct (m <? n); try reflexivity.
  - cbn [sim]. unfold hlift. split; [reflexivity | eexists; reflexivity].
  - unfold hbind.
    pose proof (for_range_sim_list 0 m
                  (fntt_group q (Z.shiftr t 1) m (deref h0 tbl))
                  (fntt_group_h q (Z.shiftr t 1) m tbl (List.length h0)) L
                  (fun x L' => fntt_group_sim (Z.shiftr t 1) m x L')) as Hs.
    destruct (for_range 0 m (fntt_group q (Z.shiftr t 1) m (deref h0 tbl)) L)
      as [L'|e|]; cbn [bind sim only_list fst snd] in *.
    + rewrite Hs. apply IH.
    + destruct Hs as [E [L1 EL]].
      destruct (for_range_h _ _ _ _ _) as [r hh]. cbn [fst snd] in *. subst.
      cbn [fst snd]. eauto.
    + destruct Hs as [E [L1 EL]].
      destruct (for_range_h _ _ _ _ _) as [r hh]. cbn [fst snd] in *. subst.
      cbn [fst snd]. eauto.
Qed.

Lemma intt_group_sim t h i (p : list Z * Z) :
  sim list_and_var h0 (intt_group q t h (deref h0 tbl) i p)
      (intt_group_h q t h tbl (List.length h0) i (snd p) (h0 ++ [fst p])).
Proof.
  destruct p as [L j_1]. cbn [fst snd].
  unfold intt_group, intt_group_h, hbind, h_getitem.
  rewrite deref_old by assumption.
  destruct (py_getitem (deref h0 tbl) (h + i)) as [S|e|]; cbn [bind sim fst snd];
    try (split; [reflexivity | eexists; reflexivity]).
  pose proof (for_range_sim_list j_1 (j_1 + t - 1 + 1)
                (gs_butterfly q t S) (gs_butterfly_h q t S (List.length h0)) L
                (fun x L' => gs_butterfly_sim h0 q t S x L')) as Hs.
  destruct (for_range j_1 (j_1 + t - 1 + 1) (gs_butterfly q t S) L)
    as [L'|e|]; cbn [bind sim only_list list_and_var fst snd] in *.
  - rewrite Hs. reflexivity.
  - destruct Hs as [E [L1 EL]].
    destruct (for_range_h _ _ _ _ _) as [r hh]. cbn [fst snd] in *. subst.
    cbn [fst snd]. eauto.
  - destruct Hs as [E [L1 EL]].
    destruct (for_range_h _ _ _ _ _) as [r hh]. cbn [fst snd] in *. subst.
    cbn [fst snd]. eauto.
Qed.

Lemma intt_while_sim fuel : forall t m L,
  sim only_list h0 (intt_while fuel q (deref h0 tbl) t m L)
      (intt_while_h fuel q tbl t m (List.length h0) (h0 ++ [L])).
Proof.
  induction fuel as [|fuel IH]; intros t m L; cbn [intt_while intt_while_h];
    destruct (m >? 1); try reflexivity.
  - cbn [sim]. unfold hlift. split; [reflexivity | eexists; reflexivity].
  - unfold hbind, for_range, for_range_h.
    pose proof (for_each_sim list_and_var h0
                  (intt_group q t (Z.shiftr m 1) (deref h0 tbl))
                  (intt_group_h q t (Z.shiftr m 1) tbl (List.length h0))
                  (zrange 0 (Z.shiftr m 1))
                  (fun x p => intt_group_sim t (Z.shiftr m 1) x p) (L, 0)) as Hs.
    cbn [list_and_var fst snd] in Hs.
    destruct (for_each (zrange 0 (Z.shiftr m 1))
                       (intt_group q t (Z.shiftr m 1) (deref h0 tbl)) (L, 0))
      as [[L' j']|e|]; cbn [bind sim only_list list_and_var fst snd] in *.
    + rewrite Hs. apply IH.
    + destruct Hs as [E [L1 EL]].
      destruct (for_each_h _ _ _ _) as [r hh]. cbn [fst snd] in *. subst.
      cbn [fst snd]. eauto.
    + destruct Hs as [E [L1 EL]].
      destruct (for_each_h _ _ _ _) as [r hh]. cbn [fst snd] in *. subst.
      cbn [fst snd]. eauto.
Qed.
End StoreSimulation.

Lemma speedup_FNTT_h_fresh h a tbl q :
  (tbl < List.length h)%nat ->
  returns_fresh h (speedup_FNTT (deref h a) q (deref h tbl))
                (speedup_FNTT_h a q tbl h).
Proof.
  intros Htbl.
  unfold speedup_FNTT_h, speedup_FNTT, hbind, h_len, h_copy, hret, returns_fresh.
  replace (Z.to_nat (len (deref h a))) with (List.length (deref h a))
    by (unfold len; lia).
  pose proof (fntt_while_sim h q tbl Htbl (len (deref h a))
                             (List.length (deref h a)) 1 (len (deref h a))
                             (deref h a)) as Hs.
  destruct (fntt_while _ _ _ _ _ _ _) as [F|e|];
    cbn [sim only_list fst snd] in Hs.
  - rewrite Hs. cbn [fst snd]. eauto.
  - destruct Hs as [E [L EL]].
    destruct (fntt_while_h _ _ _ _ _ _ _ _) as [r hh]. cbn [fst snd] in *.
    subst. exists L. cbn [fst snd]. auto.
  - destruct Hs as [E [L EL]].
    destruct (fntt_while_h _ _ _ _ _ _ _ _) as [r hh]. cbn [fst snd] in *.
    subst. exists L. cbn [fst snd]. auto.
Qed.

Lemma speedup_INTT_h_fresh h a tbl q :
  (tbl < List.length h)%nat ->
  returns_fresh h (speedup_INTT (deref h a) q (deref h tbl))
                (speedup_INTT_h a q tbl h).
Proof.
  intros Htbl.
  unfold speedup_INTT_h, speedup_INTT, hbind, h_len, h_copy, hret, hlift,
    returns_fresh.
  replace (Z.to_nat (len (deref h a))) with (List.length (deref h a))
    by (unfold len; lia).
  pose proof (intt_while_sim h q tbl Htbl (List.length (deref h a)) 1
                             (len (deref h a)) (deref h a)) as Hs.
  destruct (intt_while _ _ _ _ _ _) as [V|e|];
    cbn [sim only_list fst snd bind] in *.
  - rewrite Hs.
    destruct (py_pow3 (len (deref h a)) (-1) q) as [n_inv|e|]; cbn [bind];
      try (eexists; split; reflexivity).
    pose proof (for_range_sim_list h 0 (len (deref h a))
                  (scale_step q n_inv) (scale_step_h q n_inv (List.length h)) V
                  (fun x L' => scale_step_sim h q n_inv x L')) as Hs'.
    destruct (for_range 0 (len (deref h a)) (scale_step q n_inv) V) as [F|e|];
      cbn [sim only_list fst snd] in Hs'.
    + rewrite Hs'. cbn [fst snd]. eauto.
    + destruct Hs' as [E [L EL]].
      destruct (for_range_h _ _ _ _ _) as [r hh]. cbn [fst snd] in *.
      subst. exists L. cbn [fst snd]. auto.
    + destruct Hs' as [E [L EL]].
      destruct (for_range_h _ _ _ _ _) as [r hh]. cbn [fst snd] in *.
      subst. exists L. cbn [fst snd]. auto.
  - destruct Hs as [E [L EL]].
    destruct (intt_while_h _ _ _ _ _ _ _) as [r hh]. cbn [fst snd] in *.
    subst. exists L. cbn [fst snd]. auto.
  - destruct Hs as [E [L EL]].
    destruct (intt_while_h _ _ _ _ _ _ _) as [r hh]. cbn [fst snd] in *.
    subst. exists L. cbn [fst snd]. auto.
Qed.

Lemma returns_fresh_frame h pure run l :
  returns_fresh h pure run -> (l < List.length h)%nat ->
  deref (snd run) l = deref h l.
Proof.
  intros [L [E _]] Hl. rewrite E. now apply deref_old.
Qed.

(** C9: called on a store [h] with the reference [a] of the input and the
    reference [tbl] of the table, each transform leaves every list object
    of [h] as it was, the input among them, whether it returns or raises;
    what it returns is the reference of a list object that did not exist
    before the call, and that object holds the transform of the input. *)
Theorem transforms_keep_input h a tbl q :
  (a < List.length h)%nat -> (tbl < List.length h)%nat ->
  (returns_fresh h (speedup_FNTT (deref h a) q (deref h tbl))
                 (speedup_FNTT_h a q tbl h) /\
   deref (snd (speedup_FNTT_h a q tbl h)) a = deref h a) /\
  (returns_fresh h (speedup_INTT (deref h a) q (deref h tbl))
                 (speedup_INTT_h a q tbl h) /\
   deref (snd (speedup_INTT_h a q tbl h)) a = deref h a).
Proof.
  intros Ha Htbl.
  pose proof (speedup_FNTT_h_fresh h a tbl q Htbl) as HF.
  pose proof (speedup_INTT_h_fresh h a tbl q Htbl) as HI.
  split; (split; [assumption|]).
  - exact (returns_fresh_frame _ _ _ a HF Ha).
  - exact (returns_fresh_frame _ _ _ a HI Ha).
Qed.

Lemma transforms_keep_input_witness :
  deref (snd (speedup_FNTT_h 0%nat 17 1%nat
                [[1; 2; 3; 4; 5; 6; 7; 8]; [1; 13; 9; 15; 3; 5; 10; 11]]))
        0%nat
  = [1; 2; 3; 4; 5; 6; 7; 8] /\
  deref (snd (speedup_INTT_h 0%nat 17 1%nat
                [[1; 2; 3; 4; 5; 6; 7; 8]; [1; 13; 9; 15; 3; 5; 10; 11]]))
        0%nat
  = [1; 2; 3; 4; 5; 6; 7; 8].
Proof.
  destruct (transforms_keep_input
              [[1; 2; 3; 4; 5; 6; 7; 8]; [1; 13; 9; 15; 3; 5; 10; 11]]
              0%nat 1%nat 17) as [[_ H1] [_ H2]]; [simpl; lia | simpl; lia |].
  split; [exact H1 | exact H2].
Defined.

(** * Further properties of the code *)

(** ** [bit_reverse_order] beyond the contract *)

Lemma nth_error_eq_ext {A} (l l' : list A) :
  List.length l = List.length l' ->
  (forall j, (j < List.length l)%nat -> nth_error l j = nth_error l' j) ->
  l = l'.
Proof.
  revert l'; induction l as [|x l IH]; intros [|y l'] Hl H; try discriminate;
    [reflexivity|].
  pose proof (H O ltac:(simpl; lia)) as H0. simpl in H0. injection H0 as ->.
  f_equal. apply IH; [simpl in Hl; lia|].
  intros j Hj. apply (H (S j)). simpl. lia.
Qed.

(** On a power-of-two length the permutation is its own inverse. *)
Theorem bit_reverse_order_involutive {A} (zero : A) (a : list A) (k : nat) :
  len a = 2 ^ Z.of_nat k ->
  exists b, bit_reverse_order zero a = Ok b /\ bit_reverse_order zero b = Ok a.
Proof.
  intros Hlen.
  destruct (bit_reverse_order_pow2 zero a k Hlen) as [b [Eb [Hl Hb]]].
  assert (Hlenb : len b = 2 ^ Z.of_nat k) by (unfold len in *; lia).
  destruct (bit_reverse_order_pow2 zero b k Hlenb) as [c [Ec [Hlc Hc]]].
  exists b. split; [exact Eb|]. rewrite Ec. f_equal.
  apply nth_error_eq_ext; [lia|].
  intros j Hj.
  assert (Hjz : 0 <= Z.of_nat j < 2 ^ Z.of_nat k) by (unfold len in *; lia).
  pose proof (bitrev_range k (Z.of_nat j)) as Rj.
  specialize (Hc (bitrev k (Z.of_nat j)) ltac:(lia)).
  specialize (Hb (Z.of_nat j) ltac:(lia)).
  rewrite bitrev_involutive, Nat2Z.id in Hc by assumption.
  rewrite Nat2Z.id in Hb. congruence.
Qed.

Lemma bit_reverse_order_involutive_witness :
  exists b,
    bit_reverse_order 0 [1; 2; 3; 4] = Ok b /\
    bit_reverse_order 0 b = Ok [1; 2; 3; 4].
Proof. apply (bit_reverse_order_involutive 0 [1; 2; 3; 4] 2). reflexivity. Defined.

(** The width line 190 derives from any positive length. *)
Lemma num_bits_any L :
  1 <= L -> 1 <= len (bin (L - 1)) - 2 /\ L <= 2 ^ (len (bin (L - 1)) - 2).
Proof.
  intros HL. destruct (L - 1) as [|p|p] eqn:E; try lia.
  - assert (L = 1) as -> by lia. cbn. lia.
  - unfold len. cbn [bin List.length]. rewrite bin_digits_length.
    replace (Z.of_nat (S (S (Pos.to_nat (Pos.size p)))) - 2)
      with (Zpos (Pos.size p)) by lia.
    split; [lia|].
    pose proof (Pos.size_gt p) as Hs.
    assert (Zpos p < 2 ^ Zpos (Pos.size p)).
    { change 2 with (Zpos 2). rewrite <- Pos2Z.inj_pow. lia. }
    lia.
Qed.

Lemma for_each_good_or_raise {X S} (good : X -> bool) (P : S -> Prop) e
      (body : X -> S -> result S) xs :
  (forall x s, In x xs -> P s ->
               if good x then exists s', body x s = Ok s' /\ P s'
               else body x s = Raise e) ->
  forall s, P s ->
            if forallb good xs then exists s', for_each xs body s = Ok s' /\ P s'
            else for_each xs body s = Raise e.
Proof.
  induction xs as [|x xs IH]; intros Hbody s Hs; cbn [forallb for_each].
  - eauto.
  - pose proof (Hbody x s (or_introl eq_refl) Hs) as Hx.
    destruct (good x); cbn [andb].
    + destruct Hx as [s' [E Hs']]. rewrite E. cbn [bind].
      apply IH; [|assumption]. intros y s0 Hy. apply Hbody. now right.
    + rewrite Hx. reflexivity.
Qed.

Section BitReverseAnyLength.
Context {A : Type} (zero : A).

(** One step of the loop, on a result list of the right length. *)
Lemma bit_reverse_step_cases (a res : list A) nb i :
  (1 <= nb)%nat -> len a <= 2 ^ Z.of_nat nb -> 0 <= i < len a ->
  List.length res = List.length a ->
  exists x, nth_error a (Z.to_nat i) = Some x /\
    bit_reverse_step a (Z.of_nat nb) i res =
    if bitrev nb i <? len a
    then Ok (list_update res (Z.to_nat (bitrev nb i)) x)
    else Raise IndexError.
Proof.
  intros Hnb Hle Hi Hl. unfold bit_reverse_step.
  rewrite rev_index_of_bitrev by lia. cbn [bind].
  destruct (py_getitem_nth_error a i Hi) as [x [Ex Hx]].
  exists x. split; [exact Hx|]. rewrite Ex. cbn [bind].
  pose proof (bitrev_range nb i) as R.
  destruct (Z.ltb_spec (bitrev nb i) (len a)).
  - apply py_setitem_in. unfold len in *. lia.
  - unfold py_setitem. rewrite py_norm_index_high; [reflexivity|].
    unfold len in *. lia.
Qed.

(** On any non-empty list: the call returns exactly when every index
    reverses, over the [bit_length(len - 1)] bits of line 190, to an index
    in range, and then [b[rev(i)] = a[i]]; otherwise it raises
    [IndexError].  It raises nothing else. *)
Theorem bit_reverse_order_any_length (a : list A) :
  a <> [] ->
  ((forall i, 0 <= i < len a ->
              bitrev (Z.to_nat (len (bin (len a - 1)) - 2)) i < len a) ->
   exists b,
     bit_reverse_order zero a = Ok b /\
     List.length b = List.length a /\
     forall i, 0 <= i < len a ->
       nth_error b (Z.to_nat (bitrev (Z.to_nat (len (bin (len a - 1)) - 2)) i))
       = nth_error a (Z.to_nat i)) /\
  ((exists i, 0 <= i < len a /\
              len a <= bitrev (Z.to_nat (len (bin (len a - 1)) - 2)) i) ->
   bit_reverse_order zero a = Raise IndexError).
Proof.
  intros Hne.
  assert (HL : 1 <= len a).
  { destruct a; [contradiction | unfold len; simpl; lia]. }
  destruct (num_bits_any (len a) HL) as [Hnb Hpow].
  set (nbz := len (bin (len a - 1)) - 2) in *.
  set (nb := Z.to_nat nbz).
  assert (Hnbz : nbz = Z.of_nat nb) by (unfold nb; lia).
  assert (Hnb1 : (1 <= nb)%nat) by (unfold nb; lia).
  assert (Hpow' : len a <= 2 ^ Z.of_nat nb) by (rewrite <- Hnbz; exact Hpow).
  unfold bit_reverse_order. fold nbz. rewrite Hnbz. split.
  - intros Hgood.
    destruct (for_range_inv
                (fun c res =>
                   List.length res = List.length a /\
                   forall i, 0 <= i < c ->
                             nth_error res (Z.to_nat (bitrev nb i))
                             = nth_error a (Z.to_nat i))
                0 (len a) (bit_reverse_step a (Z.of_nat nb))
                (repeat zero (List.length a)))
      as [b [Eb [Hb1 Hb2]]].
    + lia.
    + split; [apply repeat_length | intros; lia].
    + intros c res Hc [Hl Hi].
      destruct (bit_reverse_step_cases a res nb c Hnb1 Hpow' Hc Hl)
        as [x [Hx Estep]].
      rewrite Estep. specialize (Hgood c Hc).
      destruct (Z.ltb_spec (bitrev nb c) (len a)); [|lia].
      eexists; split; [reflexivity|]. split; [now rewrite list_update_length|].
      pose proof (bitrev_range nb c) as Rc.
      intros i Hi'. rewrite nth_error_list_update by (unfold len in *; lia).
      destruct (Nat.eqb_spec (Z.to_nat (bitrev nb i)) (Z.to_nat (bitrev nb c)))
        as [E|N].
      * pose proof (bitrev_range nb i).
        assert (i = c) as -> by (apply (bitrev_inj nb); lia).
        symmetry; exact Hx.
      * apply Hi. assert (i <> c) by (intros ->; contradiction). lia.
    + exists b. split; [exact Eb|]. split; [exact Hb1|].
      intros i Hi. apply Hb2. lia.
  - intros [i0 [Hi0 Hbad]].
    pose proof (for_each_good_or_raise
                  (fun i => bitrev nb i <? len a)
                  (fun res : list A => List.length res = List.length a)
                  IndexError (bit_reverse_step a (Z.of_nat nb))
                  (zrange 0 (len a))) as H.
    assert (Hall : forallb (fun i => bitrev nb i <? len a) (zrange 0 (len a))
                   = false).
    { destruct (forallb _ _) eqn:E; [|reflexivity].
      rewrite forallb_forall in E.
      specialize (E i0 ltac:(apply In_zrange; lia)).
      apply Z.ltb_lt in E. lia. }
    rewrite Hall in H. unfold for_range. apply H.
    + intros i res Hin Hl. apply In_zrange in Hin.
      destruct (bit_reverse_step_cases a res nb i Hnb1 Hpow' Hin Hl)
        as [x [Hx Estep]].
      rewrite Estep.
      destruct (bitrev nb i <? len a); [|reflexivity].
      eexists; split; [reflexivity|]. now rewrite list_update_length.
    + apply repeat_length.
Qed.
End BitReverseAnyLength.

Lemma bit_reverse_order_any_length_witness :
  (exists b,
      bit_reverse_order 0 [1; 2; 3; 4; 5; 6; 8] = Ok b /\
      List.length b = 7%nat /\
      nth_error b (Z.to_nat (bitrev 3 3)) = nth_error [1; 2; 3; 4; 5; 6; 8] 3) /\
  bit_reverse_order 0 [1; 2; 3; 4; 5] = Raise IndexError.
Proof.
  split.
  - destruct (bit_reverse_order_any_length 0 [1; 2; 3; 4; 5; 6; 8])
      as [H _]; [discriminate|].
    destruct H as [b [Eb [Hl Hb]]].
    + intros i Hi. change (len [1; 2; 3; 4; 5; 6; 8]) with 7 in *.
      assert (In i (zrange 0 7)) as Hin by (apply In_zrange; lia).
      revert Hin. generalize i. apply Forall_forall.
      repeat constructor.
    + exists b. split; [exact Eb|]. split; [exact Hl|].
      apply (Hb 3). unfold len; simpl; lia.
  - destruct (bit_reverse_order_any_length 0 [1; 2; 3; 4; 5]) as [_ H];
      [discriminate|].
    apply H. exists 3. vm_compute. repeat split; discriminate.
Defined.

(** ** The mask and the draws of [secure_next_int] *)

Lemma zrange_snoc lo hi : lo <= hi -> zrange lo (hi + 1) = zrange lo hi ++ [hi].
Proof.
  intros H. unfold zrange.
  replace (Z.to_nat (hi + 1 - lo)) with (Z.to_nat (hi - lo) + 1)%nat by lia.
  rewrite seq_app, map_app. cbn [seq map]. do 2 f_equal. lia.
Qed.

(** After the shifts by [1, 2, ..., 2^(i-1)], bit [j] of the mask is set
    exactly when one of the [2^i] bits of the span from [j] upwards is. *)
Lemma mask_window span i :
  0 <= i ->
  forall j, 0 <= j ->
    Z.testbit (fold_left (fun mask s => Z.lor mask (Z.shiftr mask (2 ^ s)))
                         (zrange 0 i) span) j = true <->
    exists d, 0 <= d < 2 ^ i /\ Z.testbit span (j + d) = true.
Proof.
  intros Hi. pattern i. apply natlike_ind; [| |assumption]; clear i Hi.
  - intros j Hj. cbn [zrange Z.to_nat seq map fold_left]. split.
    + intros H. exists 0. rewrite Z.add_0_r. split; [simpl; lia | assumption].
    + intros [d [Hd H]]. simpl in Hd. assert (d = 0) as -> by lia.
      now rewrite Z.add_0_r in H.
  - intros i Hi IH j Hj. unfold Z.succ.
    rewrite zrange_snoc, fold_left_app by lia. cbn [fold_left].
    rewrite Z.lor_spec, Z.shiftr_spec, orb_true_iff by lia.
    assert (Hp : 0 < 2 ^ i) by (apply Z.pow_pos_nonneg; lia).
    rewrite (IH j Hj), (IH (j + 2 ^ i)) by lia.
    rewrite Z.pow_add_r, Z.pow_1_r by lia. split.
    + intros [[d [Hd H]]|[d [Hd H]]].
      * exists d. split; [lia | assumption].
      * exists (2 ^ i + d). split; [lia|]. now rewrite Z.add_assoc.
    + intros [d [Hd H]]. destruct (Z.lt_ge_cases d (2 ^ i)).
      * left. exists d. split; [lia | assumption].
      * right. exists (d - 2 ^ i). split; [lia|].
        now replace (j + 2 ^ i + (d - 2 ^ i)) with (j + d) by lia.
Qed.

(** When the loop runs often enough for the span, that is when
    [bit_length(span) <= 2^iter], the mask is the saturated one. *)
Theorem range_mask_saturated span :
  1 <= span ->
  bit_length span <= 2 ^ mask_iter span ->
  range_mask span = 2 ^ bit_length span - 1.
Proof.
  intros Hs Hw.
  assert (Hbl : bit_length span = Z.log2 span + 1).
  { unfold bit_length. destruct (Z.eqb_spec span 0); [lia|].
    now rewrite Z.abs_eq by lia. }
  pose proof (Z.log2_nonneg span) as Hlog.
  assert (Hiter : 0 <= mask_iter span) by (unfold mask_iter; apply Z.log2_nonneg).
  rewrite Z.sub_1_r, <- Z.ones_equiv.
  apply Z.bits_inj'. intros j Hj. unfold range_mask.
  destruct (Z.lt_ge_cases j (bit_length span)) as [Hlt|Hge].
  - rewrite Z.ones_spec_low by lia.
    apply (mask_window span (mask_iter span) Hiter j Hj).
    exists (Z.log2 span - j). split; [lia|].
    replace (j + (Z.log2 span - j)) with (Z.log2 span) by lia.
    apply Z.bit_log2. lia.
  - rewrite Z.ones_spec_high by lia.
    apply not_true_is_false. intros H.
    apply (mask_window span (mask_iter span) Hiter j Hj) in H.
    destruct H as [d [Hd H]].
    rewrite Z.bits_above_log2 in H by lia. discriminate.
Qed.

(** A byte width that is a power of two is such a case. *)
Lemma pow2_width_enough span e :
  0 <= e -> num_size span = 2 ^ e -> bit_length span <= 2 ^ mask_iter span.
Proof.
  intros He Hn. unfold mask_iter. rewrite Hn.
  replace (2 ^ e * 8) with (2 ^ (e + 3))
    by (rewrite Z.pow_add_r by lia; reflexivity).
  rewrite Z.log2_pow2, Z.pow_add_r by lia. rewrite <- Hn. unfold num_size.
  pose proof (Z.div_mod (bit_length span + 7) 8 ltac:(lia)).
  pose proof (Z.mod_pos_bound (bit_length span + 7) 8 ltac:(lia)).
  change (2 ^ 3) with 8. lia.
Qed.

Lemma range_mask_saturated_witness :
  range_mask (2 ^ 31) = 2 ^ bit_length (2 ^ 31) - 1.
Proof.
  apply (range_mask_saturated (2 ^ 31)); vm_compute; discriminate.
Defined.

(** The draw number [i] of a call started at [pos]. *)
Lemma reject_loop_first fuel rng ns mask ir : forall pos r pos',
  reject_loop fuel rng ns mask ir pos = Ok (r, pos') <->
  exists j, (j < fuel)%nat /\
    (forall i, (i < j)%nat ->
               ir < fst (masked_draw rng ns mask (pos + i * Z.to_nat ns))) /\
    r = fst (masked_draw rng ns mask (pos + j * Z.to_nat ns)) /\
    r <= ir /\
    pos' = (pos + (j + 1) * Z.to_nat ns)%nat.
Proof.
  induction fuel as [|fuel IH]; intros pos r pos'; cbn [reject_loop].
  - split; [discriminate | intros [j [Hj _]]; lia].
  - pose proof (masked_draw_pos rng ns mask pos) as Hp.
    destruct (masked_draw rng ns mask pos) as [x p1] eqn:Ed. cbn [snd] in Hp.
    subst p1. destruct (Z.leb_spec x ir) as [Hacc|Hrej].
    + split.
      * intros E. injection E as <- <-. exists O.
        rewrite Nat.mul_0_l, Nat.add_0_r, Ed. cbn [fst].
        repeat split; try lia.
      * intros [j [Hj [Hrej [Hr [Hle Hpos]]]]].
        destruct j as [|j].
        -- rewrite Nat.mul_0_l, Nat.add_0_r, Ed in Hr. cbn [fst] in Hr.
           subst. do 2 f_equal. lia.
        -- specialize (Hrej O ltac:(lia)).
           rewrite Nat.mul_0_l, Nat.add_0_r, Ed in Hrej. cbn [fst] in Hrej. lia.
    + rewrite IH. split.
      * intros [j [Hj [Hrej' [Hr [Hle Hpos]]]]]. exists (S j).
        split; [lia|]. split; [|split; [|split]].
        -- intros [|i] Hi.
           ++ rewrite Nat.mul_0_l, Nat.add_0_r, Ed. exact Hrej.
           ++ specialize (Hrej' i ltac:(lia)).
              now replace (pos + S i * Z.to_nat ns)%nat
                with (pos + Z.to_nat ns + i * Z.to_nat ns)%nat by lia.
        -- now replace (pos + S j * Z.to_nat ns)%nat
             with (pos + Z.to_nat ns + j * Z.to_nat ns)%nat by lia.
        -- exact Hle.
        -- lia.
      * intros [j [Hj [Hrej' [Hr [Hle Hpos]]]]].
        destruct j as [|j].
        -- rewrite Nat.mul_0_l, Nat.add_0_r, Ed in Hr. cbn [fst] in Hr. lia.
        -- exists j. split; [lia|]. split; [|split; [|split]].
           ++ intros i Hi. specialize (Hrej' (S i) ltac:(lia)).
              now replace (pos + S i * Z.to_nat ns)%nat
                with (pos + Z.to_nat ns + i * Z.to_nat ns)%nat in Hrej' by lia.
           ++ now replace (pos + S j * Z.to_nat ns)%nat
                with (pos + Z.to_nat ns + j * Z.to_nat ns)%nat in Hr by lia.
           ++ exact Hle.
           ++ lia.
Qed.

(** On [min < max], [secure_next_int] returns [min] plus the first masked
    draw that does not exceed the span, and has then consumed the bytes of
    that draw and of every rejected draw before it, [numSize] bytes each;
    nothing else makes it return. *)
Theorem secure_next_int_first_accepted fuel rng min max pos r pos' :
  min < max ->
  (secure_next_int fuel rng min max pos = Ok (r, pos') <->
   exists j, (j < fuel)%nat /\
     (forall i, (i < j)%nat ->
        max - min <
        fst (masked_draw rng (num_size (max - min)) (range_mask (max - min))
                         (pos + i * Z.to_nat (num_size (max - min))))) /\
     r = min +
         fst (masked_draw rng (num_size (max - min)) (range_mask (max - min))
                          (pos + j * Z.to_nat (num_size (max - min)))) /\
     r <= max /\
     pos' = (pos + (j + 1) * Z.to_nat (num_size (max - min)))%nat).
Proof.
  intros Hlt. unfold secure_next_int.
  destruct (Z.eqb_spec min max); [lia|].
  destruct (Z.gtb_spec min max); [lia|].
  destruct (Z.eqb_spec (max - min) 0); [lia|].
  split.
  - destruct (reject_loop _ _ _ _ _ _) as [[x p1]| |] eqn:E; cbn [bind];
      try discriminate.
    intros E'. injection E' as <- <-.
    apply reject_loop_first in E.
    destruct E as [j [Hj [Hrej [Hr [Hle Hpos]]]]].
    exists j. repeat split; auto; lia.
  - intros [j [Hj [Hrej [Hr [Hle Hpos]]]]].
    assert (E : reject_loop fuel rng (num_size (max - min))
                            (range_mask (max - min)) (max - min) pos
                = Ok (r - min, pos')).
    { apply reject_loop_first. exists j. repeat split; auto; lia. }
    rewrite E. cbn [bind]. do 2 f_equal. lia.
Qed.

Lemma secure_next_int_first_accepted_witness :
  exists j, (j < 2)%nat /\
    (forall i, (i < j)%nat ->
       16 - 2 <
       fst (masked_draw (fun i => match i with O => Byte.xff | _ => Byte.x01 end)
                        (num_size (16 - 2)) (range_mask (16 - 2))
                        (0 + i * Z.to_nat (num_size (16 - 2))))) /\
    3 = 2 +
        fst (masked_draw (fun i => match i with O => Byte.xff | _ => Byte.x01 end)
                         (num_size (16 - 2)) (range_mask (16 - 2))
                         (0 + j * Z.to_nat (num_size (16 - 2)))) /\
    3 <= 16 /\
    2%nat = (0 + (j + 1) * Z.to_nat (num_size (16 - 2)))%nat.
Proof.
  apply (secure_next_int_first_accepted
           2 (fun i => match i with O => Byte.xff | _ => Byte.x01 end)
           2 16 0 3 2%nat); [lia | vm_compute; reflexivity].
Defined.

(** ** What [get_prim_root] raises and what it returns *)

Lemma tries_raise_only fuel rng n q e tries : forall pos ex,
  0 <= n -> 3 <= q -> 0 <= e ->
  prim_root_tries tries fuel rng (2 * n) q e pos = Raise ex ->
  ex = RootNotFoundError.
Proof.
  induction tries as [|tries IH]; intros pos ex Hn Hq He;
    cbn [prim_root_tries].
  - intros E. now injection E.
  - destruct (secure_next_int fuel rng 2 (q - 1) pos) as [[x p1]|e1|] eqn:Ex;
      cbn [bind]; try discriminate.
    + rewrite root_candidate_eq by lia. cbn [bind].
      destruct (_ =? _); [discriminate | now apply IH].
    + apply secure_next_int_raise in Ex. lia.
Qed.

(** The exceptions of [get_prim_root]: a division by zero for [n = 0]
    (no [r] given), the range error of the first draw for [q <= 2], and for
    [n > 0] and [q >= 3] nothing but the root-not-found error. *)
Theorem get_prim_root_exceptions fuel rng n q pos :
  (n = 0 -> get_prim_root fuel rng n q None pos = Raise ZeroDivisionError) /\
  (n <> 0 -> q <= 2 ->
   get_prim_root fuel rng n q None pos = Raise InvalidRangeError) /\
  (0 < n -> 3 <= q ->
   forall ex, get_prim_root fuel rng n q None pos = Raise ex ->
              ex = RootNotFoundError).
Proof.
  split; [|split].
  - intros ->. reflexivity.
  - intros Hn Hq. rewrite get_prim_root_unfold by assumption.
    cbn [prim_root_tries]. unfold secure_next_int.
    destruct (Z.eqb_spec 2 (q - 1)); [lia|].
    destruct (Z.gtb_spec 2 (q - 1)); [reflexivity | lia].
  - intros Hn Hq ex. rewrite get_prim_root_unfold by lia.
    apply tries_raise_only; try lia.
    unfold root_exponent. apply Z.div_pos; lia.
Qed.

Lemma cong_neg_one q x : 1 < q -> (cong q x (-1) <-> x mod q = q - 1).
Proof.
  intros Hq. unfold cong.
  assert (E : -1 mod q = q - 1).
  { replace (-1) with (q - 1 + (-1) * q) by ring.
    rewrite Z.mod_add by lia. apply Z.mod_small. lia. }
  rewrite E. reflexivity.
Qed.

Lemma one_not_neg_one q : 2 < q -> ~ cong q 1 (-1).
Proof.
  intros Hq H. apply cong_neg_one in H; [|lia].
  rewrite Z.mod_1_l in H by lia. lia.
Qed.

(** An element whose [2^k]-th power is [-1] has order exactly [2^(k+1)]. *)
Lemma neg_one_order q :
  2 < q ->
  forall k x, cong q (x ^ (2 ^ Z.of_nat k)) (-1) ->
              forall j, 0 < j < 2 * 2 ^ Z.of_nat k -> ~ cong q (x ^ j) 1.
Proof.
  intros Hq. induction k as [|k IH]; intros x Hx j Hj Hone.
  - simpl in Hj. assert (j = 1) as -> by lia.
    simpl (2 ^ Z.of_nat 0) in Hx. rewrite Hx in Hone.
    apply (one_not_neg_one q Hq). now symmetry.
  - pose proof (pow2_pos k) as Hp.
    pose proof (Z.div_mod j 2 ltac:(lia)) as Hdm.
    rewrite Zmod_even in Hdm. destruct (Z.even j).
    + apply (IH (x ^ 2) ltac:(rewrite <- Z.pow_mul_r, <- pow2_S by lia; exact Hx)
                (j / 2)).
      * rewrite pow2_S in Hj. lia.
      * rewrite <- Z.pow_mul_r by lia. now replace (2 * (j / 2)) with j by lia.
    + apply (one_not_neg_one q Hq).
      rewrite <- (Z.pow_1_l (2 ^ Z.of_nat (S k))) by lia.
      rewrite <- (cong_pow q _ _ (2 ^ Z.of_nat (S k)) Hone).
      rewrite <- Z.pow_mul_r, Z.mul_comm, Z.pow_mul_r by lia.
      rewrite (cong_pow q _ _ j Hx).
      rewrite Hdm at 1. rewrite Z.pow_add_r, Z.pow_mul_r by lia.
      apply eq_cong. change ((-1) ^ 2) with 1.
      rewrite Z.pow_1_l by lia. reflexivity.
Qed.

(** For a power of two [n] and any modulus [q > 2], prime or not, a value
    [get_prim_root(n, q)] returns is a primitive [2n]-th root of unity: its
    [2n]-th power is 1 and no smaller positive power is. *)
Theorem get_prim_root_primitive fuel rng k q pos psi pos' :
  2 < q ->
  get_prim_root fuel rng (2 ^ Z.of_nat k) q None pos = Ok (psi, pos') ->
  primitive_root (2 ^ Z.of_nat k) q psi.
Proof.
  intros Hq Hrun. pose proof (pow2_pos k) as Hn.
  rewrite get_prim_root_unfold in Hrun by lia.
  assert (He : 0 <= root_exponent (2 ^ Z.of_nat k) q None).
  { unfold root_exponent. apply Z.div_pos; lia. }
  apply tries_found in Hrun; try lia.
  destruct Hrun as [xs [x [_ [_ [_ [_ [-> Hacc]]]]]]].
  split.
  - apply pow_double_mod; auto; lia.
  - intros j Hj E.
    apply (neg_one_order q Hq k (candidate_of q (root_exponent (2 ^ Z.of_nat k) q None) x)
                         ltac:(apply cong_neg_one; [lia | exact Hacc]) j Hj).
    unfold cong. rewrite E. symmetry. apply Z.mod_1_l. lia.
Qed.

Lemma get_prim_root_primitive_witness :
  primitive_root (2 ^ Z.of_nat 3) 17 3.
Proof.
  apply (get_prim_root_primitive 1 (fun _ => Byte.x01) 3 17 0 3 1%nat);
    [lia | vm_compute; reflexivity].
Defined.

(** ** The pipeline for any modulus, and for a root found by the search *)

(** The algebra of the pipeline needs a root with [psi^n = -1] and an
    invertible [n]; primality of [q] plays no part in it, and neither does
    the size of the entries: the butterflies and the pointwise product
    reduce whatever they are given. *)
Lemma usage_convolution_core k q psi A B :
  1 < q ->
  Z.gcd (2 ^ Z.of_nat k) q = 1 ->
  cong q (psi ^ (2 ^ Z.of_nat k)) (-1) ->
  len A = 2 ^ Z.of_nat k -> len B = 2 ^ Z.of_nat k ->
  usage (2 ^ Z.of_nat k) q psi A B = Ok (negacyclic_conv q A B).
Proof.
  intros Hq Hgn Hhalf HA HB.
  pose proof (pow2_pos k) as Hn.
  assert (Hg : Z.gcd psi q = 1).
  { apply (coprime_of_inverse psi (psi ^ (2 * 2 ^ Z.of_nat k - 1))).
    rewrite <- Z.pow_succ_r by lia.
    replace (Z.succ (2 * 2 ^ Z.of_nat k - 1)) with (2 * 2 ^ Z.of_nat k) by lia.
    apply pow_double_mod; try lia. now apply cong_neg_one. }
  destruct (psi_tables_spec q k psi ltac:(lia) Hg)
    as [Tf [Ti [psi_inv [ET [HTf [HTi [Hinv HT]]]]]]].
  assert (HTpow : forall x, 0 <= x < 2 ^ Z.of_nat k ->
                            cong q (zth Tf x) (psi ^ bitrev k x))
    by (intros x Hx; apply HT; assumption).
  set (C := negacyclic_conv q A B).
  assert (HC : len C = 2 ^ Z.of_nat k)
    by (unfold C; rewrite negacyclic_conv_len; assumption).
  assert (HrC : residues q C) by (apply negacyclic_conv_residues; lia).
  destruct (speedup_FNTT_evaluates q k psi Tf ltac:(lia) HTf HTpow Hhalf A HA)
    as [FA [EFA [HlFA HFA]]].
  destruct (speedup_FNTT_evaluates q k psi Tf ltac:(lia) HTf HTpow Hhalf B HB)
    as [FB [EFB [HlFB HFB]]].
  destruct (speedup_FNTT_evaluates q k psi Tf ltac:(lia) HTf HTpow Hhalf C HC)
    as [FC [EFC [HlFC HFC]]].
  destruct (pointwise_mul_zth q FA FB ltac:(lia) ltac:(lia))
    as [AB [EAB [HlAB HAB]]].
  destruct (roundtrip_core q k Tf Ti C ltac:(lia) HTf HTi
                           (tables_inverse q k psi psi_inv Tf Ti Hinv HT)
                           Hgn HC HrC)
    as [W [EW [_ [_ EI]]]].
  assert (W = FC) by congruence. subst W.
  assert (EAB' : AB = FC).
  { apply zth_ext; [lia|]. intros p Hp'. rewrite HAB by lia.
    apply (cong_small q).
    - apply Z.mod_pos_bound. lia.
    - apply (speedup_FNTT_residues q k Tf C FC); auto; lia.
    - rewrite cong_mod, HFA, HFB, HFC by lia. symmetry.
      apply conv_eval; [lia|]. rewrite HA.
      apply (block_root_pow q k psi Tf HTpow Hhalf k p); [lia | lia]. }
  unfold usage. rewrite ET. cbn [bind]. unfold ntt_multiply.
  rewrite EFA. cbn [bind]. rewrite EFB. cbn [bind]. rewrite EAB. cbn [bind].
  rewrite EAB'. exact EI.
Qed.

(** The pipeline returns the negative-wrapped convolution for every modulus
    [q > 1], prime or composite, as soon as [psi^n mod q = q - 1] and [n] is
    coprime to [q], on any two lists of [n] integers: the entries need not
    lie in [[0, q)]. *)
Theorem usage_any_modulus k q psi A B :
  1 < q ->
  Z.gcd (2 ^ Z.of_nat k) q = 1 ->
  psi ^ (2 ^ Z.of_nat k) mod q = q - 1 ->
  len A = 2 ^ Z.of_nat k -> len B = 2 ^ Z.of_nat k ->
  usage (2 ^ Z.of_nat k) q psi A B = Ok (negacyclic_conv q A B).
Proof.
  intros Hq Hg Hpsi HA HB.
  apply usage_convolution_core; auto.
  apply cong_neg_one; assumption.
Qed.

Lemma usage_any_modulus_witness :
  usage (2 ^ Z.of_nat 2) 697 161 [698; 2; -694; 696] [5; 0; 7; 100]
  = Ok (negacyclic_conv 697 [698; 2; -694; 696] [5; 0; 7; 100]).
Proof.
  apply (usage_any_modulus 2 697 161); [lia | | | |]; reflexivity.
Defined.

(** The script of [usage.py] as a whole: whatever root the search returns
    for [n = 2^k] and a modulus [q > 2] with [q = 1 (mod 2n)], the pipeline
    run with that root on any two lists of [n] integers (reduced modulo [q]
    or not) returns their negative-wrapped convolution. *)
Theorem usage_with_found_root fuel rng k q pos psi pos' A B :
  2 < q ->
  q mod (2 * 2 ^ Z.of_nat k) = 1 ->
  get_prim_root fuel rng (2 ^ Z.of_nat k) q None pos = Ok (psi, pos') ->
  len A = 2 ^ Z.of_nat k -> len B = 2 ^ Z.of_nat k ->
  usage (2 ^ Z.of_nat k) q psi A B = Ok (negacyclic_conv q A B).
Proof.
  intros Hq Hmod Hrun HA HB. pose proof (pow2_pos k) as Hn.
  rewrite get_prim_root_unfold in Hrun by lia.
  assert (He : 0 <= root_exponent (2 ^ Z.of_nat k) q None).
  { unfold root_exponent. apply Z.div_pos; lia. }
  apply tries_found in Hrun; try lia.
  destruct Hrun as [xs [x [_ [_ [_ [_ [-> Hacc]]]]]]].
  apply usage_convolution_core; auto; try lia.
  - now apply coprime_of_mod_one.
  - apply cong_neg_one; [lia | exact Hacc].
Qed.

Lemma usage_with_found_root_witness :
  usage (2 ^ Z.of_nat 3) 17 3 [18; 2; -15; 4; 5; 6; 25; 8] [1; 2; 3; 4; 5; 6; 7; 8]
  = Ok (negacyclic_conv 17 [18; 2; -15; 4; 5; 6; 25; 8] [1; 2; 3; 4; 5; 6; 7; 8]).
Proof.
  apply (usage_with_found_root 1 (fun _ => Byte.x01) 3 17 0 3 1%nat);
    [lia | | | |]; vm_compute; reflexivity.
Defined.

(** ** The transforms on arbitrary input *)

Lemma for_each_preserves {X S} (P : S -> Prop) (body : X -> S -> result S) xs :
  (forall x s s', body x s = Ok s' -> P s -> P s') ->
  forall s s', for_each xs body s = Ok s' -> P s -> P s'.
Proof.
  intros Hbody. induction xs as [|x xs IH]; intros s s'; cbn [for_each].
  - intros E; injection E as <-. auto.
  - destruct (body x s) as [s1| |] eqn:E1; cbn [bind]; try discriminate.
    intros E HP. apply (IH s1 s' E). eapply Hbody; eassumption.
Qed.

Lemma py_setitem_len {A} (l l' : list A) i v :
  py_setitem l i v = Ok l' -> len l' = len l.
Proof.
  unfold py_setitem. destruct (py_norm_index (len l) i); [|discriminate].
  intros E; injection E as <-. apply len_list_update.
Qed.

Ltac bind_cases H :=
  repeat match type of H with
         | bind ?c _ = Ok _ =>
             let E := fresh "E" in
             destruct c eqn:E; cbn [bind] in H; try discriminate
         end.

Lemma ct_butterfly_len q t S j A A' :
  ct_butterfly q t S j A = Ok A' -> len A' = len A.
Proof.
  unfold ct_butterfly. intros H. bind_cases H.
  apply py_setitem_len in H. apply py_setitem_len in E2. lia.
Qed.

Lemma gs_butterfly_len q t S j A A' :
  gs_butterfly q t S j A = Ok A' -> len A' = len A.
Proof.
  unfold gs_butterfly. intros H. bind_cases H.
  apply py_setitem_len in H. apply py_setitem_len in E2. lia.
Qed.

Lemma for_each_len {X} (body : X -> list Z -> result (list Z)) xs A A' :
  (forall x s s', body x s = Ok s' -> len s' = len s) ->
  for_each xs body A = Ok A' -> len A' = len A.
Proof.
  intros Hbody H.
  assert (Hb : forall x s s', body x s = Ok s' -> len s = len A -> len s' = len A).
  { intros x s s' Hs Hl. apply Hbody in Hs. lia. }
  exact (for_each_preserves (fun Y => len Y = len A) body xs Hb A A' H eq_refl).
Qed.

Lemma fntt_group_len q t m tbl i A A' :
  fntt_group q t m tbl i A = Ok A' -> len A' = len A.
Proof.
  unfold fntt_group, for_range.
  destruct (py_getitem tbl (m + i)) as [S| |]; cbn [bind]; try discriminate.
  apply for_each_len. intros x s s'. apply ct_butterfly_len.
Qed.

Lemma intt_group_len q t h tbl i A j A' j' :
  intt_group q t h tbl i (A, j) = Ok (A', j') -> len A' = len A.
Proof.
  unfold intt_group, for_range.
  destruct (py_getitem tbl (h + i)) as [S| |]; cbn [bind]; try discriminate.
  destruct (for_each _ (gs_butterfly q t S) A) as [A1| |] eqn:E; cbn [bind];
    try discriminate.
  intros H. injection H as <- _.
  revert E. apply for_each_len. intros x s s'. apply gs_butterfly_len.
Qed.

Lemma fntt_while_len q n tbl fuel : forall m t A A',
  fntt_while fuel q n tbl m t A = Ok A' -> len A' = len A.
Proof.
  induction fuel as [|fuel IH]; intros m t A A'; cbn [fntt_while];
    destruct (m <? n); try discriminate;
    try (intros E; injection E as <-; reflexivity).
  unfold for_range.
  destruct (for_each _ _ A) as [A1| |] eqn:E; cbn [bind]; try discriminate.
  intros H. apply IH in H. rewrite H.
  revert E. apply for_each_len. intros x s s'. apply fntt_group_len.
Qed.

Lemma intt_while_len q tbl fuel : forall t m A A',
  intt_while fuel q tbl t m A = Ok A' -> len A' = len A.
Proof.
  induction fuel as [|fuel IH]; intros t m A A'; cbn [intt_while];
    destruct (m >? 1); try discriminate;
    try (intros E; injection E as <-; reflexivity).
  unfold for_range.
  destruct (for_each _ _ (A, 0)) as [[A1 j1]| |] eqn:E; cbn [bind];
    try discriminate.
  intros H. apply IH in H. rewrite H.
  assert (Hb : forall x (s s' : list Z * Z),
             intt_group q t (Z.shiftr m 1) tbl x s = Ok s' ->
             len (fst s) = len A -> len (fst s') = len A).
  { intros x [s j] [s' j'] Hs Hl. apply intt_group_len in Hs.
    cbn [fst] in *. lia. }
  exact (for_each_preserves (fun st : list Z * Z => len (fst st) = len A)
                            _ _ Hb (A, 0) (A1, j1) E eq_refl).
Qed.

Lemma residues_of_zth q W :
  (forall p, 0 <= p < len W -> 0 <= zth W p < q) -> residues q W.
Proof.
  intros H. unfold residues. apply Forall_forall. intros x Hx.
  destruct (In_nth W x 0 Hx) as [i [Hi <-]].
  specialize (H (Z.of_nat i) ltac:(unfold len; lia)).
  unfold zth in H. now rewrite Nat2Z.id in H.
Qed.

(** Whatever the input, the modulus and the table: a transform that
    returns, returns a list as long as its input; and every entry of what
    the inverse transform returns for a positive modulus lies in [[0, q)]. *)
Theorem transforms_keep_length a q tbl W :
  (speedup_FNTT a q tbl = Ok W -> len W = len a) /\
  (speedup_INTT a q tbl = Ok W -> len W = len a /\ (0 < q -> residues q W)).
Proof.
  split.
  - unfold speedup_FNTT. apply fntt_while_len.
  - unfold speedup_INTT.
    destruct (intt_while _ q tbl 1 (len a) a) as [V| |] eqn:EV; cbn [bind];
      try discriminate.
    pose proof (intt_while_len _ _ _ _ _ _ _ EV) as Hl.
    destruct (py_pow3 (len a) (-1) q) as [n_inv| |] eqn:En; cbn [bind];
      try discriminate.
    assert (Hq : q <> 0).
    { intros ->. unfold py_pow3 in En. discriminate. }
    destruct (scale_loop q n_inv V Hq) as [V' [EV' [HlV' HV']]].
    rewrite <- Hl, EV'. intros H. injection H as <-.
    split; [lia|]. intros Hpos. apply residues_of_zth.
    intros p Hp. rewrite HV' by lia. apply Z.mod_pos_bound. assumption.
Qed.

Lemma transforms_keep_length_witness :
  len [3; 4; 2] = len [4; 5; 6] /\ residues 7 [3; 4; 2].
Proof.
  destruct (transforms_keep_length [4; 5; 6] 7 [1; 2; 3; 4] [3; 4; 2]) as [_ H].
  destruct H as [H1 H2]; [vm_compute; reflexivity|].
  split; [exact H1 | apply H2; lia].
Defined.

(** From length 2 on, the forward transform on a power-of-two length runs
    to its end for any table of that length and any integer entries, and
    every entry of its result lies in [[0, q)]: garbage in, no error out. *)
Theorem speedup_FNTT_normalises q k tbl a :
  0 < q -> (1 <= k)%nat ->
  len tbl = 2 ^ Z.of_nat k -> len a = 2 ^ Z.of_nat k ->
  exists W, speedup_FNTT a q tbl = Ok W /\ len W = len a /\ residues q W.
Proof.
  intros Hq Hk Htbl Ha.
  destruct (speedup_FNTT_inv q k tbl
              (fun s Y => s <> O ->
                          forall p, 0 <= p < 2 ^ Z.of_nat k -> 0 <= zth Y p < q) a)
    as [W [EW [HlW HW]]]; try lia; auto.
  - intros s d Y Y' Hs HY _ [Hl Hrel] _ p Hp.
    pose proof (pow2_pos d) as Hd.
    assert (Hn : 2 ^ Z.of_nat k = 2 * 2 ^ Z.of_nat s * 2 ^ Z.of_nat d).
    { rewrite <- Hs, pow2_add, pow2_S. ring. }
    destruct (block_cover (2 ^ Z.of_nat s) (2 ^ Z.of_nat d) p Hd ltac:(lia))
      as [i [r [Hi [Hr Hpr]]]].
    destruct (Hrel i r Hi Hr) as [Hlo Hhi].
    destruct Hpr as [-> | ->]; [rewrite Hlo | rewrite Hhi];
      unfold ct_lo, ct_hi; apply Z.mod_pos_bound; lia.
  - exists W. split; [exact EW|]. split; [lia|].
    apply residues_of_zth. intros p Hp. apply HW; lia.
Qed.

Lemma speedup_FNTT_normalises_witness :
  exists W, speedup_FNTT [100; -3; 17; 40] 17 [0; 0; 5; 99] = Ok W /\
            len W = len [100; -3; 17; 40] /\ residues 17 W.
Proof.
  apply (speedup_FNTT_normalises 17 2 [0; 0; 5; 99] [100; -3; 17; 40]);
    try reflexivity; lia.
Defined.

(** The stages of the inverse transform run to their end on a power-of-two
    length, for any table of that length. *)
Lemma intt_while_total q k Ti :
  q <> 0 -> len Ti = 2 ^ Z.of_nat k ->
  forall d s Y fuel,
    (s + d = k)%nat -> len Y = 2 ^ Z.of_nat k -> (d <= fuel)%nat ->
    exists V,
      intt_while fuel q Ti (2 ^ Z.of_nat s) (2 ^ Z.of_nat d) Y = Ok V /\
      len V = 2 ^ Z.of_nat k.
Proof.
  intros Hq HTi. induction d as [|d IH]; intros s Y fuel Hk HY Hfuel.
  - exists Y. destruct fuel; cbn [intt_while]; auto.
  - destruct fuel as [|fuel]; [lia|].
    pose proof (pow2_pos s) as Hs. pose proof (pow2_pos d) as Hd.
    assert (Hn : 2 ^ Z.of_nat k = 2 * 2 ^ Z.of_nat d * 2 ^ Z.of_nat s).
    { rewrite <- Hk, pow2_add, pow2_S. ring. }
    cbn [intt_while].
    destruct (Z.gtb_spec (2 ^ Z.of_nat (S d)) 1) as [_|Hle];
      [|rewrite pow2_S in Hle; lia].
    rewrite shiftr_1, shiftl_1, (pow2_S d).
    replace (2 * 2 ^ Z.of_nat d / 2) with (2 ^ Z.of_nat d)
      by (rewrite Z.mul_comm, Z.div_mul; lia).
    destruct (intt_stage q (2 ^ Z.of_nat d) (2 ^ Z.of_nat s) Ti Y)
      as [Y' [j [EY' [HlY' _]]]]; try lia; try nia.
    rewrite EY'. cbn [bind]. rewrite <- (pow2_S s).
    apply (IH (S s) Y' fuel); lia.
Qed.

(** On a power-of-two length and a table of that length, the inverse
    transform returns exactly when [n] is invertible modulo [q]; when it is
    not, the butterflies all run and then [pow(n, -1, q)] raises
    [ValueError]. *)
Theorem speedup_INTT_needs_inverse q k tbl a :
  q <> 0 -> len tbl = 2 ^ Z.of_nat k -> len a = 2 ^ Z.of_nat k ->
  (Z.gcd (2 ^ Z.of_nat k) q = 1 -> exists W, speedup_INTT a q tbl = Ok W) /\
  (Z.gcd (2 ^ Z.of_nat k) q <> 1 -> speedup_INTT a q tbl = Raise ValueError).
Proof.
  intros Hq Htbl Ha.
  destruct (intt_while_total q k tbl Hq Htbl k O a (List.length a)
                             ltac:(lia) Ha
                             ltac:(pose proof (pow2_ge k); unfold len in Ha; lia))
    as [V [EV HlV]].
  unfold speedup_INTT. rewrite Ha.
  change (2 ^ Z.of_nat 0) with 1 in EV. rewrite EV. cbn [bind]. split.
  - intros Hg. destruct (py_pow3_inverse _ q Hq Hg) as [Einv _].
    rewrite Einv. cbn [bind].
    destruct (scale_loop q (Z.invmod (2 ^ Z.of_nat k) q mod q) V Hq)
      as [V' [EV' _]].
    rewrite HlV in EV'. eauto.
  - intros Hg. unfold py_pow3.
    destruct (Z.eqb_spec q 0); [contradiction|].
    change (0 <=? -1) with false. cbv iota.
    destruct (Z.eqb_spec (Z.gcd (2 ^ Z.of_nat k) q) 1); [contradiction|].
    reflexivity.
Qed.

Lemma speedup_INTT_needs_inverse_witness :
  (exists W, speedup_INTT [1; 2; 3; 4] 17 [1; 4; 2; 8] = Ok W) /\
  speedup_INTT [1; 2; 3; 4] 10 [1; 4; 2; 8] = Raise ValueError.
Proof.
  split.
  - destruct (speedup_INTT_needs_inverse 17 2 [1; 4; 2; 8] [1; 2; 3; 4])
      as [H _]; try reflexivity; [lia|].
    apply H. reflexivity.
  - destruct (speedup_INTT_needs_inverse 10 2 [1; 4; 2; 8] [1; 2; 3; 4])
      as [_ H]; [lia | reflexivity | reflexivity |].
    apply H. vm_compute. discriminate.
Defined.

(** With the modulus 0 and at least two entries (and a table no shorter
    than the input), both transforms stop at their first butterfly with
    [ZeroDivisionError]. *)
Theorem transforms_zero_modulus a tbl :
  2 <= len a <= len tbl ->
  speedup_FNTT a 0 tbl = Raise ZeroDivisionError /\
  speedup_INTT a 0 tbl = Raise ZeroDivisionError.
Proof.
  intros Hlen.
  assert (Hf : exists f, List.length a = S f).
  { destruct a; [unfold len in Hlen; simpl in Hlen; lia | simpl; eauto]. }
  destruct Hf as [f Hf].
  assert (Hhalf : 1 <= len a / 2 < len a).
  { split; [apply Z.div_le_lower_bound; lia | apply Z.div_lt; lia]. }
  split.
  - unfold speedup_FNTT. rewrite Hf. cbn [fntt_while].
    destruct (Z.ltb_spec 1 (len a)); [|lia].
    rewrite shiftr_1. unfold for_range at 1.
    change (zrange 0 1) with [0]. cbn [for_each].
    unfold fntt_group. rewrite py_getitem_zth by lia. cbn [bind].
    unfold for_range. rewrite zrange_cons by lia. cbn [for_each].
    unfold ct_butterfly. rewrite !py_getitem_zth by lia. cbn [bind].
    reflexivity.
  - unfold speedup_INTT. rewrite Hf. cbn [intt_while].
    destruct (Z.gtb_spec (len a) 1); [|lia].
    rewrite shiftr_1. unfold for_range at 1.
    rewrite zrange_cons by lia. cbn [for_each].
    unfold intt_group at 1. rewrite py_getitem_zth by lia. cbn [bind].
    unfold for_range. change (zrange 0 (0 + 1 - 1 + 1)) with [0].
    cbn [for_each]. unfold gs_butterfly.
    rewrite !py_getitem_zth by lia. cbn [bind]. reflexivity.
Qed.

Lemma transforms_zero_modulus_witness :
  speedup_FNTT [1; 2] 0 [1; 1] = Raise ZeroDivisionError /\
  speedup_INTT [1; 2] 0 [1; 1] = Raise ZeroDivisionError.
Proof. apply (transforms_zero_modulus [1; 2] [1; 1]). unfold len; simpl; lia. Defined.

(** ** The two transforms are inverse to each other, both ways *)

Section RoundTripBack.
Variables (q : Z) (k : nat) (Tf Ti : list Z).
Let n := 2 ^ Z.of_nat k.
Hypothesis q_nz : q <> 0.
Hypothesis Tf_len : len Tf = n.
Hypothesis Ti_len : len Ti = n.
Hypothesis T_inv : forall x, 1 <= x < n -> cong q (zth Tf x * zth Ti x) 1.

(** With [d] stages left in the inverse loop, the inverse loop finishes
    with some [Z], and the first [d] stages of the forward loop, run on any
    reduced array congruent to [c * Z], give [c * 2^d] times the array the
    inverse loop started from. *)
Lemma stages_cancel_back d : forall s Y fuel,
  (s + d = k)%nat -> len Y = n -> (d <= fuel)%nat ->
  exists Z,
    intt_while fuel q Ti (2 ^ Z.of_nat s) (2 ^ Z.of_nat d) Y = Ok Z /\
    len Z = n /\
    forall X0 c,
      len X0 = n ->
      (forall p, 0 <= p < n -> cong q (zth X0 p) (c * zth Z p)) ->
      (forall p, 0 <= p < n -> zth X0 p = zth X0 p mod q) ->
      exists Xd,
        len Xd = n /\
        (forall fuel',
            fntt_while (d + fuel') q n Tf 1 n X0 =
            fntt_while fuel' q n Tf (2 ^ Z.of_nat d) (2 ^ Z.of_nat s) Xd) /\
        (forall p, 0 <= p < n ->
                   cong q (zth Xd p) (c * 2 ^ Z.of_nat d * zth Y p)) /\
        (forall p, 0 <= p < n -> zth Xd p = zth Xd p mod q).
Proof.
  induction d as [|d IH]; intros s Y fuel Hk HY Hfuel.
  - assert (s = k) by lia. subst s. exists Y.
    split; [destruct fuel; reflexivity|]. split; [assumption|].
    intros X0 c HX0 Hc Hred. exists X0. split; [assumption|].
    split; [intros; reflexivity|]. split; [|assumption].
    intros p Hp. rewrite (Hc p Hp). change (2 ^ Z.of_nat 0) with 1. cong_ring.
  - destruct fuel as [|fuel]; [lia|].
    pose proof (pow2_pos s) as Hs. pose proof (pow2_pos d) as Hd.
    assert (Hn : n = 2 * 2 ^ Z.of_nat d * 2 ^ Z.of_nat s).
    { unfold n. rewrite <- Hk, pow2_add, pow2_S. ring. }
    cbn [intt_while].
    destruct (Z.gtb_spec (2 ^ Z.of_nat (S d)) 1) as [_|Hle];
      [|rewrite pow2_S in Hle; lia].
    rewrite shiftr_1, shiftl_1, (pow2_S d).
    replace (2 * 2 ^ Z.of_nat d / 2) with (2 ^ Z.of_nat d)
      by (rewrite Z.mul_comm, Z.div_mul; lia).
    destruct (intt_stage q (2 ^ Z.of_nat d) (2 ^ Z.of_nat s) Ti Y)
      as [Y' [j [EY' [HlY' HY']]]]; try lia; try nia.
    rewrite EY'. cbn [bind]. rewrite <- (pow2_S s).
    destruct (IH (S s) Y' fuel ltac:(lia) ltac:(lia) ltac:(lia))
      as [Z [EZ [HlZ Hback]]].
    exists Z. split; [exact EZ|]. split; [exact HlZ|].
    intros X0 c HX0 Hc Hred.
    destruct (Hback X0 c HX0 Hc Hred) as [Xd [HlXd [Hrun [HXd _]]]].
    destruct (fntt_stage q (2 ^ Z.of_nat d) (2 ^ Z.of_nat s) Tf Xd)
      as [X' [EX' [HlX' HX']]]; try lia; try nia.
    exists X'. split; [lia|]. split; [|split].
    + intros fuel'. replace (S d + fuel')%nat with (d + S fuel')%nat by lia.
      rewrite Hrun. cbn [fntt_while].
      destruct (Z.ltb_spec (2 ^ Z.of_nat d) n) as [_|Hge]; [|nia].
      rewrite shiftr_1, shiftl_1, (pow2_S s).
      replace (2 * 2 ^ Z.of_nat s / 2) with (2 ^ Z.of_nat s)
        by (rewrite Z.mul_comm, Z.div_mul; lia).
      rewrite EX'. cbn [bind]. reflexivity.
    + intros p Hp.
      destruct (block_cover (2 ^ Z.of_nat d) (2 ^ Z.of_nat s) p Hs ltac:(lia))
        as [i [r [Hi [Hr Hpr]]]].
      destruct (HX' i r Hi Hr) as [HXlo HXhi].
      destruct (HY' i r Hi Hr) as [HYlo HYhi].
      assert (Hlo : 0 <= 2 * i * 2 ^ Z.of_nat s + r < n) by nia.
      assert (Hhi : 0 <= 2 * i * 2 ^ Z.of_nat s + 2 ^ Z.of_nat s + r < n) by nia.
      pose proof (HXd _ Hlo) as Clo. pose proof (HXd _ Hhi) as Chi.
      rewrite HYlo in Clo. rewrite HYhi in Chi.
      unfold gs_lo in Clo. unfold gs_hi in Chi. rewrite cong_mod in Clo, Chi.
      pose proof (T_inv (2 ^ Z.of_nat d + i) ltac:(nia)) as HT.
      set (S1 := zth Tf (2 ^ Z.of_nat d + i)) in *.
      set (S2 := zth Ti (2 ^ Z.of_nat d + i)) in *.
      set (Ylo := zth Y (2 * i * 2 ^ Z.of_nat s + r)) in *.
      set (Yhi := zth Y (2 * i * 2 ^ Z.of_nat s + 2 ^ Z.of_nat s + r)) in *.
      destruct Hpr as [-> | ->].
      * fold Ylo. rewrite HXlo. unfold ct_lo. rewrite cong_mod, Clo, Chi, ?pow2_S.
        transitivity (c * 2 ^ Z.of_nat d
                      * (Ylo + Yhi + (Ylo - Yhi) * (S1 * S2))); [cong_ring|].
        rewrite HT. cong_ring.
      * fold Yhi. rewrite HXhi. unfold ct_hi. rewrite cong_mod, Clo, Chi, ?pow2_S.
        transitivity (c * 2 ^ Z.of_nat d
                      * (Ylo + Yhi - (Ylo - Yhi) * (S1 * S2))); [cong_ring|].
        rewrite HT. cong_ring.
    + intros p Hp.
      destruct (block_cover (2 ^ Z.of_nat d) (2 ^ Z.of_nat s) p Hs ltac:(lia))
        as [i [r [Hi [Hr Hpr]]]].
      destruct (HX' i r Hi Hr) as [HXlo HXhi].
      destruct Hpr as [-> | ->]; [rewrite HXlo | rewrite HXhi];
        unfold ct_lo, ct_hi; now rewrite Zmod_mod.
Qed.
End RoundTripBack.

Lemma roundtrip_back_core q k Tf Ti Y :
  0 < q ->
  len Tf = 2 ^ Z.of_nat k -> len Ti = 2 ^ Z.of_nat k ->
  (forall x, 1 <= x < 2 ^ Z.of_nat k -> cong q (zth Tf x * zth Ti x) 1) ->
  Z.gcd (2 ^ Z.of_nat k) q = 1 ->
  len Y = 2 ^ Z.of_nat k -> residues q Y ->
  exists G, speedup_INTT Y q Ti = Ok G /\ speedup_FNTT G q Tf = Ok Y.
Proof.
  intros Hq HTf HTi HT Hg HY Hres.
  assert (Hfuel : (k <= List.length Y)%nat).
  { pose proof (pow2_ge k). unfold len in HY. lia. }
  destruct (stages_cancel_back q k Tf Ti ltac:(lia) HTf HTi HT k O Y
                               (List.length Y) ltac:(lia) HY Hfuel)
    as [Z [EZ [HlZ Hback]]].
  change (2 ^ Z.of_nat 0) with 1 in EZ.
  destruct (py_pow3_inverse (2 ^ Z.of_nat k) q ltac:(lia) Hg) as [Einv Hinv].
  set (n_inv := Z.invmod (2 ^ Z.of_nat k) q mod q) in *.
  destruct (scale_loop q n_inv Z ltac:(lia)) as [Z' [EZ' [HlZ' HZ']]].
  exists Z'. split.
  - unfold speedup_INTT. rewrite HY, EZ. cbn [bind]. rewrite Einv. cbn [bind].
    rewrite <- HlZ. exact EZ'.
  - destruct (Hback Z' n_inv ltac:(lia)) as [Xk [HlXk [Hrun [HXk Hred]]]].
    + intros p Hp. rewrite HZ' by lia. rewrite cong_mod. cong_ring.
    + intros p Hp. rewrite HZ' by lia. now rewrite Zmod_mod.
    + unfold speedup_FNTT.
      assert (Hf : exists f', List.length Z' = (k + f')%nat).
      { exists (List.length Z' - k)%nat. pose proof (pow2_ge k).
        unfold len in *. lia. }
      destruct Hf as [f' Hf]. rewrite Hf.
      replace (len Z') with (2 ^ Z.of_nat k) by lia. rewrite Hrun.
      assert (E : fntt_while f' q (2 ^ Z.of_nat k) Tf (2 ^ Z.of_nat k)
                             (2 ^ Z.of_nat 0) Xk = Ok Xk).
      { destruct f'; cbn [fntt_while]; now rewrite Z.ltb_irrefl. }
      rewrite E. f_equal. apply zth_ext; [lia|].
      intros p Hp. apply (cong_small q).
      * rewrite Hred by lia. apply Z.mod_pos_bound. lia.
      * apply residues_zth; [assumption | lia].
      * rewrite HXk by lia.
        transitivity (zth Y p * (n_inv * 2 ^ Z.of_nat k)); [cong_ring|].
        rewrite Hinv. cong_ring.
Qed.

(** For [n = 2^k], any modulus [q > 0] and any [psi] coprime to [q] (a root
    of unity or not), with [n] coprime to [q]: on lists of [n] residues the
    two transforms, run with the caller's two tables, undo each other in
    both orders. *)
Theorem transforms_mutually_inverse k q psi a :
  0 < q ->
  Z.gcd psi q = 1 -> Z.gcd (2 ^ Z.of_nat k) q = 1 ->
  len a = 2 ^ Z.of_nat k -> residues q a ->
  exists Tf Ti F G,
    psi_tables (2 ^ Z.of_nat k) q psi = Ok (Tf, Ti) /\
    speedup_FNTT a q Tf = Ok F /\ speedup_INTT F q Ti = Ok a /\
    speedup_INTT a q Ti = Ok G /\ speedup_FNTT G q Tf = Ok a.
Proof.
  intros Hq Hg Hgn Ha Hres.
  destruct (psi_tables_spec q k psi ltac:(lia) Hg)
    as [Tf [Ti [psi_inv [ET [HTf [HTi [Hinv HT]]]]]]].
  pose proof (tables_inverse q k psi psi_inv Tf Ti Hinv HT) as HTi'.
  destruct (roundtrip_core q k Tf Ti a Hq HTf HTi HTi' Hgn Ha Hres)
    as [F [EF [_ [_ EI]]]].
  destruct (roundtrip_back_core q k Tf Ti a Hq HTf HTi HTi' Hgn Ha Hres)
    as [G [EG EFG]].
  exists Tf, Ti, F, G. auto.
Qed.

Lemma transforms_mutually_inverse_witness :
  exists Tf Ti F G,
    psi_tables (2 ^ Z.of_nat 2) 15 2 = Ok (Tf, Ti) /\
    speedup_FNTT [1; 14; 3; 7] 15 Tf = Ok F /\
    speedup_INTT F 15 Ti = Ok [1; 14; 3; 7] /\
    speedup_INTT [1; 14; 3; 7] 15 Ti = Ok G /\
    speedup_FNTT G 15 Tf = Ok [1; 14; 3; 7].
Proof.
  apply (transforms_mutually_inverse 2 15 2 [1; 14; 3; 7]);
    try reflexivity; repeat constructor; lia.
Defined.

(** ** The forward transform as polynomial evaluation *)


Section EvaluationPoints.
Variables (q : Z) (k : nat) (psi : Z) (Tf : list Z).
Hypothesis Tf_pow : forall x, 0 <= x < 2 ^ Z.of_nat k ->
                              cong q (zth Tf x) (psi ^ bitrev k x).
Hypothesis psi_n : cong q (psi ^ (2 ^ Z.of_nat k)) (-1).

End EvaluationPoints.



(** ** The tables of the caller *)

Lemma power_tables_exact q psi psi_inv n :
  1 < q -> 1 <= n ->
  exists P Pi,
    for_range 1 n (table_step q psi psi_inv)
              (repeat 1 (Z.to_nat n), repeat 1 (Z.to_nat n)) = Ok (P, Pi) /\
    len P = n /\ len Pi = n /\
    forall p, 0 <= p < n ->
              zth P p = psi ^ p mod q /\ zth Pi p = psi_inv ^ p mod q.
Proof.
  intros Hq Hn.
  destruct (for_range_inv
              (fun c (st : list Z * list Z) =>
                 len (fst st) = n /\ len (snd st) = n /\
                 forall p, 0 <= p < c ->
                           zth (fst st) p = psi ^ p mod q /\
                           zth (snd st) p = psi_inv ^ p mod q)
              1 n (table_step q psi psi_inv)
              (repeat 1 (Z.to_nat n), repeat 1 (Z.to_nat n)))
    as [[P Pi] [E [HP [HPi Hz]]]].
  - assumption.
  - cbn [fst snd]. rewrite !len_repeat.
    split; [lia|]. split; [lia|].
    intros p Hp. assert (p = 0) as -> by lia.
    rewrite zth_repeat by lia. rewrite !Z.pow_0_r, Z.mod_1_l by lia. auto.
  - intros c [P Pi] Hc [HP [HPi Hz]]. cbn [fst snd] in *.
    unfold table_step.
    rewrite (py_getitem_zth P) by lia. cbn [bind].
    rewrite py_mod_ok by lia. cbn [bind].
    rewrite py_setitem_in by lia. cbn [bind].
    rewrite (py_getitem_zth Pi) by lia. cbn [bind].
    rewrite py_mod_ok by lia. cbn [bind].
    rewrite py_setitem_in by lia. cbn [bind].
    eexists; split; [reflexivity|]. cbn [fst snd].
    rewrite !len_list_update. split; [assumption|]. split; [assumption|].
    intros p Hp. rewrite !zth_update by lia.
    destruct (Z.eqb_spec p c) as [->|Hne].
    + destruct (Hz (c - 1) ltac:(lia)) as [H1 H2].
      rewrite H1, H2, !Z.mul_mod_idemp_l by lia.
      rewrite (pow_pred psi c), (pow_pred psi_inv c) by lia. auto.
    + apply Hz. lia.
  - exists P, Pi. cbn [fst snd] in *. auto.
Qed.

(** Lines 7-22 of the caller, for [n = 2^k] and [q > 1].  When [psi] is
    coprime to [q], both tables have length [n], entry [x] of the first is
    [psi^rev(x) mod q] and entry [x] of the second is the same power of the
    inverse of [psi] in [[0, q)]; when it is not, [pow(psi, -1, q)] raises
    [ValueError] before any table is built. *)
Theorem psi_tables_contents k q psi :
  1 < q ->
  (Z.gcd psi q = 1 ->
   exists Tf Ti psi_inv,
     psi_tables (2 ^ Z.of_nat k) q psi = Ok (Tf, Ti) /\
     len Tf = 2 ^ Z.of_nat k /\ len Ti = 2 ^ Z.of_nat k /\
     0 <= psi_inv < q /\ (psi * psi_inv) mod q = 1 /\
     forall x, 0 <= x < 2 ^ Z.of_nat k ->
               zth Tf x = psi ^ bitrev k x mod q /\
               zth Ti x = psi_inv ^ bitrev k x mod q) /\
  (Z.gcd psi q <> 1 ->
   psi_tables (2 ^ Z.of_nat k) q psi = Raise ValueError).
Proof.
  intros Hq. split.
  - intros Hg. unfold psi_tables.
    destruct (py_pow3_inverse psi q ltac:(lia) Hg) as [Einv Hinv].
    rewrite Einv. cbn [bind].
    pose proof (pow2_pos k) as Hn.
    destruct (power_tables_exact q psi (Z.invmod psi q mod q) (2 ^ Z.of_nat k)
                                 Hq ltac:(lia)) as [P [Pi [E [HP [HPi Hz]]]]].
    rewrite E. cbn [bind].
    destruct (bit_reverse_order_zth P k HP) as [Tf [ETf [HTf HzTf]]].
    destruct (bit_reverse_order_zth Pi k HPi) as [Ti [ETi [HTi HzTi]]].
    rewrite ETf. cbn [bind]. rewrite ETi. cbn [bind].
    exists Tf, Ti, (Z.invmod psi q mod q).
    split; [reflexivity|]. split; [lia|]. split; [lia|].
    split; [apply Z.mod_pos_bound; lia|]. split.
    + unfold cong in Hinv. rewrite Z.mul_comm, Hinv. apply Z.mod_1_l. lia.
    + intros x Hx. pose proof (bitrev_range k x).
      rewrite HzTf, HzTi by lia. apply Hz. lia.
  - intros Hg. unfold psi_tables, py_pow3.
    destruct (Z.eqb_spec q 0); [lia|].
    change (0 <=? -1) with false. cbv iota.
    destruct (Z.eqb_spec (Z.gcd psi q) 1); [contradiction | reflexivity].
Qed.

Lemma psi_tables_contents_witness :
  (exists Tf Ti psi_inv,
     psi_tables (2 ^ Z.of_nat 3) 17 3 = Ok (Tf, Ti) /\
     len Tf = 2 ^ Z.of_nat 3 /\ len Ti = 2 ^ Z.of_nat 3 /\
     0 <= psi_inv < 17 /\ (3 * psi_inv) mod 17 = 1 /\
     forall x, 0 <= x < 2 ^ Z.of_nat 3 ->
               zth Tf x = 3 ^ bitrev 3 x mod 17 /\
               zth Ti x = psi_inv ^ bitrev 3 x mod 17) /\
  psi_tables (2 ^ Z.of_nat 3) 15 3 = Raise ValueError.
Proof.
  split.
  - destruct (psi_tables_contents 3 17 3) as [H _]; [lia|].
    apply H. reflexivity.
  - destruct (psi_tables_contents 3 15 3) as [_ H]; [lia|].
    apply H. vm_compute. discriminate.
Defined.

(** ** The pointwise product of line 28 *)

(** [zip] stops at the shorter list: the product has the length of the
    shorter argument and its entries are the products modulo [q]; with the
    modulus 0 it raises [ZeroDivisionError] exactly when both lists are
    non-empty. *)
Theorem pointwise_mul_zip q A B :
  (q <> 0 ->
   exists C,
     pointwise_mul q A B = Ok C /\
     len C = Z.min (len A) (len B) /\
     forall p, 0 <= p < len C -> zth C p = (zth A p * zth B p) mod q) /\
  (q = 0 ->
   pointwise_mul q A B =
   match A, B with
   | _ :: _, _ :: _ => Raise ZeroDivisionError
   | _, _ => Ok []
   end).
Proof.
  split.
  - intros Hq. revert B. induction A as [|x A IH]; intros B.
    + exists []. cbn. repeat split; try lia;
        try (unfold len; simpl; lia).
    + destruct B as [|y B].
      * exists []. cbn. repeat split; try lia;
          try (unfold len; simpl; lia).
      * cbn [pointwise_mul]. rewrite py_mod_ok by assumption. cbn [bind].
        destruct (IH B) as [C [EC [HlC HC]]]. rewrite EC. cbn [bind].
        eexists; split; [reflexivity|]. split.
        -- unfold len in *. cbn [List.length]. lia.
        -- intros p Hp. destruct (Z.eq_dec p 0) as [->|Hne]; [reflexivity|].
           unfold zth in *.
           replace (Z.to_nat p) with (S (Z.to_nat (p - 1))) by lia.
           cbn [nth]. apply HC. unfold len in *. cbn [List.length] in Hp. lia.
  - intros ->. destruct A as [|x A], B as [|y B]; reflexivity.
Qed.

(** ** The forward transform is additive *)

Lemma add_mod_len q a b : len a = len b -> len (add_mod q a b) = len a.
Proof.
  intros H. unfold add_mod, len in *.
  rewrite length_map, length_combine. lia.
Qed.

Lemma add_mod_zth q a b p :
  len a = len b -> 0 <= p < len a ->
  zth (add_mod q a b) p = (zth a p + zth b p) mod q.
Proof.
  intros Hl Hp. unfold add_mod, zth, len in *.
  rewrite nth_indep with (d' := (fun xy => (fst xy + snd xy) mod q) (0, 0))
    by (rewrite length_map, length_combine; lia).
  rewrite (map_nth (fun xy => (fst xy + snd xy) mod q) (combine a b) (0, 0)).
  rewrite combine_nth by lia. reflexivity.
Qed.

(** With the caller's forward table the transform of the entrywise sum is
    the entrywise sum of the transforms, modulo [q]. *)
Theorem speedup_FNTT_additive k q psi a b :
  1 < q ->
  psi ^ (2 ^ Z.of_nat k) mod q = q - 1 ->
  len a = 2 ^ Z.of_nat k -> len b = 2 ^ Z.of_nat k ->
  residues q a -> residues q b ->
  exists Tf Ti Fa Fb Fab,
    psi_tables (2 ^ Z.of_nat k) q psi = Ok (Tf, Ti) /\
    speedup_FNTT a q Tf = Ok Fa /\
    speedup_FNTT b q Tf = Ok Fb /\
    speedup_FNTT (add_mod q a b) q Tf = Ok Fab /\
    Fab = add_mod q Fa Fb.
Proof.
  intros Hq Hpsi Ha Hb Hra Hrb. pose proof (pow2_pos k) as Hn.
  assert (Hhalf : cong q (psi ^ (2 ^ Z.of_nat k)) (-1))
    by (apply cong_neg_one; assumption).
  assert (Hg : Z.gcd psi q = 1).
  { apply (coprime_of_inverse psi (psi ^ (2 * 2 ^ Z.of_nat k - 1))).
    rewrite <- Z.pow_succ_r by lia.
    replace (Z.succ (2 * 2 ^ Z.of_nat k - 1)) with (2 * 2 ^ Z.of_nat k) by lia.
    apply pow_double_mod; lia. }
  destruct (psi_tables_spec q k psi ltac:(lia) Hg)
    as [Tf [Ti [psi_inv [ET [HTf [HTi [Hinv HT]]]]]]].
  assert (HTpow : forall x, 0 <= x < 2 ^ Z.of_nat k ->
                            cong q (zth Tf x) (psi ^ bitrev k x))
    by (intros x Hx; apply HT; assumption).
  set (c := add_mod q a b).
  assert (Hc : len c = 2 ^ Z.of_nat k)
    by (unfold c; rewrite add_mod_len; lia).
  assert (Hrc : residues q c).
  { apply residues_of_zth. intros p Hp. unfold c.
    rewrite add_mod_zth by lia. apply Z.mod_pos_bound. lia. }
  destruct (speedup_FNTT_evaluates q k psi Tf ltac:(lia) HTf HTpow Hhalf a Ha)
    as [Fa [EFa [HlFa HFa]]].
  destruct (speedup_FNTT_evaluates q k psi Tf ltac:(lia) HTf HTpow Hhalf b Hb)
    as [Fb [EFb [HlFb HFb]]].
  destruct (speedup_FNTT_evaluates q k psi Tf ltac:(lia) HTf HTpow Hhalf c Hc)
    as [Fc [EFc [HlFc HFc]]].
  exists Tf, Ti, Fa, Fb, Fc. repeat (split; [assumption|]).
  apply zth_ext; [rewrite add_mod_len; lia|].
  intros p Hp. rewrite add_mod_zth by lia.
  apply (cong_small q).
  - apply (speedup_FNTT_residues q k Tf c Fc); auto; lia.
  - apply Z.mod_pos_bound. lia.
  - rewrite cong_mod, HFa, HFb, HFc by lia. unfold poly_eval.
    assert (El : List.length c = List.length a /\ List.length b = List.length a)
      by (unfold len in *; lia).
    destruct El as [-> ->]. rewrite <- zsum_add. apply zsum_cong.
    intros u Hu. unfold c. rewrite add_mod_zth by (unfold len in *; lia).
    rewrite cong_mod. cong_ring.
Qed.

Lemma speedup_FNTT_additive_witness :
  exists Tf Ti Fa Fb Fab,
    psi_tables (2 ^ Z.of_nat 2) 17 2 = Ok (Tf, Ti) /\
    speedup_FNTT [1; 2; 3; 4] 17 Tf = Ok Fa /\
    speedup_FNTT [16; 0; 9; 13] 17 Tf = Ok Fb /\
    speedup_FNTT (add_mod 17 [1; 2; 3; 4] [16; 0; 9; 13]) 17 Tf = Ok Fab /\
    Fab = add_mod 17 Fa Fb.
Proof.
  apply (speedup_FNTT_additive 2 17 2 [1; 2; 3; 4] [16; 0; 9; 13]);
    try reflexivity; repeat constructor; lia.
Defined.

(** ** A table shorter than the input *)

Lemma zrange_app lo c hi :
  lo <= c <= hi -> zrange lo hi = zrange lo c ++ zrange c hi.
Proof.
  remember (Z.to_nat (c - lo)) as m eqn:Hm. revert lo Hm.
  induction m as [|m IH]; intros lo Hm H.
  - assert (c = lo) as -> by lia. now rewrite (zrange_nil lo lo) by lia.
  - rewrite (zrange_cons lo hi), (zrange_cons lo c) by lia.
    cbn [app]. f_equal. apply IH; lia.
Qed.

Lemma for_each_app {X S} (xs ys : list X) (body : X -> S -> result S) s :
  for_each (xs ++ ys) body s = bind (for_each xs body s) (for_each ys body).
Proof.
  revert s; induction xs as [|x xs IH]; intros s; cbn [app for_each bind];
    [reflexivity|].
  destruct (body x s); cbn [bind]; auto.
Qed.

(** A counted loop whose body raises at index [c], after running under an
    invariant up to there, raises. *)
Lemma for_range_raise_at {S} (P : Z -> S -> Prop) e lo c hi
      (body : Z -> S -> result S) s :
  lo <= c < hi ->
  P lo s ->
  (forall i s0, lo <= i < c -> P i s0 ->
                exists s1, body i s0 = Ok s1 /\ P (i + 1) s1) ->
  (forall s0, P c s0 -> body c s0 = Raise e) ->
  for_range lo hi body s = Raise e.
Proof.
  intros Hc H0 Hstep Hbad.
  destruct (for_range_inv P lo c body s ltac:(lia) H0 Hstep) as [s' [E Hs']].
  unfold for_range in *. rewrite (zrange_app lo c hi) by lia.
  rewrite for_each_app, E. cbn [bind].
  rewrite zrange_cons by lia. cbn [for_each]. now rewrite Hbad.
Qed.

Lemma py_getitem_high {A} (l : list A) i :
  len l <= i -> py_getitem l i = Raise IndexError.
Proof.
  intros H. unfold py_getitem. rewrite py_norm_index_high; [reflexivity|].
  pose proof (len_nonneg l). lia.
Qed.

Lemma fntt_stage_short q m t tbl A0 :
  q <> 0 -> 0 < m -> 0 < t -> len A0 = 2 * m * t -> len tbl < 2 * m ->
  for_range 0 m (fntt_group q t m tbl) A0 = Raise IndexError.
Proof.
  intros Hq Hm Ht Hlen Htbl. pose proof (len_nonneg tbl) as Hnn.
  apply (for_range_raise_at (fun _ A => len A = len A0) IndexError
                            0 (Z.max 0 (len tbl - m)) m); try lia.
  - intros i A Hi Hl. unfold fntt_group.
    rewrite py_getitem_zth by lia. cbn [bind].
    pose proof (block_below i m t ltac:(lia) ltac:(lia)) as Hb.
    destruct (bfly_group t (ct_lo q (zth tbl (m + i))) (ct_hi q (zth tbl (m + i)))
                         (ct_butterfly q t (zth tbl (m + i))) Ht
                         ltac:(intros; apply ct_butterfly_step; lia)
                         (2 * i * t) A ltac:(nia) ltac:(lia))
      as [A' [E' [Hl' _]]].
    exists A'. split; [exact E' | lia].
  - intros A Hl. unfold fntt_group.
    rewrite py_getitem_high by lia. reflexivity.
Qed.

Lemma intt_stage_short q h t tbl A0 :
  q <> 0 -> 0 < h -> 0 < t -> len A0 = 2 * h * t -> len tbl < 2 * h ->
  for_range 0 h (intt_group q t h tbl) (A0, 0) = Raise IndexError.
Proof.
  intros Hq Hh Ht Hlen Htbl. pose proof (len_nonneg tbl) as Hnn.
  apply (for_range_raise_at
           (fun i (st : list Z * Z) =>
              len (fst st) = len A0 /\ snd st = 2 * i * t)
           IndexError 0 (Z.max 0 (len tbl - h)) h); try lia.
  - cbn [fst snd]. lia.
  - intros i [A j] Hi [Hl Hj]. cbn [fst snd] in *. subst j.
    unfold intt_group.
    rewrite py_getitem_zth by lia. cbn [bind].
    pose proof (block_below i h t ltac:(lia) ltac:(lia)) as Hb.
    destruct (bfly_group t (gs_lo q) (gs_hi q (zth tbl (h + i)))
                         (gs_butterfly q t (zth tbl (h + i))) Ht
                         ltac:(intros; apply gs_butterfly_step; lia)
                         (2 * i * t) A ltac:(nia) ltac:(lia))
      as [A' [E' [Hl' _]]].
    rewrite E'. cbn [bind]. eexists; split; [reflexivity|]. cbn [fst snd].
    split; [lia | rewrite shiftl_1; ring].
  - intros [A j] [Hl Hj]. unfold intt_group.
    rewrite py_getitem_high by lia. reflexivity.
Qed.

Lemma fntt_while_short q k tbl :
  q <> 0 -> len tbl < 2 ^ Z.of_nat k ->
  forall d s X fuel,
    (s + d = k)%nat -> (1 <= d)%nat -> len X = 2 ^ Z.of_nat k ->
    (d <= fuel)%nat ->
    fntt_while fuel q (2 ^ Z.of_nat k) tbl (2 ^ Z.of_nat s) (2 ^ Z.of_nat d) X
    = Raise IndexError.
Proof.
  intros Hq Htbl. induction d as [|d IH]; intros s X fuel Hk Hd HX Hfuel;
    [lia|].
  destruct fuel as [|fuel]; [lia|].
  pose proof (pow2_pos s) as Hs. pose proof (pow2_pos d) as Hd'.
  assert (Hn : 2 ^ Z.of_nat k = 2 * 2 ^ Z.of_nat s * 2 ^ Z.of_nat d).
  { rewrite <- Hk, pow2_add, pow2_S. ring. }
  cbn [fntt_while].
  destruct (Z.ltb_spec (2 ^ Z.of_nat s) (2 ^ Z.of_nat k)) as [_|Hge]; [|nia].
  rewrite shiftr_1, shiftl_1, (pow2_S d).
  replace (2 * 2 ^ Z.of_nat d / 2) with (2 ^ Z.of_nat d)
    by (rewrite Z.mul_comm, Z.div_mul; lia).
  destruct (Z.le_gt_cases (2 * 2 ^ Z.of_nat s) (len tbl)) as [Hlong|Hshort].
  - destruct (fntt_stage q (2 ^ Z.of_nat s) (2 ^ Z.of_nat d) tbl X)
      as [X' [EX' [HlX' _]]]; try lia.
    rewrite EX'. cbn [bind]. rewrite <- (pow2_S s).
    apply IH; try lia.
    destruct d as [|d]; [change (2 ^ Z.of_nat 0) with 1 in Hn; lia | lia].
  - rewrite fntt_stage_short by lia. reflexivity.
Qed.

(** On a power-of-two length [n >= 2] and a non-zero modulus, a table
    shorter than [n] makes both transforms raise [IndexError]. *)
Theorem transforms_short_table q k tbl a :
  q <> 0 -> (1 <= k)%nat ->
  len a = 2 ^ Z.of_nat k -> len tbl < 2 ^ Z.of_nat k ->
  speedup_FNTT a q tbl = Raise IndexError /\
  speedup_INTT a q tbl = Raise IndexError.
Proof.
  intros Hq Hk Ha Htbl.
  assert (Hfuel : (k <= List.length a)%nat).
  { pose proof (pow2_ge k). unfold len in Ha. lia. }
  split.
  - unfold speedup_FNTT. rewrite Ha.
    change 1 with (2 ^ Z.of_nat 0) at 1.
    apply (fntt_while_short q k tbl Hq Htbl k O a); lia.
  - unfold speedup_INTT. rewrite Ha.
    destruct (List.length a) as [|f] eqn:Ef; [lia|].
    destruct k as [|k']; [lia|].
    cbn [intt_while]. pose proof (pow2_pos k') as Hp.
    destruct (Z.gtb_spec (2 ^ Z.of_nat (S k')) 1) as [_|Hle];
      [|rewrite pow2_S in Hle; lia].
    rewrite shiftr_1, (pow2_S k').
    replace (2 * 2 ^ Z.of_nat k' / 2) with (2 ^ Z.of_nat k')
      by (rewrite Z.mul_comm, Z.div_mul; lia).
    rewrite pow2_S in Ha, Htbl.
    rewrite intt_stage_short by lia. reflexivity.
Qed.

Lemma transforms_short_table_witness :
  speedup_FNTT [1; 2; 3; 4] 17 [1; 4; 13] = Raise IndexError /\
  speedup_INTT [1; 2; 3; 4] 17 [1; 4; 13] = Raise IndexError.
Proof.
  apply (transforms_short_table 17 2 [1; 4; 13] [1; 2; 3; 4]);
    try reflexivity; lia.
Defined.
